(** * Kinkstore PIM: the Shopify GraphQL client and the Google Drive import

    A shallow embedding of [src/lib/shopify/client.ts] (rate limiting, the
    retry loop of [query], the [paginate] generator), of the handler of
    [src/app/api/gdrive/import/route.ts] with its per-file loop, and of the
    payload builders of [src/app/api/products/validate.ts], with the
    properties the specification states about them and further ones read
    off the code.

    Conventions.
    - JavaScript numbers are modelled by exact rationals ([Q]); [Date.now()]
      and attempt counters are integers ([Z]).  A division by zero, which
      JavaScript answers with [Infinity], is kept apart ([PosInfinity]).
      The code computes in IEEE doubles: where a comparison is decided by a
      rounding error of the last bit, the model decides it exactly, and what
      is proved about the numbers of the rate limiter holds of the code up
      to that rounding.
    - [await] and timers are modelled by the trace of events they leave
      behind: which requests were sent and which delays were handed to
      [setTimeout], in program order.
    - The outside world is a pair of oracles: [server] answers the n-th
      request, [clock] gives the value [Date.now()] reads after n events.
      Every theorem quantifies over both. *)

From Stdlib Require Import ZArith QArith Qminmax Lqa Ascii String List Lia.
From stdpp Require Import gmap strings list fin_maps pretty.

Local Open Scope string_scope.

(** ** JavaScript values that travel as GraphQL variables

    The scalar values are enough for every call site of the client. *)

Inductive Value :=
| VNull
| VBool (b : bool)
| VNum (n : Q)
| VStr (s : string).

(** What a [throw] carries as far as this code can tell: the message. *)
Inductive Result (T : Type) :=
| Ok (value : T)
| Throw (message : string).
Arguments Ok {T} value.
Arguments Throw {T} message.

(** A delay in milliseconds as the code computes it. *)
Inductive Delay :=
| Finite (ms : Q)
| PosInfinity.

Module Shopify.

(** *** Response shapes (interface GraphQLResponse) *)

Record ErrorExtensions := {
  code : string;
  requestId : string
}.

(** [locations] and [path] are never read by the client and are left out. *)
Record GraphQLError := {
  message : string;
  error_extensions : option ErrorExtensions
}.

Record ThrottleStatus := {
  maximumAvailable : Q;
  currentlyAvailable : Q;
  restoreRate : Q
}.

Record Cost := {
  requestedQueryCost : Q;
  actualQueryCost : Q;
  throttleStatus : option ThrottleStatus
}.

Record Extensions := {
  cost : option Cost
}.

Record GraphQLResponse (T : Type) := {
  data : option T;
  errors : option (list GraphQLError);
  extensions : option Extensions
}.
Arguments data {T} _.
Arguments errors {T} _.
Arguments extensions {T} _.

(** *** interface RateLimitState *)

Record RateLimitState := {
  rl_available : Q;
  rl_restoreRate : Q;
  rl_lastUpdate : Z
}.

(** The field initialiser of [rateLimitState]; [now] is the [Date.now()] of
    the construction. *)
Definition initialRateLimit (now : Z) : RateLimitState :=
  {| rl_available := 1000; rl_restoreRate := 50; rl_lastUpdate := now |}.

(** [extensions?.cost?.throttleStatus] *)
Definition reportedThrottle (ext : option Extensions) : option ThrottleStatus :=
  match ext with
  | Some e => match cost e with
              | Some c => throttleStatus c
              | None => None
              end
  | None => None
  end.

(** [updateRateLimit(extensions)], with [now] the value of [Date.now()]. *)
Definition updateRateLimit (ext : option Extensions) (now : Z)
    (st : RateLimitState) : RateLimitState :=
  match reportedThrottle ext with
  | Some ts => {| rl_available := currentlyAvailable ts;
                  rl_restoreRate := restoreRate ts;
                  rl_lastUpdate := now |}
  | None => st
  end.

(** The three [const]s of [waitForRateLimit]. *)
Definition elapsed (st : RateLimitState) (now : Z) : Q :=
  inject_Z (now - rl_lastUpdate st) / 1000.

Definition restored (st : RateLimitState) (now : Z) : Q :=
  elapsed st now * rl_restoreRate st.

Definition estimated (st : RateLimitState) (now : Z) : Q :=
  Qmin 1000 (rl_available st + restored st now).

Definition Qltb (a b : Q) : bool := negb (Qle_bool b a).

(** [x / d * 1000] for a positive [x]: [Infinity] when [d] is zero. *)
Definition waitTime (missing : Q) (rate : Q) : Delay :=
  if Qeq_bool rate 0 then PosInfinity else Finite ((missing / rate) * 1000).

Definition plusMs (d : Delay) (ms : Q) : Delay :=
  match d with
  | Finite q => Finite (q + ms)
  | PosInfinity => PosInfinity
  end.

(** [waitForRateLimit(cost)]: the delay handed to [setTimeout], or [None]
    when the [if] is not entered and the call resolves without a timer.
    The arithmetic is exact where the code rounds to doubles. *)
Definition waitForRateLimit (cost : Q) (now : Z) (st : RateLimitState)
    : option Delay :=
  if Qltb (estimated st now) cost
  then Some (plusMs (waitTime (cost - estimated st now) (rl_restoreRate st)) 100)
  else None.

(** *** The world the client talks to *)

Record Request := {
  req_query : string;
  req_variables : option (gmap string Value)
}.

(** What one [fetch] followed by [response.json()] can come to. *)
Inductive FetchOutcome (T : Type) :=
| NetworkError (msg : string)
| HttpError (status : Z) (statusText : string)
| BadBody (msg : string)
| Json (response : GraphQLResponse T).
Arguments NetworkError {T} msg.
Arguments HttpError {T} status statusText.
Arguments BadBody {T} msg.
Arguments Json {T} response.

Inductive Event :=
| RateLimitWait (d : Delay)
| Fetch (r : Request)
| ThrottledWait (ms : Z)
| Backoff (ms : Z).

(** The mutable part of a client together with what it has done so far. *)
Record Session := {
  rateLimitState : RateLimitState;
  sent : nat;
  trace : list Event
}.

Definition record (e : Event) (s : Session) : Session :=
  {| rateLimitState := rateLimitState s;
     sent := sent s;
     trace := trace s ++ [e] |}.

Definition countRequest (s : Session) : Session :=
  {| rateLimitState := rateLimitState s;
     sent := S (sent s);
     trace := trace s |}.

Definition setRateLimit (st : RateLimitState) (s : Session) : Session :=
  {| rateLimitState := st; sent := sent s; trace := trace s |}.

Record QueryOptions := {
  estimatedCost : option Q;
  retries : option Z
}.

(** [json.errors.some(e => e.extensions?.code === 'THROTTLED')] *)
Definition isThrottled (e : GraphQLError) : bool :=
  match error_extensions e with
  | Some x => String.eqb (code x) "THROTTLED"
  | None => false
  end.

(** [json.errors.map(e => e.message).join(', ')] *)
Definition errorMessages (errs : list GraphQLError) : string :=
  String.concat ", " (map message errs).

Inductive Step (T : Type) :=
| Returned (d : T)
| Continue
| Thrown (message : string).
Arguments Returned {T} d.
Arguments Continue {T}.
Arguments Thrown {T} message.

(** [!d] for a value [d] of [data]: whether the caller's type counts it
    among the truthy values (an object always is; 0, the empty string and
    [false] are not). *)
Class Truthiness (T : Type) := truthyData : T -> bool.

Section Client.

Context {T : Type} {truthiness : Truthiness T}.
Variable server : nat -> Request -> FetchOutcome T.
Variable clock : nat -> Z.

(** [Date.now()] *)
Definition dateNow (s : Session) : Z := clock (length (trace s)).

(** The [catch] block: remember the error and, unless this was the last
    attempt, sleep [2^attempt * 1000] ms. *)
Definition onCatch (attempt retries : Z) (s : Session) : Session :=
  if (attempt <? retries - 1)%Z
  then record (Backoff (2 ^ attempt * 1000)) s
  else s.

(** What the body of the [try] does with one reply: [return json.data],
    the throttled [continue], or a [throw] that lands in the [catch]. *)
Definition classify (out : FetchOutcome T) : Step T :=
  match out with
  | NetworkError m => Thrown m
  | HttpError status statusText =>
      Thrown ("HTTP " ++ pretty status ++ ": " ++ statusText)
  | BadBody m => Thrown m
  | Json r =>
      match errors r with
      | Some (e :: es) =>
          if existsb isThrottled (e :: es)
          then Continue
          else Thrown ("GraphQL Error: " ++ errorMessages (e :: es))
      | _ =>
          match data r with
          | Some d =>
              if truthyData d then Returned d
              else Thrown "No data in response"
          | None => Thrown "No data in response"
          end
      end
  end.

(** The session after the reply has been read: [updateRateLimit] runs for
    every reply that parsed as JSON, before the errors are looked at. *)
Definition observe (out : FetchOutcome T) (s : Session) : Session :=
  match out with
  | Json r => setRateLimit
                (updateRateLimit (extensions r) (dateNow s) (rateLimitState s)) s
  | _ => s
  end.

(** The [for (let attempt = 0; attempt < retries; attempt++)] loop, by
    recursion on the number of iterations it still has to run
    ([remaining] is [retries - attempt] as long as that is positive).  Both
    the [continue] of the throttled branch and the end of the [catch] block
    go through [attempt++]. *)
Fixpoint attempts (remaining : nat) (attempt retries : Z) (req : Request)
    (lastError : option string) (s : Session) : Result T * Session :=
  match remaining with
  | O => (Throw (default "Unknown error" lastError), s)
  | S remaining' =>
      let out := server (sent s) req in
      let s1 := observe out (countRequest (record (Fetch req) s)) in
      match classify out with
      | Returned d => (Ok d, s1)
      | Continue =>
          attempts remaining' (attempt + 1) retries req lastError
            (record (ThrottledWait 2000) s1)
      | Thrown m =>
          attempts remaining' (attempt + 1) retries req (Some m)
            (onCatch attempt retries s1)
      end
  end.

(** The same loop with its guard [attempt < retries] tested as the source
    tests it, on fuel; [None] stands for fuel that ran out.  It agrees with
    [attempts] whenever the fuel covers [retries - attempt]. *)
Fixpoint attemptsGuarded (fuel : nat) (attempt retries : Z) (req : Request)
    (lastError : option string) (s : Session)
    : option (Result T * Session) :=
  if (attempt <? retries)%Z then
    match fuel with
    | O => None
    | S fuel' =>
        let out := server (sent s) req in
        let s1 := observe out (countRequest (record (Fetch req) s)) in
        match classify out with
        | Returned d => Some (Ok d, s1)
        | Continue =>
            attemptsGuarded fuel' (attempt + 1) retries req lastError
              (record (ThrottledWait 2000) s1)
        | Thrown m =>
            attemptsGuarded fuel' (attempt + 1) retries req (Some m)
              (onCatch attempt retries s1)
        end
    end
  else Some (Throw (default "Unknown error" lastError), s).

Definition optEstimatedCost (options : option QueryOptions) : Q :=
  default 100%Q (options ≫= estimatedCost).

Definition optRetries (options : option QueryOptions) : Z :=
  default 3%Z (options ≫= retries).

(** [await this.waitForRateLimit(estimatedCost)] *)
Definition rateLimitGate (cost : Q) (s : Session) : Session :=
  match waitForRateLimit cost (dateNow s) (rateLimitState s) with
  | Some d => record (RateLimitWait d) s
  | None => s
  end.

(** [query(query, variables, options)] *)
Definition query (q : string) (variables : option (gmap string Value))
    (options : option QueryOptions) (s : Session) : Result T * Session :=
  let n := optRetries options in
  attempts (Z.to_nat n) 0 n
    {| req_query := q; req_variables := variables |}
    None
    (rateLimitGate (optEstimatedCost options) s).

End Client.

(** *** The [paginate] generator *)

Record PageInfo := {
  hasNextPage : bool;
  endCursor : option string
}.

Record PaginateOptions := {
  pageSize : option Q
}.

(** How a drained generator stopped: its body ran to the end, a [query]
    raised out of it, or the consumer stopped pulling. *)
Inductive GeneratorEnd :=
| Finished
| Raised (message : string)
| Suspended.

(** [after: cursor] for a [cursor] of type [string | null] *)
Definition cursorValue (cursor : option string) : Value :=
  match cursor with
  | Some c => VStr c
  | None => VNull
  end.

(** [{ ...variables, first: pageSize, after: cursor }] *)
Definition pageVariables (variables : gmap string Value) (size : Q)
    (cursor : option string) : gmap string Value :=
  <["after" := cursorValue cursor]> (<["first" := VNum size]> variables).

Section Paginate.

Context {T N : Type} {truthiness : Truthiness T}.
Variable server : nat -> Request -> FetchOutcome T.
Variable clock : nat -> Z.
Variable q : string.
Variable variables : gmap string Value.
Variable getPageInfo : T -> PageInfo.
Variable getNodes : T -> list N.

(** [if (nodes.length > 0) yield nodes] *)
Definition yielded (nodes : list N) : list (list N) :=
  match nodes with
  | [] => []
  | _ :: _ => [nodes]
  end.

(** The [while (hasNextPage)] loop, drained by a consumer that lets it run
    for at most [rounds] iterations; the first component lists the arrays
    yielded, in order. *)
Fixpoint paginateLoop (size : Q) (rounds : nat) (cursor : option string)
    (more : bool) (s : Session) : list (list N) * GeneratorEnd * Session :=
  if more then
    match rounds with
    | O => ([], Suspended, s)
    | S rounds' =>
        match query server clock q (Some (pageVariables variables size cursor))
                None s with
        | (Throw m, s') => ([], Raised m, s')
        | (Ok d, s') =>
            let pageInfo := getPageInfo d in
            let '(ys, e, s'') :=
              paginateLoop size rounds' (endCursor pageInfo)
                (hasNextPage pageInfo) s' in
            ((yielded (getNodes d) ++ ys)%list, e, s'')
        end
    end
  else ([], Finished, s).

Definition paginate (options : option PaginateOptions) (rounds : nat)
    (s : Session) : list (list N) * GeneratorEnd * Session :=
  paginateLoop (default 50%Q (options ≫= pageSize)) rounds None true s.

End Paginate.

(** *** Finite paged sources *)

Section Sources.

Context {T : Type} {truthiness : Truthiness T}.
Variable server : nat -> Request -> FetchOutcome T.
Variable q : string.
Variable variables : gmap string Value.
Variable size : Q.
Variable getPageInfo : T -> PageInfo.

(** The request [paginate] sends for a given cursor. *)
Definition pageRequest (cursor : option string) : Request :=
  {| req_query := q;
     req_variables := Some (pageVariables variables size cursor) |}.



End Sources.

(** *** Reading a trace *)

Definition fetches (evs : list Event) : list Request :=
  omap (fun e => match e with Fetch r => Some r | _ => None end) evs.

Definition backoffs (evs : list Event) : list Z :=
  omap (fun e => match e with Backoff ms => Some ms | _ => None end) evs.

Definition throttledWaits (evs : list Event) : list Z :=
  omap (fun e => match e with ThrottledWait ms => Some ms | _ => None end) evs.

(** The [after] variable of a request. *)
Definition afterOf (r : Request) : option Value :=
  req_variables r ≫= (fun vs => vs !! "after").

(** The events of [k] throttled attempts in a row. *)
Fixpoint throttledRounds (k : nat) (req : Request) : list Event :=
  match k with
  | O => []
  | S k' => Fetch req :: ThrottledWait 2000 :: throttledRounds k' req
  end.

(** The events of [k] attempts in a row that end in the [catch] block,
    the first of them being attempt number [a] of [R]. *)
Fixpoint failedRounds (k : nat) (a R : Z) (req : Request) : list Event :=
  match k with
  | O => []
  | S k' =>
      Fetch req ::
      ((if (a <? R - 1)%Z then [Backoff (2 ^ a * 1000)] else [])
         ++ failedRounds k' (a + 1) R req)%list
  end.

(** *** Histories of the rate-limit state *)

(** One call of [updateRateLimit]: the [extensions] of a reply and the
    [Date.now()] at which it was read. *)
Record Observation := {
  obs_extensions : option Extensions;
  obs_at : Z
}.

Definition observeAll (h : list Observation) (st : RateLimitState)
    : RateLimitState :=
  fold_left (fun st o => updateRateLimit (obs_extensions o) (obs_at o) st) h st.

(** The most recent reported throttle status of a history, with the time it
    was read at. *)
Fixpoint latestReport (h : list Observation) : option (ThrottleStatus * Z) :=
  match h with
  | [] => None
  | o :: rest =>
      match latestReport rest with
      | Some r => Some r
      | None =>
          match reportedThrottle (obs_extensions o) with
          | Some ts => Some (ts, obs_at o)
          | None => None
          end
      end
  end.

(** The state a report leaves behind. *)
Definition stateOfReport (ts : ThrottleStatus) (at_ : Z) : RateLimitState :=
  {| rl_available := currentlyAvailable ts;
     rl_restoreRate := restoreRate ts;
     rl_lastUpdate := at_ |}.

(** The throttle status a reply reports, if it reports one. *)
Definition reportOf {T} (out : FetchOutcome T) : option ThrottleStatus :=
  match out with
  | Json r => reportedThrottle (extensions r)
  | _ => None
  end.

(** An observation that stems from a reply of the server to [req]. *)
Definition fromReply {T} (server : nat -> Request -> FetchOutcome T)
    (req : Request) (o : Observation) : Prop :=
  exists n r, server n req = Json r /\ obs_extensions o = extensions r.

(** Whether the reply makes [query] take the throttled branch. *)
Definition throttledReply {T} (out : FetchOutcome T) : Prop :=
  exists r errs, out = Json r /\ errors r = Some errs /\
                 existsb isThrottled errs = true.

(** Whether the reply carries an error list that is not empty and has no
    throttling error in it. *)
Definition applicationErrorReply {T} (out : FetchOutcome T)
    (errs : list GraphQLError) : Prop :=
  exists r, out = Json r /\ errors r = Some errs /\ errs <> [] /\
            existsb isThrottled errs = false.

End Shopify.

(** ** The Google Drive import route *)

Module GDriveImport.

(** What a [catch (err)] finds: an [Error] with its message, or some other
    thrown value. *)
Inductive Exn :=
| JsError (message : string)
| JsOther.

(** [err instanceof Error ? err.message : 'Unknown error'] *)
Definition messageOf (e : Exn) : string :=
  match e with
  | JsError m => m
  | JsOther => "Unknown error"
  end.

(** *** Strings *)

(** [s.split(sep)] for a one-character separator; never empty. *)
Fixpoint split (sep : ascii) (s : string) : list string :=
  match s with
  | EmptyString => [EmptyString]
  | String c rest =>
      if Ascii.eqb c sep then EmptyString :: split sep rest
      else match split sep rest with
           | seg :: segs => String c seg :: segs
           | [] => [String c EmptyString]
           end
  end.

Definition truthy (s : string) : bool :=
  match s with
  | EmptyString => false
  | String _ _ => true
  end.

(** [parts.filter(Boolean).join(sep)] *)
Definition joinTruthy (sep : string) (parts : list string) : string :=
  String.concat sep (List.filter truthy parts).

(** [path.split('/').slice(0, -1).join('/')] *)
Definition folderOf (path : string) : string :=
  String.concat "/" (removelast (split "/"%char path)).

(** [path.split('/')[0]] *)
Definition skuLabelOf (path : string) : string :=
  hd EmptyString (split "/"%char path).

(** *** Records *)

(** The fields of a listed Drive file that the route reads. *)
Record RemoteFile := {
  file_id : string;
  file_name : string;
  file_mimeType : string;
  file_path : string
}.

Definition Buffer := list Byte.byte.

(** A row of [products] as selected by the route ([id, sku_label]). *)
Record Product := {
  product_row_id : string;
  product_sku_label : string
}.

Record MediaBucket := {
  bucket_id : string;
  product_id : string;
  sku_label : string;
  storj_path : string;
  bucket_status : string;
  google_drive_folder_path : string;
  last_upload_at : string
}.

(** [media_bucket_id] is [bucketInfo.id], which is [undefined] ([None])
    when the upsert answered with a row that has no [id]. *)
Record MediaAsset := {
  media_bucket_id : option string;
  media_type : string;
  workflow_state : string;
  workflow_category : string;
  file_url : string;
  file_key : string;
  file_size : nat;
  file_mime_type : string;
  original_filename : string;
  source_folder_path : string;
  google_drive_file_id : string;
  asset_google_drive_folder_path : string;
  import_source : string
}.

Record StoredObject := {
  object_bucket : string;
  object_key : string;
  object_body : Buffer;
  object_contentType : string
}.

(** The destination: the three tables the route touches, the number of row
    ids the store has handed out, and the object storage. *)
Record Destination := {
  products : list Product;
  media_buckets : list MediaBucket;
  media_assets : list MediaAsset;
  generated : nat;
  objects : list StoredObject
}.

(** What the [upsert(...).select(...).single()] call answers: the row
    with its [id], an error, no data, or a row in which [id] is
    [undefined]. *)
Inductive UpsertOutcome :=
| Upserted
| UpsertError (message : string)
| UpsertNoData
| UpsertedWithoutId.

(** The collaborators, as far as their behaviour is not fixed by the
    destination state.  Each oracle is asked with the position of the file
    in the listing. *)
Record Collaborators := {
  downloadDriveFile : nat -> Buffer + Exn;
  upsertAnswer : nat -> UpsertOutcome;
  uploadObject : nat -> option Exn;
  insertError : nat -> option string;
  isoNow : nat -> string;
  rowId : nat -> string
}.

(** [{ id, storjPath }], the values of [bucketCache]; [id] is [mb.id],
    [None] when that is [undefined]. *)
Record BucketInfo := {
  info_id : option string;
  info_storjPath : string
}.

Record ErrorEntry := {
  error_path : string;
  error_message : string
}.

(** The [results] object. *)
Record Results := {
  total : nat;
  uploaded : nat;
  failed : nat;
  errors : list ErrorEntry;
  assetsCreated : nat;
  bucketsCreated : nat;
  skippedNoProduct : nat
}.

(** The files that have reached one of the three final states. *)
Definition settled (r : Results) : nat :=
  assetsCreated r + skippedNoProduct r + failed r.

(** *** The record store *)

(** [from('products').select('id, sku_label').eq('sku_label', sku).single()]:
    the row when exactly one matches, no data otherwise. *)
Definition singleProduct (sku : string) (table : list Product)
    : option Product :=
  match List.filter (fun p => String.eqb (product_sku_label p) sku) table with
  | [p] => Some p
  | _ => None
  end.

(** Modelled from the spec: the record store's upsert by unique key, here
    with [onConflict: 'product_id'] and [ignoreDuplicates: false].  A row
    with the same [product_id] is overwritten in place and keeps its id;
    otherwise the new row is added. *)
Fixpoint upsertByProduct (row : MediaBucket) (table : list MediaBucket)
    : list MediaBucket * MediaBucket :=
  match table with
  | [] => ([row], row)
  | r :: rest =>
      if String.eqb (product_id r) (product_id row)
      then
        let row' := {| bucket_id := bucket_id r;
                       product_id := product_id row;
                       sku_label := sku_label row;
                       storj_path := storj_path row;
                       bucket_status := bucket_status row;
                       google_drive_folder_path := google_drive_folder_path row;
                       last_upload_at := last_upload_at row |} in
        (row' :: rest, row')
      else
        let '(rest', out) := upsertByProduct row rest in
        (r :: rest', out)
  end.

(** Whether a label resolves to a product with a usable id
    ([product?.id] is truthy). *)
Definition owned (table : list Product) (sku : string) : bool :=
  match singleProduct sku table with
  | Some p => truthy (product_row_id p)
  | None => false
  end.

(** What the claims about a run look at: the counters of [results] other
    than [bucketsCreated], the error entries, and the source paths of the
    rows of [media_assets], in order. *)
Record Ledger := {
  l_total : nat;
  l_uploaded : nat;
  l_assetsCreated : nat;
  l_skippedNoProduct : nat;
  l_failed : nat;
  l_errors : list ErrorEntry;
  l_assets : list string
}.

(** *** The per-file loop of [POST] *)

Record LoopState := {
  results : Results;
  bucketCache : gmap string BucketInfo;
  dest : Destination
}.

Definition withResults (f : Results -> Results) (st : LoopState) : LoopState :=
  {| results := f (results st);
     bucketCache := bucketCache st;
     dest := dest st |}.

Definition withDest (f : Destination -> Destination) (st : LoopState)
    : LoopState :=
  {| results := results st;
     bucketCache := bucketCache st;
     dest := f (dest st) |}.

Definition cacheSet (sku : string) (info : BucketInfo) (st : LoopState)
    : LoopState :=
  {| results := results st;
     bucketCache := <[sku := info]> (bucketCache st);
     dest := dest st |}.

Definition initialResults (files : list RemoteFile) : Results :=
  {| total := length files; uploaded := 0; failed := 0; errors := [];
     assetsCreated := 0; bucketsCreated := 0; skippedNoProduct := 0 |}.

(** [results.uploaded += 1] and its siblings. *)
Definition bumpUploaded (r : Results) : Results :=
  {| total := total r; uploaded := S (uploaded r); failed := failed r;
     errors := errors r; assetsCreated := assetsCreated r;
     bucketsCreated := bucketsCreated r;
     skippedNoProduct := skippedNoProduct r |}.

Definition bumpAssetsCreated (r : Results) : Results :=
  {| total := total r; uploaded := uploaded r; failed := failed r;
     errors := errors r; assetsCreated := S (assetsCreated r);
     bucketsCreated := bucketsCreated r;
     skippedNoProduct := skippedNoProduct r |}.

Definition bumpBucketsCreated (r : Results) : Results :=
  {| total := total r; uploaded := uploaded r; failed := failed r;
     errors := errors r; assetsCreated := assetsCreated r;
     bucketsCreated := S (bucketsCreated r);
     skippedNoProduct := skippedNoProduct r |}.

Definition bumpSkippedNoProduct (r : Results) : Results :=
  {| total := total r; uploaded := uploaded r; failed := failed r;
     errors := errors r; assetsCreated := assetsCreated r;
     bucketsCreated := bucketsCreated r;
     skippedNoProduct := S (skippedNoProduct r) |}.

(** The [catch] block of the loop. *)
Definition recordFailure (path message : string) (r : Results) : Results :=
  {| total := total r; uploaded := uploaded r; failed := S (failed r);
     errors := errors r ++ [{| error_path := path; error_message := message |}];
     assetsCreated := assetsCreated r;
     bucketsCreated := bucketsCreated r;
     skippedNoProduct := skippedNoProduct r |}.

Definition setBuckets (table : list MediaBucket) (d : Destination)
    : Destination :=
  {| products := products d; media_buckets := table;
     media_assets := media_assets d; generated := S (generated d);
     objects := objects d |}.

Definition putObject (o : StoredObject) (d : Destination) : Destination :=
  {| products := products d; media_buckets := media_buckets d;
     media_assets := media_assets d; generated := generated d;
     objects := objects d ++ [o] |}.

Definition insertAsset (a : MediaAsset) (d : Destination) : Destination :=
  {| products := products d; media_buckets := media_buckets d;
     media_assets := media_assets d ++ [a]; generated := generated d;
     objects := objects d |}.

(** How the [try] block of one iteration ends. *)
Inductive BodyEnd :=
| Completed
| Skipped
| Caught (message : string).

(** How the lookup-or-create of the media bucket ends. *)
Inductive Resolved :=
| Bucket (info : BucketInfo)
| NoProduct
| BucketFailed (message : string).

Section Loop.

Variable env : Collaborators.
Variable bucket : string.
Variable basePath : string.

Definition mediaTypeOf (mimeType : string) : string :=
  if String.prefix "image/" mimeType then "image"
  else if String.prefix "video/" mimeType then "video"
  else "file".

Definition bucketRow (i : nat) (file : RemoteFile) (skuLabel : string)
    (product : Product) (d : Destination) : MediaBucket :=
  {| bucket_id := rowId env (generated d);
     product_id := product_row_id product;
     sku_label := skuLabel;
     storj_path := joinTruthy EmptyString [basePath; "products/" ++ skuLabel ++ "/"];
     bucket_status := "active";
     google_drive_folder_path := folderOf (file_path file);
     last_upload_at := isoNow env i |}.

Definition assetRow (file : RemoteFile) (info : BucketInfo) (key : string)
    (buffer : Buffer) : MediaAsset :=
  {| media_bucket_id := info_id info;
     media_type := mediaTypeOf (file_mimeType file);
     workflow_state := "imported";
     workflow_category := "raw";
     file_url := "storj://" ++ bucket ++ "/" ++ key;
     file_key := key;
     file_size := length buffer;
     file_mime_type := file_mimeType file;
     original_filename := file_name file;
     source_folder_path := file_path file;
     google_drive_file_id := file_id file;
     asset_google_drive_folder_path := folderOf (file_path file);
     import_source := "google_drive" |}.

(** Lines 65 to 109: the cached bucket, or the product lookup followed by
    the upsert.  A row that comes back is cached under the label in either
    case; [bucketsCreated] is bumped only when the row has an [id]
    ([mb.id !== undefined], line 101). *)
Definition resolveBucket (i : nat) (file : RemoteFile) (skuLabel : string)
    (st : LoopState) : Resolved * LoopState :=
  match bucketCache st !! skuLabel with
  | Some info => (Bucket info, st)
  | None =>
      match singleProduct skuLabel (products (dest st)) with
      | None => (NoProduct, withResults bumpSkippedNoProduct st)
      | Some product =>
          if negb (truthy (product_row_id product))
          then (NoProduct, withResults bumpSkippedNoProduct st)
          else
            let row := bucketRow i file skuLabel product (dest st) in
            let '(table, mb) := upsertByProduct row (media_buckets (dest st)) in
            match upsertAnswer env i with
            | UpsertError m =>
                (BucketFailed
                   ("Bucket upsert failed for " ++ skuLabel ++ ": " ++ m), st)
            | UpsertNoData =>
                (BucketFailed
                   ("Bucket upsert returned no data for " ++ skuLabel),
                 withDest (setBuckets table) st)
            | Upserted =>
                let info := {| info_id := Some (bucket_id mb);
                               info_storjPath := storj_path mb |} in
                (Bucket info,
                 cacheSet skuLabel info
                   (withResults bumpBucketsCreated
                      (withDest (setBuckets table) st)))
            | UpsertedWithoutId =>
                let info := {| info_id := None;
                               info_storjPath := storj_path mb |} in
                (Bucket info,
                 cacheSet skuLabel info (withDest (setBuckets table) st))
            end
      end
  end.

(** The [try] block of one iteration. *)
Definition tryFile (i : nat) (file : RemoteFile) (st : LoopState)
    : BodyEnd * LoopState :=
  match downloadDriveFile env i with
  | inr e => (Caught (messageOf e), st)
  | inl buffer =>
      let skuLabel := skuLabelOf (file_path file) in
      if negb (truthy skuLabel)
      then (Caught "Missing SKU label in path", st)
      else
        match resolveBucket i file skuLabel st with
        | (NoProduct, st1) => (Skipped, st1)
        | (BucketFailed m, st1) => (Caught m, st1)
        | (Bucket info, st1) =>
            let key := joinTruthy "/" [basePath; file_path file] in
            match uploadObject env i with
            | Some e => (Caught (messageOf e), st1)
            | None =>
                let st2 :=
                  withResults bumpUploaded
                    (withDest
                       (putObject {| object_bucket := bucket;
                                     object_key := key;
                                     object_body := buffer;
                                     object_contentType := file_mimeType file |})
                       st1) in
                match insertError env i with
                | Some m =>
                    (Caught ("Asset insert failed for " ++ file_path file
                             ++ ": " ++ m), st2)
                | None =>
                    (Completed,
                     withResults bumpAssetsCreated
                       (withDest (insertAsset (assetRow file info key buffer))
                          st2))
                end
            end
        end
  end.

(** One iteration of [for (const file of files)]: the [try] with its
    [catch]. *)
Definition processFile (i : nat) (file : RemoteFile) (st : LoopState)
    : LoopState :=
  match tryFile i file st with
  | (Caught m, st') => withResults (recordFailure (file_path file) m) st'
  | (_, st') => st'
  end.

(** The loop, from the file at position [i] on. *)
Fixpoint importFrom (i : nat) (files : list RemoteFile) (st : LoopState)
    : LoopState :=
  match files with
  | [] => st
  | file :: rest => importFrom (S i) rest (processFile i file st)
  end.

(** Lines 39 to 52: fresh [results] and a fresh [bucketCache]. *)
Definition freshLoop (files : list RemoteFile) (d : Destination) : LoopState :=
  {| results := initialResults files; bucketCache := ∅; dest := d |}.

(** Lines 39 to 149: the fresh state, then the loop. *)
Definition importFiles (files : list RemoteFile) (d : Destination)
    : LoopState :=
  importFrom 0 files (freshLoop files d).

End Loop.

Definition ledger (st : LoopState) : Ledger :=
  {| l_total := total (results st);
     l_uploaded := uploaded (results st);
     l_assetsCreated := assetsCreated (results st);
     l_skippedNoProduct := skippedNoProduct (results st);
     l_failed := failed (results st);
     l_errors := errors (results st);
     l_assets := map source_folder_path (media_assets (dest st)) |}.

(** The cache only ever holds labels that resolve to a product of [table],
    and the loop leaves [products] as it found it. *)
Definition cacheSound (table : list Product) (st : LoopState) : Prop :=
  products (dest st) = table /\
  forall sku info, bucketCache st !! sku = Some info -> owned table sku = true.

(** *** Keys of the bucket table *)

(** The [product_id] column of [media_buckets], in row order. *)
Definition bucketKeys (d : Destination) : list string :=
  map product_id (media_buckets d).

(** What an upsert by key does to the key column. *)
Definition addKey (k : string) (ks : list string) : list string :=
  if bool_decide (k ∈ ks) then ks else (ks ++ [k])%list.

(** A bucket row agrees with [products]: its label resolves to the product
    it points to. *)
Definition owns (table : list Product) (row : MediaBucket) : Prop :=
  exists p, singleProduct (sku_label row) table = Some p /\
            product_row_id p = product_id row.

(** Two loop states between which the loop takes the same decisions about
    buckets: the same products, and caches holding the same labels. *)
Definition sameView (st1 st2 : LoopState) : Prop :=
  products (dest st1) = products (dest st2) /\
  forall sku, bucketCache st1 !! sku = None <-> bucketCache st2 !! sku = None.

(** Whether the collaborator call made for the file at position [i]
    succeeds. *)
Definition downloads (env : Collaborators) (i : nat) : bool :=
  match downloadDriveFile env i with
  | inl _ => true
  | inr _ => false
  end.

Definition stores (env : Collaborators) (i : nat) : bool :=
  match uploadObject env i with
  | None => true
  | Some _ => false
  end.

Definition inserts (env : Collaborators) (i : nat) : bool :=
  match insertError env i with
  | None => true
  | Some _ => false
  end.

(** Two runs meet collaborators that succeed and fail on the same calls.
    The bytes downloaded, the timestamps, the row ids handed out and the
    messages of failed downloads, uploads and inserts are free to differ. *)
Definition sameBehaviour (env1 env2 : Collaborators) : Prop :=
  forall i,
    downloads env1 i = downloads env2 i /\
    upsertAnswer env1 i = upsertAnswer env2 i /\
    stores env1 i = stores env2 i /\
    inserts env1 i = inserts env2 i.

(** How one step moves the key columns of two runs: not at all, or by an
    upsert of the same key in both. *)
Definition keysMove (before1 after1 before2 after2 : list string) : Prop :=
  (after1 = before1 /\ after2 = before2) \/
  exists k, after1 = addKey k before1 /\ after2 = addKey k before2.

(** *** The route handler *)

(** What the awaited calls of [POST] come to, in the order it makes them:
    what lines 15 to 21 throw, if they throw (reading [body.folderId] off a
    body that is JSON [null], [createUntypedClient], [getUser]); [folderId]
    and [bucket] after their [||] chains (the empty string when nothing was
    given); whether a user is signed in; what lines 33 to 35 make of the
    base path (the cleaned string, or the throw of [cleanPrefix] on a value
    that has no [replace]); and what [listFolderTree] comes to. *)
Record RouteInput := {
  opening : option Exn;
  folderId : string;
  storjBucket : string;
  signedIn : bool;
  cleanBasePath : string + Exn;
  listFolderTree : list RemoteFile + Exn
}.

Inductive Response :=
| ErrorResponse (status : Z) (error : string)
| ReportResponse (folder bucket basePath : string) (report : Results).

(** The handler: every throw outside the loop lands in the outer [catch]
    (lines 157 to 160), which answers 500 with the message. *)
Definition POST (env : Collaborators) (input : RouteInput) (d : Destination)
    : Response * Destination :=
  match opening input with
  | Some e => (ErrorResponse 500 (messageOf e), d)
  | None =>
      if negb (truthy (folderId input))
      then (ErrorResponse 400
              "folderId is required (or set GOOGLE_DRIVE_SKU_FOLDER_ID)", d)
      else if negb (truthy (storjBucket input))
      then (ErrorResponse 400
              "bucket is required (set STORJ_S3_BUCKET or STORJ_BUCKET)", d)
      else if negb (signedIn input)
      then (ErrorResponse 401 "Unauthorized", d)
      else
        match cleanBasePath input with
        | inr e => (ErrorResponse 500 (messageOf e), d)
        | inl basePath =>
            match listFolderTree input with
            | inr e => (ErrorResponse 500 (messageOf e), d)
            | inl files =>
                let st := importFiles env (storjBucket input) basePath
                            files d in
                (ReportResponse (folderId input) (storjBucket input)
                   basePath (results st),
                 dest st)
            end
        end
  end.

End GDriveImport.

(** ** Concrete worlds used in examples *)

Module Fixtures.

Import Shopify.

(** A clock on which every event takes one second. *)
Definition clock0 (n : nat) : Z := 1000 * Z.of_nat n.

(** A client right after its construction at time 0. *)
Definition freshSession : Session :=
  {| rateLimitState := initialRateLimit 0; sent := 0; trace := [] |}.

Definition shopQuery : string := "{ shop { name } }".

Definition shopRequest : Request :=
  {| req_query := shopQuery; req_variables := None |}.

Definition throttledError : GraphQLError :=
  {| message := "Throttled";
     error_extensions := Some {| code := "THROTTLED"; requestId := "req-1" |} |}.

Definition fieldError : GraphQLError :=
  {| message := "Field 'foo' doesn't exist on type 'Shop'";
     error_extensions := None |}.

(** A number is truthy unless it is 0. *)
#[global] Instance nat_truthiness : Truthiness nat :=
  fun n => negb (Nat.eqb n 0).

Definition dataReply (d : nat) : FetchOutcome nat :=
  Json {| data := Some d; errors := None; extensions := None |}.

Definition errorReply (errs : list GraphQLError) : FetchOutcome nat :=
  Json {| data := None; errors := Some errs; extensions := None |}.

(** Every reply is a throttling error. *)
Definition alwaysThrottled (n : nat) (r : Request) : FetchOutcome nat :=
  errorReply [throttledError].

(** A field error first, data from then on. *)
Definition errorThenData (n : nat) (r : Request) : FetchOutcome nat :=
  match n with
  | O => errorReply [fieldError]
  | _ => dataReply 42
  end.

(** A 502, then a network failure, then data. *)
Definition failTwice (n : nat) (r : Request) : FetchOutcome nat :=
  match n with
  | 0%nat => HttpError 502 "Bad Gateway"
  | 1%nat => NetworkError "fetch failed"
  | _ => dataReply 42
  end.

(** The report of a shop whose bucket holds 2000 points, 1500 of them
    available, restored at 100 points per second. *)
Definition bigBucket : ThrottleStatus :=
  {| maximumAvailable := 2000%Q; currentlyAvailable := 1500%Q;
     restoreRate := 100%Q |}.

(** A shop that answers every request with data and that report. *)
Definition bigShop (n : nat) (r : Request) : FetchOutcome nat :=
  Json {| data := Some 7;
          errors := None;
          extensions :=
            Some {| cost := Some {| requestedQueryCost := 10%Q;
                                    actualQueryCost := 10%Q;
                                    throttleStatus := Some bigBucket |} |} |}.

(** Field errors for ever. *)
Definition alwaysFieldError (n : nat) (r : Request) : FetchOutcome nat :=
  errorReply [fieldError].

(** A catalogue of 120 nodes in pages of 50, 50 and 20, handed out by
    cursor: what comes back depends only on the [after] variable. *)
Record CatalogPage := {
  nodes : list nat;
  pageInfo : PageInfo
}.

(** A page is an object, and truthy. *)
#[global] Instance page_truthiness : Truthiness CatalogPage := fun _ => true.

Definition page1 : CatalogPage :=
  {| nodes := seq 0 50;
     pageInfo := {| hasNextPage := true; endCursor := Some "eyJpZCI6NTB9" |} |}.

Definition page2 : CatalogPage :=
  {| nodes := seq 50 50;
     pageInfo := {| hasNextPage := true; endCursor := Some "eyJpZCI6MTAwfQ" |} |}.

Definition page3 : CatalogPage :=
  {| nodes := seq 100 20;
     pageInfo := {| hasNextPage := false; endCursor := Some "eyJpZCI6MTIwfQ" |} |}.

Definition pageReply (p : CatalogPage) : FetchOutcome CatalogPage :=
  Json {| data := Some p; errors := None; extensions := None |}.

Definition catalog (n : nat) (r : Request) : FetchOutcome CatalogPage :=
  match afterOf r with
  | Some VNull => pageReply page1
  | Some (VStr c) =>
      if String.eqb c "eyJpZCI6NTB9" then pageReply page2
      else if String.eqb c "eyJpZCI6MTAwfQ" then pageReply page3
      else HttpError 400 "Bad Request"
  | _ => HttpError 400 "Bad Request"
  end.

Definition productsQuery : string :=
  "query($first: Int, $after: String) { products(first: $first, after: $after) { nodes { id } pageInfo { hasNextPage endCursor } } }".

Definition productsVariables : gmap string Value :=
  {[ "query" := VStr "status:active" ]}.

End Fixtures.

Module ImportFixtures.

Import GDriveImport.

Definition driveFile (id name mimeType path : string) : RemoteFile :=
  {| file_id := id; file_name := name; file_mimeType := mimeType;
     file_path := path |}.

Definition front : RemoteFile :=
  driveFile "drv-1" "front.jpg" "image/jpeg" "KS-100/front.jpg".
Definition back : RemoteFile :=
  driveFile "drv-2" "back.jpg" "image/jpeg" "KS-100/back.jpg".
Definition orphan : RemoteFile :=
  driveFile "drv-3" "orphan.jpg" "image/jpeg" "KS-999/orphan.jpg".
Definition clip : RemoteFile :=
  driveFile "drv-4" "clip.mp4" "video/mp4" "KS-200/video/clip.mp4".
Definition manual : RemoteFile :=
  driveFile "drv-5" "manual.pdf" "application/pdf" "KS-200/manual.pdf".

(** Five files; the third sits under a label no product has. *)
Definition fiveFiles : list RemoteFile := [front; back; orphan; clip; manual].

Definition catalogue : list Product :=
  [ {| product_row_id := "prod-100"; product_sku_label := "KS-100" |};
    {| product_row_id := "prod-200"; product_sku_label := "KS-200" |} ].

(** A destination that knows the two products and holds nothing else. *)
Definition emptyDestination : Destination :=
  {| products := catalogue; media_buckets := []; media_assets := [];
     generated := 0; objects := [] |}.

(** Collaborators that never fail. *)
Definition reliable : Collaborators :=
  {| downloadDriveFile := fun _ => inl [Byte.xff; Byte.xd8; Byte.xff];
     upsertAnswer := fun _ => Upserted;
     uploadObject := fun _ => None;
     insertError := fun _ => None;
     isoNow := fun _ => "2024-05-01T12:00:00.000Z";
     rowId := fun n => "bucket-" ++ pretty n |}.

(** The same, except that the insert into [media_assets] is refused for the
    file at position [k]. *)
Definition insertFailsAt (k : nat) : Collaborators :=
  {| downloadDriveFile := downloadDriveFile reliable;
     upsertAnswer := upsertAnswer reliable;
     uploadObject := uploadObject reliable;
     insertError := fun i =>
       if Nat.eqb i k then Some "permission denied for table media_assets"
       else None;
     isoNow := isoNow reliable;
     rowId := rowId reliable |}.

Definition storj : string := "kinkstore-media".

(** Collaborators that never fail either, a day later: other timestamps,
    other row ids, other bytes. *)
Definition nextDay : Collaborators :=
  {| downloadDriveFile := fun _ => inl [Byte.x89; Byte.x50];
     upsertAnswer := fun _ => Upserted;
     uploadObject := fun _ => None;
     insertError := fun _ => None;
     isoNow := fun _ => "2024-05-02T09:30:00.000Z";
     rowId := fun n => "bucket-b" ++ pretty n |}.

(** The destination the five files leave behind when nothing fails, as the
    starting point of a second run. *)
Definition afterFirstRun : Destination :=
  dest (importFiles reliable storj EmptyString fiveFiles emptyDestination).

Definition afterSecondRun : Destination :=
  dest (importFiles nextDay storj EmptyString fiveFiles afterFirstRun).

End ImportFixtures.

(** ** The rest of the client module *)

Module ShopifyModule.

Import Shopify.

Definition SHOPIFY_API_VERSION : string := "2024-01".

(** interface ShopifyConfig *)
Record ShopifyConfig := {
  storeDomain : string;
  accessToken : string
}.

(** [get endpoint()] *)
Definition endpoint (config : ShopifyConfig) : string :=
  "https://" ++ storeDomain config ++ "/admin/api/" ++ SHOPIFY_API_VERSION
  ++ "/graphql.json".

(** An instance of the class: its [config] and its [rateLimitState]. *)
Record ShopifyClient := {
  config : ShopifyConfig;
  rateLimit : RateLimitState
}.

(** The two variables of [process.env] the module reads. *)
Record ProcessEnv := {
  SHOPIFY_STORE_DOMAIN : option string;
  SHOPIFY_ACCESS_TOKEN : option string
}.

(** A variable that is set to something other than the empty string. *)
Definition present (v : option string) : bool :=
  match v with
  | Some (String _ _) => true
  | _ => false
  end.

(** [getShopifyClient()], with the module-level [client] passed in and
    handed back; [now] is the [Date.now()] a construction would read. *)
Definition getShopifyClient (env : ProcessEnv) (now : Z)
    (client : option ShopifyClient)
    : Result ShopifyClient * option ShopifyClient :=
  match client with
  | Some c => (Ok c, Some c)
  | None =>
      if present (SHOPIFY_STORE_DOMAIN env) && present (SHOPIFY_ACCESS_TOKEN env)
      then
        let c := {| config := {| storeDomain :=
                                   default EmptyString (SHOPIFY_STORE_DOMAIN env);
                                 accessToken :=
                                   default EmptyString (SHOPIFY_ACCESS_TOKEN env) |};
                    rateLimit := initialRateLimit now |} in
        (Ok c, Some c)
      else
        (Throw "Missing Shopify credentials. Set SHOPIFY_STORE_DOMAIN and SHOPIFY_ACCESS_TOKEN",
         None)
  end.

(** The sum of a list of delays. *)
Definition totalMs (delays : list Z) : Z := fold_right Z.add 0%Z delays.

(** Whether a reply reports a throttle status. *)
Definition reportsThrottle {T} (out : FetchOutcome T) : bool :=
  match out with
  | Json r => match reportedThrottle (extensions r) with
              | Some _ => true
              | None => false
              end
  | _ => false
  end.

(** An HTTP 503 first, throttling errors from then on. *)
Definition failThenThrottled (n : nat) (r : Request) : FetchOutcome nat :=
  match n with
  | O => HttpError 503 "Service Unavailable"
  | _ => Fixtures.errorReply [Fixtures.throttledError]
  end.

(** A server whose every page says there is another one. *)
Definition endlessPage : Fixtures.CatalogPage :=
  {| Fixtures.nodes := [7%nat];
     Fixtures.pageInfo := {| hasNextPage := true; endCursor := Some "same" |} |}.

Definition endless (n : nat) (r : Request)
    : FetchOutcome Fixtures.CatalogPage :=
  Fixtures.pageReply endlessPage.

End ShopifyModule.

(** ** The rest of the import route *)

Module GDriveRoute.

Import GDriveImport.

(** [s.replace(/^\/+/, '')] *)
Fixpoint stripLeadingSlashes (s : string) : string :=
  match s with
  | EmptyString => EmptyString
  | String c rest =>
      if Ascii.eqb c "/" then stripLeadingSlashes rest else String c rest
  end.

(** [s.replace(/\/+$/, '')] *)
Fixpoint stripTrailingSlashes (s : string) : string :=
  match s with
  | EmptyString => EmptyString
  | String c rest =>
      match stripTrailingSlashes rest with
      | EmptyString =>
          if Ascii.eqb c "/" then EmptyString else String c EmptyString
      | String c' rest' => String c (String c' rest')
      end
  end.

(** [cleanPrefix(prefix)] for a [prefix] that may be missing or null. *)
Definition cleanPrefix (prefix : option string) : string :=
  match prefix with
  | Some p =>
      if negb (truthy p) then EmptyString
      else stripTrailingSlashes (stripLeadingSlashes p)
  | None => EmptyString
  end.


(** The value of [body.basePath]: missing or falsy, a string, or a truthy
    value that is not a string (a number, [true], an array, an object), on
    which [prefix.replace] throws a [TypeError] with the engine's
    message. *)
Inductive BasePathField :=
| BasePathAbsent
| BasePathText (s : string)
| BasePathOther (message : string).

(** The fields of the request body that the route reads.  A [folderId]
    that is not a string is passed on by the route as it is and is left
    out here. *)
Record Body := {
  body_folderId : option string;
  body_basePath : BasePathField
}.






(** Whether a string starts, or ends, with a slash. *)
Definition startsWithSlash (s : string) : bool :=
  match s with
  | String c _ => Ascii.eqb c "/"
  | EmptyString => false
  end.

Fixpoint endsWithSlash (s : string) : bool :=
  match s with
  | EmptyString => false
  | String c EmptyString => Ascii.eqb c "/"
  | String _ rest => endsWithSlash rest
  end.

(** Whether a string has a slash in it. *)
Fixpoint hasSlash (s : string) : bool :=
  match s with
  | EmptyString => false
  | String c rest => Ascii.eqb c "/" || hasSlash rest
  end.

(** The ids of the rows of [media_buckets]. *)
Definition bucketIds (d : Destination) : list string :=
  map bucket_id (media_buckets d).

(** Where a [media_bucket_id] comes from: it is the id of a row of
    [media_buckets], or it is [undefined] and the upsert made for one of
    the first [n] files answered with a row that has no [id]. *)
Definition anchored (env : Collaborators) (n : nat) (d : Destination)
    (id : option string) : Prop :=
  match id with
  | Some x => x ∈ bucketIds d
  | None => exists j, j < n /\ upsertAnswer env j = UpsertedWithoutId
  end.

(** Collaborators that never fail, with a record store whose upsert hands
    back rows without their [id]. *)
Definition withoutIds : Collaborators :=
  {| downloadDriveFile := downloadDriveFile ImportFixtures.reliable;
     upsertAnswer := fun _ => UpsertedWithoutId;
     uploadObject := uploadObject ImportFixtures.reliable;
     insertError := insertError ImportFixtures.reliable;
     isoNow := isoNow ImportFixtures.reliable;
     rowId := rowId ImportFixtures.reliable |}.

(** A file that sits at the top of the listing, outside every folder. *)
Definition stray : RemoteFile :=
  ImportFixtures.driveFile "drv-9" "readme.txt" "text/plain" "/readme.txt".

(** A destination whose catalogue is empty. *)
Definition noProducts : Destination :=
  {| products := []; media_buckets := []; media_assets := [];
     generated := 0; objects := [] |}.

End GDriveRoute.

(** ** Product payloads *)

Module ProductValidate.

(** *** Strings *)

(** The code units that [String.prototype.trim] removes, among those below
    256: tab, line feed, vertical tab, form feed, carriage return, space
    and the no-break space. *)
Definition isWhiteSpace (c : ascii) : bool :=
  let n := nat_of_ascii c in
  (Nat.leb 9 n && Nat.leb n 13) || Nat.eqb n 32 || Nat.eqb n 160.

Fixpoint trimStart (s : string) : string :=
  match s with
  | EmptyString => EmptyString
  | String c rest =>
      if isWhiteSpace c then trimStart rest else String c rest
  end.

Fixpoint trimEnd (s : string) : string :=
  match s with
  | EmptyString => EmptyString
  | String c rest =>
      match trimEnd rest with
      | EmptyString =>
          if isWhiteSpace c then EmptyString else String c EmptyString
      | String c' rest' => String c (String c' rest')
      end
  end.

(** [s.trim()] *)
Definition trim (s : string) : string := trimEnd (trimStart s).

(** Whether a string starts, or ends, with white space, and whether it has
    a comma in it. *)
Definition startsWithSpace (s : string) : bool :=
  match s with
  | String c _ => isWhiteSpace c
  | EmptyString => false
  end.

Fixpoint endsWithSpace (s : string) : bool :=
  match s with
  | EmptyString => false
  | String c EmptyString => isWhiteSpace c
  | String _ rest => endsWithSpace rest
  end.

Fixpoint hasComma (s : string) : bool :=
  match s with
  | EmptyString => false
  | String c rest => Ascii.eqb c "," || hasComma rest
  end.

(** *** Values *)

(** The primitive values; numbers are the finite ones. *)
Inductive Primitive :=
| PUndefined
| PNull
| PBool (b : bool)
| PNumber (n : Q)
| PString (s : string).

(** An element of an array: a primitive, or some object. *)
Inductive Item :=
| IPrimitive (p : Primitive)
| IObject.

(** The value of a field: a primitive, an array, or some other object. *)
Inductive JsValue :=
| JPrimitive (p : Primitive)
| JArray (items : list Item)
| JObject.

Definition truthyPrimitive (p : Primitive) : bool :=
  match p with
  | PUndefined | PNull => false
  | PBool b => b
  | PNumber n => negb (Qeq_bool n 0)
  | PString s => GDriveImport.truthy s
  end.

Definition jsTruthy (v : JsValue) : bool :=
  match v with
  | JPrimitive p => truthyPrimitive p
  | JArray _ | JObject => true
  end.

(** [typeof v === 'string'] *)
Definition isString (v : JsValue) : bool :=
  match v with
  | JPrimitive (PString _) => true
  | _ => false
  end.

(** [typeof p === 'object'], which holds of [null]. *)
Definition typeofObject (p : Primitive) : bool :=
  match p with
  | PNull => true
  | _ => false
  end.

Definition null : JsValue := JPrimitive PNull.

(** [v ?? d] *)
Definition coalesce (v d : JsValue) : JsValue :=
  match v with
  | JPrimitive PUndefined | JPrimitive PNull => d
  | _ => v
  end.

(** An array of strings as a value. *)
Definition strings (l : list string) : JsValue :=
  JArray (map (fun t => IPrimitive (PString t)) l).

(** *** normalizeTags *)

(** [text.split(',').map((t) => t.trim()).filter(Boolean)], as in line 21
    and in [handleSaveProduct] of the product page. *)
Definition splitTags (text : string) : list string :=
  List.filter GDriveImport.truthy (map trim (GDriveImport.split "," text)).

(** The filter of line 19:
    [typeof t === 'string' && t.trim().length > 0]. *)
Definition keptTag (t : Item) : option string :=
  match t with
  | IPrimitive (PString s) =>
      if GDriveImport.truthy (trim s) then Some s else None
  | _ => None
  end.

Definition normalizeTags (tags : JsValue) : list string :=
  if negb (jsTruthy tags) then []
  else
    match tags with
    | JArray items => omap keptTag items
    | JPrimitive (PString s) => splitTags s
    | _ => []
    end.

(** [(p.tags || []).join(', ')], what [applyProductToForm] of the product
    page puts into the tags field of the form. *)
Definition tagsField (tags : option (list string)) : string :=
  String.concat ", " (default [] tags).

(** *** The payload builders *)

(** An object as the builders read it: its own keys with their values.  A
    key can be present with the value [undefined]. *)
Abbreviation Fields := (gmap string JsValue).

(** [body.key] *)
Definition field (body : Fields) (key : string) : JsValue :=
  default (JPrimitive PUndefined) (body !! key).

Record CreatePayload := {
  title : JsValue;
  handle : JsValue;
  sku_label : JsValue;
  vendor : JsValue;
  product_type : JsValue;
  status : JsValue;
  shopify_status : JsValue;
  tags : list string;
  description : JsValue;
  description_html : JsValue;
  metadata : JsValue;
  shopify_product_id : JsValue;
  shopify_published_at : JsValue
}.

(** [{ error }] or [{ payload }]. *)
Inductive Built (P : Type) :=
| Rejected (error : string)
| Payload (payload : P).

Arguments Rejected {P} error.
Arguments Payload {P} payload.

Definition buildCreatePayload (body : Fields) : Built CreatePayload :=
  let t := field body "title" in
  if negb (jsTruthy t) || negb (isString t)
  then Rejected "title is required"
  else
    Payload
      {| title := t;
         handle := coalesce (field body "handle") null;
         sku_label := coalesce (field body "sku_label") null;
         vendor := coalesce (field body "vendor") null;
         product_type := coalesce (field body "product_type") null;
         status := coalesce (field body "status")
                     (JPrimitive (PString "active"));
         shopify_status := coalesce (field body "shopify_status") null;
         tags := normalizeTags (field body "tags");
         description := coalesce (field body "description") null;
         description_html := coalesce (field body "description_html") null;
         metadata := coalesce (field body "metadata") null;
         shopify_product_id := coalesce (field body "shopify_product_id") null;
         shopify_published_at :=
           coalesce (field body "shopify_published_at") null |}.

(** What [buildUpdatePayload] is called with: an object, or a primitive. *)
Inductive Body :=
| BObject (fields : Fields)
| BPrimitive (p : Primitive).

(** The closure [maybeSet], with [update] passed along. *)
Definition maybeSet (body : Fields) (key : string) (update : Fields)
    : Fields :=
  match body !! key with
  | None => update
  | Some v =>
      if String.eqb key "tags"
      then <[key := strings (normalizeTags (field body "tags"))]> update
      else <[key := coalesce v null]> update
  end.

(** The keys of lines 68 to 82. *)
Definition updatableKeys : list string :=
  [ "title"; "handle"; "sku_label"; "vendor"; "product_type"; "status";
    "shopify_status"; "tags"; "description"; "description_html"; "metadata";
    "shopify_product_id"; "shopify_published_at" ].

Definition buildUpdatePayload (body : Body) : Built Fields :=
  match body with
  | BPrimitive p =>
      if negb (truthyPrimitive p) || negb (typeofObject p)
      then Rejected "Invalid body"
      else Payload ∅
  | BObject fields =>
      Payload (foldl (fun update key => maybeSet fields key update) ∅
                 updatableKeys)
  end.

End ProductValidate.

(** * Properties of the client *)

Module ShopifyFacts.

Import Shopify.
Local Open Scope list_scope.

Section Sessions.

Context {T : Type} {truthiness : Truthiness T}.
Variable server : nat -> Request -> FetchOutcome T.
Variable clock : nat -> Z.

Lemma record_sent e s : sent (record e s) = sent s.
Proof. reflexivity. Qed.

Lemma record_trace e s : trace (record e s) = trace s ++ [e].
Proof. reflexivity. Qed.

Lemma countRequest_sent s : sent (countRequest s) = S (sent s).
Proof. reflexivity. Qed.

Lemma countRequest_trace s : trace (countRequest s) = trace s.
Proof. reflexivity. Qed.

Lemma observe_sent (out : FetchOutcome T) s :
  sent (observe clock out s) = sent s.
Proof. destruct out; reflexivity. Qed.

Lemma observe_trace (out : FetchOutcome T) s :
  trace (observe clock out s) = trace s.
Proof. destruct out; reflexivity. Qed.

Lemma onCatch_sent a R s : sent (onCatch a R s) = sent s.
Proof. unfold onCatch. destruct (a <? R - 1)%Z; reflexivity. Qed.

Lemma onCatch_trace a R s :
  trace (onCatch a R s) =
  trace s ++ (if (a <? R - 1)%Z then [Backoff (2 ^ a * 1000)] else []).
Proof.
  unfold onCatch. destruct (a <? R - 1)%Z; simpl; [reflexivity|].
  symmetry. apply app_nil_r.
Qed.

Lemma rateLimitGate_sent c s : sent (rateLimitGate clock c s) = sent s.
Proof. unfold rateLimitGate. destruct waitForRateLimit; reflexivity. Qed.

Lemma rateLimitGate_fetches c s :
  fetches (trace (rateLimitGate clock c s)) = fetches (trace s).
Proof.
  unfold rateLimitGate. destruct waitForRateLimit; [|reflexivity].
  simpl. unfold fetches. rewrite omap_app. simpl. apply app_nil_r.
Qed.

Lemma throttled_classify (out : FetchOutcome T) :
  throttledReply out -> classify out = Continue.
Proof.
  intros (r & errs & -> & He & Hx). unfold classify. rewrite He.
  destruct errs as [|e es]; [discriminate|]. now rewrite Hx.
Qed.

Lemma applicationError_classify (out : FetchOutcome T) errs :
  applicationErrorReply out errs ->
  classify out = Thrown ("GraphQL Error: " ++ errorMessages errs)%string.
Proof.
  intros (r & -> & He & Hne & Hx). unfold classify. rewrite He.
  destruct errs as [|e es]; [contradiction|]. now rewrite Hx.
Qed.

(** One iteration of the retry loop, by the three ways its body can end. *)
Lemma attempts_returned k a R req le s d :
  classify (server (sent s) req) = Returned d ->
  attempts server clock (S k) a R req le s =
  (Ok d, observe clock (server (sent s) req)
           (countRequest (record (Fetch req) s))).
Proof. intros H. simpl. now rewrite H. Qed.

Lemma attempts_continue k a R req le s :
  classify (server (sent s) req) = Continue ->
  attempts server clock (S k) a R req le s =
  attempts server clock k (a + 1) R req le
    (record (ThrottledWait 2000)
       (observe clock (server (sent s) req)
          (countRequest (record (Fetch req) s)))).
Proof. intros H. simpl. now rewrite H. Qed.

Lemma attempts_thrown k a R req le s m :
  classify (server (sent s) req) = Thrown m ->
  attempts server clock (S k) a R req le s =
  attempts server clock k (a + 1) R req (Some m)
    (onCatch a R
       (observe clock (server (sent s) req)
          (countRequest (record (Fetch req) s)))).
Proof. intros H. simpl. now rewrite H. Qed.

Lemma attempts_all_throttled k : forall a R req le s,
  (forall n, throttledReply (server n req)) ->
  exists s',
    attempts server clock k a R req le s =
      (Throw (default "Unknown error" le), s') /\
    sent s' = (sent s + k)%nat /\
    trace s' = trace s ++ throttledRounds k req.
Proof.
  induction k as [|k IH]; intros a R req le s Hall.
  - exists s. simpl. rewrite app_nil_r. repeat split; lia.
  - rewrite attempts_continue by (apply throttled_classify, Hall).
    edestruct (IH (a + 1)%Z R req le) as (s' & Hrun & Hsent & Htrace);
      [exact Hall|].
    exists s'. split; [exact Hrun|]. split.
    + rewrite Hsent, record_sent, observe_sent, countRequest_sent, record_sent.
      lia.
    + rewrite Htrace, record_trace, observe_trace, countRequest_trace,
        record_trace.
      simpl. now rewrite <- !app_assoc.
Qed.

Lemma attempts_all_thrown k : forall a R req le s (msg : nat -> string),
  (forall i, (i < k)%nat ->
     classify (server (sent s + i) req) = Thrown (msg (sent s + i)%nat)) ->
  exists s',
    attempts server clock k a R req le s =
      (Throw (match k with
              | O => default "Unknown error" le
              | S j => msg (sent s + j)%nat
              end), s') /\
    sent s' = (sent s + k)%nat /\
    trace s' = trace s ++ failedRounds k a R req.
Proof.
  induction k as [|k IH]; intros a R req le s msg Hall.
  - exists s. simpl. rewrite app_nil_r. repeat split; lia.
  - pose proof (Hall 0%nat ltac:(lia)) as H0.
    rewrite Nat.add_0_r in H0.
    rewrite (attempts_thrown _ _ _ _ _ _ _ H0).
    set (s1 := onCatch a R _).
    assert (Hs1 : sent s1 = S (sent s)).
    { unfold s1.
      now rewrite onCatch_sent, observe_sent, countRequest_sent, record_sent. }
    destruct (IH (a + 1)%Z R req (Some (msg (sent s))) s1 msg)
      as (s' & Hrun & Hsent & Htrace).
    { intros i Hi. rewrite Hs1.
      replace (S (sent s) + i)%nat with (sent s + S i)%nat by lia.
      apply Hall. lia. }
    exists s'. split; [|split].
    + rewrite Hrun. f_equal. f_equal. destruct k as [|j]; simpl.
      * now rewrite Nat.add_0_r.
      * rewrite Hs1. f_equal. lia.
    + rewrite Hsent, Hs1. lia.
    + rewrite Htrace. unfold s1.
      rewrite onCatch_trace, observe_trace, countRequest_trace, record_trace.
      simpl. now rewrite <- !app_assoc.
Qed.

(** The loop only ever adds to the trace, and every iteration starts by
    sending the request. *)
Lemma attempts_extends k : forall a R req le s,
  exists evs,
    trace (snd (attempts server clock k a R req le s)) = trace s ++ evs.
Proof.
  induction k as [|k IH]; intros a R req le s.
  - exists []. simpl. now rewrite app_nil_r.
  - destruct (classify (server (sent s) req)) as [d| |m] eqn:E.
    + rewrite (attempts_returned _ _ _ _ _ _ _ E). simpl snd.
      exists [Fetch req].
      now rewrite observe_trace, countRequest_trace, record_trace.
    + rewrite (attempts_continue _ _ _ _ _ _ E).
      destruct (IH (a + 1)%Z R req le
                  (record (ThrottledWait 2000)
                     (observe clock (server (sent s) req)
                        (countRequest (record (Fetch req) s)))))
        as (evs & Hevs).
      rewrite Hevs, record_trace, observe_trace, countRequest_trace,
        record_trace.
      exists ([Fetch req; ThrottledWait 2000] ++ evs).
      now rewrite <- !app_assoc.
    + rewrite (attempts_thrown _ _ _ _ _ _ _ E).
      destruct (IH (a + 1)%Z R req (Some m)
                  (onCatch a R
                     (observe clock (server (sent s) req)
                        (countRequest (record (Fetch req) s)))))
        as (evs & Hevs).
      rewrite Hevs, onCatch_trace, observe_trace, countRequest_trace,
        record_trace.
      eexists. rewrite <- !app_assoc. reflexivity.
Qed.

Lemma attempts_first_fetch k a R req le s :
  exists evs,
    trace (snd (attempts server clock (S k) a R req le s)) =
    trace s ++ Fetch req :: evs.
Proof.
  destruct (attempts_extends (S k) a R req le s) as (evs & Hevs).
  destruct (classify (server (sent s) req)) as [d| |m] eqn:E.
  - rewrite (attempts_returned _ _ _ _ _ _ _ E). simpl snd.
    exists []. now rewrite observe_trace, countRequest_trace, record_trace.
  - rewrite (attempts_continue _ _ _ _ _ _ E).
    destruct (attempts_extends k (a + 1)%Z R req le
                (record (ThrottledWait 2000)
                   (observe clock (server (sent s) req)
                      (countRequest (record (Fetch req) s)))))
      as (evs' & Hevs').
    rewrite Hevs', record_trace, observe_trace, countRequest_trace,
      record_trace.
    eexists. rewrite <- !app_assoc. reflexivity.
  - rewrite (attempts_thrown _ _ _ _ _ _ _ E).
    destruct (attempts_extends k (a + 1)%Z R req (Some m)
                (onCatch a R
                   (observe clock (server (sent s) req)
                      (countRequest (record (Fetch req) s)))))
      as (evs' & Hevs').
    rewrite Hevs', onCatch_trace, observe_trace, countRequest_trace,
      record_trace.
    eexists. rewrite <- !app_assoc. reflexivity.
Qed.

(** The loop counted down and the loop guarded by [attempt < retries] are
    the same loop. *)
Lemma attemptsGuarded_attempts fuel : forall a R req le s,
  (Z.to_nat (R - a) <= fuel)%nat ->
  attemptsGuarded server clock fuel a R req le s
    = Some (attempts server clock (Z.to_nat (R - a)) a R req le s).
Proof.
  induction fuel as [|fuel IH]; intros a R req le s Hfuel.
  - simpl. destruct (a <? R)%Z eqn:E.
    + apply Z.ltb_lt in E. lia.
    + apply Z.ltb_ge in E. now replace (Z.to_nat (R - a)) with 0%nat by lia.
  - cbn [attemptsGuarded]. destruct (a <? R)%Z eqn:E.
    + apply Z.ltb_lt in E.
      replace (Z.to_nat (R - a)) with (S (Z.to_nat (R - (a + 1)))) by lia.
      cbn [attempts].
      destruct (classify (server (sent s) req)); [reflexivity| |];
        apply IH; lia.
    + apply Z.ltb_ge in E. now replace (Z.to_nat (R - a)) with 0%nat by lia.
Qed.

Lemma query_guarded q vars options s :
  attemptsGuarded server clock (Z.to_nat (optRetries options)) 0
    (optRetries options) {| req_query := q; req_variables := vars |} None
    (rateLimitGate clock (optEstimatedCost options) s)
  = Some (query server clock q vars options s).
Proof.
  rewrite attemptsGuarded_attempts by lia.
  unfold query. now rewrite Z.sub_0_r.
Qed.

(** [query] is its gate followed by the loop. *)
Lemma query_unfold q vars options s :
  query server clock q vars options s =
  attempts server clock (Z.to_nat (optRetries options)) 0 (optRetries options)
    {| req_query := q; req_variables := vars |} None
    (rateLimitGate clock (optEstimatedCost options) s).
Proof. reflexivity. Qed.

(** When all [R] attempts end in the [catch] block, the error of the last
    one is thrown. *)
Lemma query_all_thrown q vars cost (R : Z) s (msg : nat -> string) :
  let req := {| req_query := q; req_variables := vars |} in
  let s0 := rateLimitGate clock (default 100%Q cost) s in
  (1 <= R)%Z ->
  (forall i, (i < Z.to_nat R)%nat ->
     classify (server (sent s + i) req) = Thrown (msg (sent s + i)%nat)) ->
  exists s',
    query server clock q vars
      (Some {| estimatedCost := cost; retries := Some R |}) s
      = (Throw (msg (sent s + (Z.to_nat R - 1))%nat), s') /\
    sent s' = (sent s + Z.to_nat R)%nat /\
    trace s' = trace s0 ++ failedRounds (Z.to_nat R) 0 R req.
Proof.
  intros req s0 HR Hall.
  rewrite query_unfold.
  unfold optRetries, optEstimatedCost. simpl default. fold req. fold s0.
  assert (Hs0 : sent s0 = sent s) by apply rateLimitGate_sent.
  destruct (attempts_all_thrown (Z.to_nat R) 0 R req None s0 msg)
    as (s' & Hrun & Hsent & Htrace).
  { intros i Hi. rewrite Hs0. now apply Hall. }
  exists s'. split; [|split].
  - rewrite Hrun. f_equal. f_equal.
    destruct (Z.to_nat R) as [|j] eqn:E; [lia|].
    rewrite Hs0. f_equal. lia.
  - rewrite Hsent, Hs0. reflexivity.
  - exact Htrace.
Qed.

End Sessions.

(** ** Retries and throttling *)

(** C10.  With [options.retries] zero or negative, [query] sends no request
    (the loop body never runs: after the rate-limit gate the session is left
    as it is) and throws an error with the message 'Unknown error', for
    every query string, variables and estimated cost. *)
Theorem query_without_attempts
    {T} {truthiness : Truthiness T}
    (server : nat -> Request -> FetchOutcome T) (clock : nat -> Z)
    (q : string) (vars : option (gmap string Value)) (cost : option Q)
    (r : Z) (s : Session) :
  (r <= 0)%Z ->
  let options := Some {| estimatedCost := cost; retries := Some r |} in
  query server clock q vars options s =
    (Throw "Unknown error", rateLimitGate clock (default 100%Q cost) s) /\
  sent (snd (query server clock q vars options s)) = sent s /\
  fetches (trace (snd (query server clock q vars options s))) =
    fetches (trace s).
Proof.
  intros Hr options.
  assert (Hq : query server clock q vars options s =
               (Throw "Unknown error",
                rateLimitGate clock (default 100%Q cost) s)).
  { rewrite query_unfold. unfold options, optRetries, optEstimatedCost. simpl.
    replace (Z.to_nat r) with 0%nat by lia. reflexivity. }
  rewrite Hq. simpl.
  split; [reflexivity|]. split.
  - apply rateLimitGate_sent.
  - apply rateLimitGate_fetches.
Qed.

Lemma query_without_attempts_witness :
  query Fixtures.failTwice Fixtures.clock0 Fixtures.shopQuery None
    (Some {| estimatedCost := None; retries := Some 0%Z |})
    Fixtures.freshSession
  = (Throw "Unknown error", Fixtures.freshSession).
Proof.
  exact (proj1 (query_without_attempts Fixtures.failTwice Fixtures.clock0
                  Fixtures.shopQuery None None 0 Fixtures.freshSession
                  ltac:(lia))).
Defined.

(** C6.  When the first two attempts end in the [catch] block and the third
    reply carries data, [query] with [retries = 3] returns that data after
    exactly two backoff waits, of 1000 ms and 2000 ms.  In general the wait
    after failed attempt number [a] is [2^a * 1000] ms unless it was the
    last attempt, and when all [retries] attempts fail the error of the last
    one is thrown. *)
Theorem query_backoff_schedule
    {T} {truthiness : Truthiness T}
    (server : nat -> Request -> FetchOutcome T) (clock : nat -> Z)
    (q : string) (vars : option (gmap string Value)) (cost : option Q)
    (s : Session) :
  let req := {| req_query := q; req_variables := vars |} in
  let s0 := rateLimitGate clock (default 100%Q cost) s in
  (forall m1 m2 d,
      classify (server (sent s) req) = Thrown m1 ->
      classify (server (S (sent s)) req) = Thrown m2 ->
      classify (server (S (S (sent s))) req) = Returned d ->
      exists s',
        query server clock q vars
          (Some {| estimatedCost := cost; retries := Some 3%Z |}) s
          = (Ok d, s') /\
        sent s' = (sent s + 3)%nat /\
        trace s' = trace s0 ++ [Fetch req; Backoff 1000; Fetch req;
                                Backoff 2000; Fetch req] /\
        backoffs (trace s') = backoffs (trace s0) ++ [1000; 2000]%Z) /\
  (forall (R : Z) (msg : nat -> string),
      (1 <= R)%Z ->
      (forall i, (i < Z.to_nat R)%nat ->
         classify (server (sent s + i) req) = Thrown (msg (sent s + i)%nat)) ->
      exists s',
        query server clock q vars
          (Some {| estimatedCost := cost; retries := Some R |}) s
          = (Throw (msg (sent s + (Z.to_nat R - 1))%nat), s') /\
        sent s' = (sent s + Z.to_nat R)%nat /\
        trace s' = trace s0 ++ failedRounds (Z.to_nat R) 0 R req).
Proof.
  intros req s0. split.
  - intros m1 m2 d H1 H2 H3.
    rewrite query_unfold.
    unfold optRetries, optEstimatedCost. simpl default.
    change (Z.to_nat 3) with 3%nat. fold req. fold s0.
    assert (Hs0 : sent s0 = sent s) by apply rateLimitGate_sent.
    rewrite <- Hs0 in H1, H2, H3.
    rewrite (attempts_thrown _ _ _ _ _ _ _ _ _ H1).
    set (s1 := onCatch 0 3 _).
    assert (Hs1 : sent s1 = S (sent s0)).
    { unfold s1.
      now rewrite onCatch_sent, observe_sent, countRequest_sent, record_sent. }
    assert (Ht1 : trace s1 = trace s0 ++ [Fetch req; Backoff 1000]).
    { unfold s1.
      rewrite onCatch_trace, observe_trace, countRequest_trace, record_trace.
      simpl. now rewrite <- app_assoc. }
    rewrite <- Hs1 in H2.
    rewrite (attempts_thrown _ _ _ _ _ _ _ _ _ H2).
    set (s2 := onCatch (0 + 1) 3 _).
    assert (Hs2 : sent s2 = S (S (sent s0))).
    { unfold s2.
      rewrite onCatch_sent, observe_sent, countRequest_sent, record_sent.
      now rewrite Hs1. }
    assert (Ht2 : trace s2 = trace s0 ++ [Fetch req; Backoff 1000;
                                            Fetch req; Backoff 2000]).
    { unfold s2.
      rewrite onCatch_trace, observe_trace, countRequest_trace, record_trace.
      rewrite Ht1. simpl. now rewrite <- !app_assoc. }
    rewrite <- Hs2 in H3.
    rewrite (attempts_returned _ _ _ _ _ _ _ _ _ H3).
    eexists. split; [reflexivity|].
    rewrite observe_sent, countRequest_sent, record_sent, Hs2, Hs0.
    rewrite observe_trace, countRequest_trace, record_trace, Ht2.
    rewrite <- !app_assoc.
    split; [lia|]. split; [reflexivity|].
    unfold backoffs. rewrite omap_app. reflexivity.
  - intros R msg HR Hall.
    exact (query_all_thrown server clock q vars cost R s msg HR Hall).
Qed.

Lemma query_backoff_schedule_witness :
  exists s',
    query Fixtures.failTwice Fixtures.clock0 Fixtures.shopQuery None
      (Some {| estimatedCost := None; retries := Some 3%Z |})
      Fixtures.freshSession = (Ok 42%nat, s') /\
    sent s' = 3%nat /\
    trace s' = [Fetch Fixtures.shopRequest; Backoff 1000;
                Fetch Fixtures.shopRequest; Backoff 2000;
                Fetch Fixtures.shopRequest] /\
    backoffs (trace s') = [1000; 2000]%Z.
Proof.
  exact (proj1 (query_backoff_schedule Fixtures.failTwice Fixtures.clock0
                  Fixtures.shopQuery None None Fixtures.freshSession)
           "HTTP 502: Bad Gateway"%string "fetch failed"%string 42%nat
           eq_refl eq_refl eq_refl).
Defined.

(** C1, as the code has it.  When every reply is a throttling error,
    [query] waits a fixed 2000 ms after each of them and sends the request
    again, without exponential backoff and without touching [lastError];
    but the throttled [continue] goes through [attempt++] like every other
    iteration, so after exactly [retries] requests the loop is over and
    [query] throws, with the fallback message 'Unknown error'. *)
Theorem throttled_attempts_are_counted
    {T} {truthiness : Truthiness T}
    (server : nat -> Request -> FetchOutcome T) (clock : nat -> Z)
    (q : string) (vars : option (gmap string Value))
    (options : option QueryOptions) (s : Session) :
  let req := {| req_query := q; req_variables := vars |} in
  let R := Z.to_nat (optRetries options) in
  (forall n, throttledReply (server n req)) ->
  exists s',
    query server clock q vars options s = (Throw "Unknown error", s') /\
    sent s' = (sent s + R)%nat /\
    trace s' = trace (rateLimitGate clock (optEstimatedCost options) s)
               ++ throttledRounds R req /\
    backoffs (throttledRounds R req) = [].
Proof.
  intros req R Hall. rewrite query_unfold. fold req. fold R.
  destruct (attempts_all_throttled server clock R 0 (optRetries options) req
              None (rateLimitGate clock (optEstimatedCost options) s) Hall)
    as (s' & Hrun & Hsent & Htrace).
  exists s'. split; [exact Hrun|]. split; [|split].
  - now rewrite Hsent, rateLimitGate_sent.
  - exact Htrace.
  - clear. induction R as [|k IH]; [reflexivity|exact IH].
Qed.

Lemma throttled_attempts_are_counted_witness :
  exists s',
    query Fixtures.alwaysThrottled Fixtures.clock0 Fixtures.shopQuery None
      None Fixtures.freshSession = (Throw "Unknown error", s') /\
    sent s' = 3%nat /\
    trace s' = throttledRounds 3 Fixtures.shopRequest /\
    backoffs (throttledRounds 3 Fixtures.shopRequest) = [].
Proof.
  apply (throttled_attempts_are_counted Fixtures.alwaysThrottled
           Fixtures.clock0 Fixtures.shopQuery None None Fixtures.freshSession).
  intros n. exists {| data := None;
                      errors := Some [Fixtures.throttledError];
                      extensions := None |}, [Fixtures.throttledError].
  repeat split; reflexivity.
Defined.

(** C1 fails as stated: against a server that answers every request with a
    throttling error, the default three attempts are used up and [query]
    throws. *)
Lemma throttling_exhausts_the_attempts :
  fst (query Fixtures.alwaysThrottled Fixtures.clock0 Fixtures.shopQuery None
         None Fixtures.freshSession) = Throw "Unknown error" /\
  sent (snd (query Fixtures.alwaysThrottled Fixtures.clock0 Fixtures.shopQuery
               None None Fixtures.freshSession)) = 3%nat /\
  throttledWaits
    (trace (snd (query Fixtures.alwaysThrottled Fixtures.clock0
                   Fixtures.shopQuery None None Fixtures.freshSession)))
    = [2000; 2000; 2000]%Z.
Proof. vm_compute. repeat split; reflexivity. Qed.

(** C2, as the code has it.  A reply whose error list is not empty and has
    no throttling error in it is thrown inside the [try] and so lands in
    the [catch] like every other failure.  [query] raises right away only
    when this was the last attempt ([retries = 1]); with two attempts or
    more it sleeps 1000 ms and sends the request again, and when every
    attempt ends this way the error raised after the last one is
    'GraphQL Error: ' followed by the messages of the last reply joined by
    ', '. *)
Theorem application_error_is_retried
    {T} {truthiness : Truthiness T}
    (server : nat -> Request -> FetchOutcome T) (clock : nat -> Z)
    (q : string) (vars : option (gmap string Value)) (cost : option Q)
    (R : Z) (s : Session) (errsAt : nat -> list GraphQLError) :
  let req := {| req_query := q; req_variables := vars |} in
  let options := Some {| estimatedCost := cost; retries := Some R |} in
  let s0 := rateLimitGate clock (default 100%Q cost) s in
  let msg n := ("GraphQL Error: " ++ errorMessages (errsAt n))%string in
  applicationErrorReply (server (sent s) req) (errsAt (sent s)) ->
  (R = 1%Z ->
     exists s', query server clock q vars options s
                  = (Throw (msg (sent s)), s') /\
                sent s' = S (sent s) /\
                trace s' = trace s0 ++ [Fetch req]) /\
  ((2 <= R)%Z ->
     exists evs,
       trace (snd (query server clock q vars options s)) =
       trace s0 ++ Fetch req :: Backoff 1000 :: Fetch req :: evs) /\
  ((1 <= R)%Z ->
   (forall i, (i < Z.to_nat R)%nat ->
      applicationErrorReply (server (sent s + i) req) (errsAt (sent s + i)%nat)) ->
     exists s', query server clock q vars options s
                  = (Throw (msg (sent s + (Z.to_nat R - 1))%nat), s') /\
                sent s' = (sent s + Z.to_nat R)%nat /\
                trace s' = trace s0 ++ failedRounds (Z.to_nat R) 0 R req).
Proof.
  intros req options s0 msg H0.
  assert (Hs0 : sent s0 = sent s) by apply rateLimitGate_sent.
  assert (Hc : classify (server (sent s0) req) = Thrown (msg (sent s))).
  { rewrite Hs0. exact (applicationError_classify _ _ H0). }
  assert (Hq : query server clock q vars options s =
               attempts server clock (Z.to_nat R) 0 R req None s0)
    by reflexivity.
  split; [|split].
  - intros ->. rewrite Hq. change (Z.to_nat 1) with 1%nat.
    rewrite (attempts_thrown _ _ _ _ _ _ _ _ _ Hc). simpl attempts.
    eexists. split; [reflexivity|]. split.
    + now rewrite onCatch_sent, observe_sent, countRequest_sent, record_sent,
        Hs0.
    + rewrite onCatch_trace, observe_trace, countRequest_trace, record_trace.
      simpl. now rewrite app_nil_r.
  - intros HR. rewrite Hq.
    destruct (Z.to_nat R) as [|[|k]] eqn:E; [lia|lia|].
    rewrite (attempts_thrown _ _ _ _ _ _ _ _ _ Hc).
    destruct (attempts_first_fetch server clock k (0 + 1)%Z R req
                (Some (msg (sent s)))
                (onCatch 0 R
                   (observe clock (server (sent s0) req)
                      (countRequest (record (Fetch req) s0)))))
      as (evs & Hevs).
    exists evs. rewrite Hevs.
    rewrite onCatch_trace, observe_trace, countRequest_trace, record_trace.
    replace (0 <? R - 1)%Z with true by (symmetry; apply Z.ltb_lt; lia).
    rewrite <- !app_assoc. reflexivity.
  - intros HR Hall.
    destruct (query_all_thrown server clock q vars cost R s msg HR)
      as (s' & Hrun & Hrest).
    { intros i Hi. apply applicationError_classify, Hall, Hi. }
    exists s'. split; [exact Hrun|exact Hrest].
Qed.

Lemma application_error_is_retried_witness :
  exists evs,
    trace (snd (query Fixtures.errorThenData Fixtures.clock0
                  Fixtures.shopQuery None
                  (Some {| estimatedCost := None; retries := Some 3%Z |})
                  Fixtures.freshSession)) =
    Fetch Fixtures.shopRequest :: Backoff 1000 ::
    Fetch Fixtures.shopRequest :: evs.
Proof.
  refine (proj1 (proj2 (application_error_is_retried Fixtures.errorThenData
                          Fixtures.clock0 Fixtures.shopQuery None None 3
                          Fixtures.freshSession
                          (fun _ => [Fixtures.fieldError]) _)) _).
  - exists {| data := None; errors := Some [Fixtures.fieldError];
              extensions := None |}.
    repeat split; [discriminate].
  - lia.
Defined.

(** C2 fails as stated: the first reply carries a field error and no
    throttling error, and yet [query] does not raise; it backs off for
    1000 ms, sends the request a second time and returns the data of the
    second reply. *)
Lemma application_error_does_not_raise_at_once :
  applicationErrorReply (Fixtures.errorThenData 0 Fixtures.shopRequest)
    [Fixtures.fieldError] /\
  fst (query Fixtures.errorThenData Fixtures.clock0 Fixtures.shopQuery None
         None Fixtures.freshSession) = Ok 42%nat /\
  trace (snd (query Fixtures.errorThenData Fixtures.clock0 Fixtures.shopQuery
                None None Fixtures.freshSession)) =
    [Fetch Fixtures.shopRequest; Backoff 1000; Fetch Fixtures.shopRequest].
Proof.
  split.
  - exists {| data := None; errors := Some [Fixtures.fieldError];
              extensions := None |}.
    repeat split; [discriminate].
  - vm_compute. split; reflexivity.
Qed.

(** ** The rate limiter *)

Section RateLimit.

Local Open Scope Q_scope.

Lemma Qltb_lt a b : Qltb a b = true <-> a < b.
Proof.
  unfold Qltb. rewrite negb_true_iff. split.
  - intros H. apply Qnot_le_lt. intros Hle.
    apply Qle_bool_iff in Hle. congruence.
  - intros H. destruct (Qle_bool b a) eqn:E; [|reflexivity].
    apply Qle_bool_iff in E. exfalso. exact (Qlt_not_le _ _ H E).
Qed.

Lemma Qltb_ge a b : Qltb a b = false <-> b <= a.
Proof.
  unfold Qltb. rewrite negb_false_iff. apply Qle_bool_iff.
Qed.

Lemma elapsed_mono st (now1 now2 : Z) :
  (now1 <= now2)%Z -> elapsed st now1 <= elapsed st now2.
Proof.
  intros H. unfold elapsed, Qdiv.
  apply Qmult_le_compat_r; [|discriminate].
  rewrite <- Zle_Qle. lia.
Qed.

Lemma elapsed_strict st (now1 now2 : Z) :
  (now1 < now2)%Z -> elapsed st now1 < elapsed st now2.
Proof.
  intros H. unfold elapsed, Qdiv.
  apply Qmult_lt_compat_r; [reflexivity|].
  rewrite <- Zlt_Qlt. lia.
Qed.

(** The estimate never exceeds the constant 1000, whatever was reported. *)
Lemma estimated_le_cap st now : estimated st now <= 1000.
Proof. apply Q.le_min_l. Qed.

Lemma estimated_mono st (now1 now2 : Z) :
  0 <= rl_restoreRate st -> (now1 <= now2)%Z ->
  estimated st now1 <= estimated st now2.
Proof.
  intros Hr H. unfold estimated. apply Q.min_le_compat_l.
  unfold restored. pose proof (elapsed_mono st now1 now2 H). nra.
Qed.

Lemma estimated_strict st (now1 now2 : Z) :
  0 < rl_restoreRate st -> (now1 < now2)%Z ->
  rl_available st + restored st now1 < 1000 ->
  estimated st now1 < estimated st now2.
Proof.
  intros Hr H Hcap. unfold estimated.
  assert (E1 : Qmin 1000 (rl_available st + restored st now1)
               == rl_available st + restored st now1)
    by (apply Q.min_r; lra).
  rewrite E1. apply Q.min_glb_lt; [exact Hcap|].
  unfold restored in *. pose proof (elapsed_strict st now1 now2 H). nra.
Qed.

Lemma estimated_at_cap st (now1 now2 : Z) :
  0 <= rl_restoreRate st -> (now1 <= now2)%Z ->
  1000 <= rl_available st + restored st now1 ->
  estimated st now1 == 1000 /\ estimated st now2 == 1000.
Proof.
  intros Hr H Hcap.
  assert (H2 : 1000 <= rl_available st + restored st now2).
  { unfold restored in *. pose proof (elapsed_mono st now1 now2 H). nra. }
  unfold estimated. split; apply Q.min_l; assumption.
Qed.

Lemma waitForRateLimit_waits st cost now :
  0 < rl_restoreRate st -> estimated st now < cost ->
  waitForRateLimit cost now st =
  Some (Finite ((cost - estimated st now) / rl_restoreRate st * 1000 + 100)).
Proof.
  intros Hr H. unfold waitForRateLimit.
  rewrite (proj2 (Qltb_lt _ _) H). unfold waitTime.
  destruct (Qeq_bool (rl_restoreRate st) 0) eqn:E; [|reflexivity].
  apply Qeq_bool_eq in E. rewrite E in Hr. discriminate.
Qed.

Lemma waitForRateLimit_passes st cost now :
  cost <= estimated st now -> waitForRateLimit cost now st = None.
Proof.
  intros H. unfold waitForRateLimit. now rewrite (proj2 (Qltb_ge _ _) H).
Qed.

Lemma wait_duration_positive c e r :
  0 < r -> e < c -> 0 < (c - e) / r * 1000 + 100.
Proof.
  intros Hr H. unfold Qdiv.
  assert (0 < / r) by (apply Qinv_lt_0_compat; exact Hr). nra.
Qed.

(** C8, as the code has it.  With a positive restore rate and a cost above
    the estimate, the delay handed to the timer is positive.  A later call
    on the same state with the same cost either does not wait at all or
    waits no longer than the earlier one; it waits strictly less when the
    earlier extrapolation was still below the cap of 1000, and exactly as
    long when it had already reached the cap. *)
Theorem wait_positive_and_nonincreasing
    (st : RateLimitState) (cost : Q) (now1 now2 : Z) :
  0 < rl_restoreRate st ->
  estimated st now1 < cost ->
  (now1 <= now2)%Z ->
  exists d1,
    waitForRateLimit cost now1 st = Some (Finite d1) /\
    0 < d1 /\
    (waitForRateLimit cost now2 st = None \/
     exists d2,
       waitForRateLimit cost now2 st = Some (Finite d2) /\
       0 < d2 /\ d2 <= d1 /\
       ((now1 < now2)%Z -> rl_available st + restored st now1 < 1000 ->
        d2 < d1) /\
       (1000 <= rl_available st + restored st now1 -> d2 == d1)).
Proof.
  intros Hr H1 Hnow.
  eexists. split; [apply waitForRateLimit_waits; assumption|].
  split; [apply wait_duration_positive; assumption|].
  destruct (Qlt_le_dec (estimated st now2) cost) as [H2|H2].
  - right. eexists. split; [apply waitForRateLimit_waits; assumption|].
    assert (Hk : 0 < / rl_restoreRate st) by (apply Qinv_lt_0_compat; exact Hr).
    split; [apply wait_duration_positive; assumption|].
    split; [|split].
    + pose proof (estimated_mono st now1 now2 (Qlt_le_weak _ _ Hr) Hnow).
      unfold Qdiv. nra.
    + intros Hlt Hcap.
      pose proof (estimated_strict st now1 now2 Hr Hlt Hcap).
      unfold Qdiv. nra.
    + intros Hcap.
      destruct (estimated_at_cap st now1 now2 (Qlt_le_weak _ _ Hr) Hnow Hcap)
        as [E1 E2].
      rewrite E1, E2. reflexivity.
  - left. apply waitForRateLimit_passes. exact H2.
Qed.

Lemma wait_positive_and_nonincreasing_witness :
  exists d1,
    waitForRateLimit 500 1000 (stateOfReport
                                 {| maximumAvailable := 1000;
                                    currentlyAvailable := 200;
                                    restoreRate := 50 |} 0)
      = Some (Finite d1) /\
    0 < d1 /\
    (waitForRateLimit 500 3000 (stateOfReport
                                  {| maximumAvailable := 1000;
                                     currentlyAvailable := 200;
                                     restoreRate := 50 |} 0) = None \/
     exists d2,
       waitForRateLimit 500 3000 (stateOfReport
                                    {| maximumAvailable := 1000;
                                       currentlyAvailable := 200;
                                       restoreRate := 50 |} 0)
         = Some (Finite d2) /\
       0 < d2 /\ d2 <= d1 /\
       ((1000 < 3000)%Z ->
        200 + restored (stateOfReport
                          {| maximumAvailable := 1000;
                             currentlyAvailable := 200;
                             restoreRate := 50 |} 0) 1000 < 1000 ->
        d2 < d1) /\
       (1000 <= 200 + restored (stateOfReport
                                  {| maximumAvailable := 1000;
                                     currentlyAvailable := 200;
                                     restoreRate := 50 |} 0) 1000 ->
        d2 == d1)).
Proof.
  apply (wait_positive_and_nonincreasing
           (stateOfReport {| maximumAvailable := 1000;
                             currentlyAvailable := 200;
                             restoreRate := 50 |} 0) 500 1000 3000).
  - reflexivity.
  - reflexivity.
  - lia.
Defined.

(** C8 fails as stated: a freshly built client (1000 points, 50 per second)
    asked for a cost of 1200 computes the same delay of 4100 ms at once and
    ten seconds later, because the estimate is capped at 1000 both times. *)
Lemma wait_is_constant_at_the_cap :
  let st := initialRateLimit 0 in
  0 < rl_restoreRate st /\
  estimated st 0 < 1200 /\
  estimated st 10000 < 1200 /\
  exists d1 d2,
    waitForRateLimit 1200 0 st = Some (Finite d1) /\
    waitForRateLimit 1200 10000 st = Some (Finite d2) /\
    d1 == 4100 /\ d2 == 4100 /\ ~ d2 < d1.
Proof.
  simpl. split; [reflexivity|]. split; [reflexivity|]. split; [reflexivity|].
  eexists. eexists.
  split; [vm_compute; reflexivity|]. split; [vm_compute; reflexivity|].
  split; [reflexivity|]. split; [reflexivity|].
  intros H. vm_compute in H. discriminate.
Qed.

End RateLimit.

(** ** The budget between observations *)

Lemma observeAll_app h1 h2 st :
  observeAll (h1 ++ h2) st = observeAll h2 (observeAll h1 st).
Proof. apply fold_left_app. Qed.

Lemma observeAll_latest h : forall st,
  observeAll h st =
  match latestReport h with
  | Some (ts, t) => stateOfReport ts t
  | None => st
  end.
Proof.
  induction h as [|o rest IH]; intros st; [reflexivity|].
  change (observeAll (o :: rest) st)
    with (observeAll rest (updateRateLimit (obs_extensions o) (obs_at o) st)).
  rewrite IH. simpl latestReport.
  destruct (latestReport rest) as [[ts t]|]; [reflexivity|].
  unfold updateRateLimit.
  destruct (reportedThrottle (obs_extensions o)); reflexivity.
Qed.

Lemma fetches_app evs1 evs2 :
  fetches (evs1 ++ evs2) = fetches evs1 ++ fetches evs2.
Proof. unfold fetches. apply omap_app. Qed.

Section Budget.

Context {T : Type} {truthiness : Truthiness T}.
Variable server : nat -> Request -> FetchOutcome T.
Variable clock : nat -> Z.

Lemma rateLimitGate_rate c s :
  rateLimitState (rateLimitGate clock c s) = rateLimitState s.
Proof. unfold rateLimitGate. destruct waitForRateLimit; reflexivity. Qed.

Lemma onCatch_rate a R s : rateLimitState (onCatch a R s) = rateLimitState s.
Proof. unfold onCatch. destruct (a <? R - 1)%Z; reflexivity. Qed.

Lemma observe_rate req s :
  exists h,
    Forall (fromReply server req) h /\
    rateLimitState (observe clock (server (sent s) req)
                      (countRequest (record (Fetch req) s)))
      = observeAll h (rateLimitState s).
Proof.
  destruct (server (sent s) req) as [m|st txt|m|r] eqn:E;
    try (exists []; split; [constructor|reflexivity]).
  exists [{| obs_extensions := extensions r;
             obs_at := dateNow clock (countRequest (record (Fetch req) s)) |}].
  split; [|reflexivity].
  constructor; [|constructor]. exists (sent s), r. now split.
Qed.

Lemma attempts_rate k : forall a R req le s,
  exists h,
    Forall (fromReply server req) h /\
    rateLimitState (snd (attempts server clock k a R req le s))
      = observeAll h (rateLimitState s).
Proof.
  induction k as [|k IH]; intros a R req le s.
  - exists []. split; [constructor|reflexivity].
  - destruct (observe_rate req s) as (h1 & Hh1 & E1).
    destruct (classify (server (sent s) req)) as [d| |m] eqn:E.
    + rewrite (attempts_returned _ _ _ _ _ _ _ _ _ E). simpl snd.
      exists h1. now split.
    + rewrite (attempts_continue _ _ _ _ _ _ _ _ E).
      destruct (IH (a + 1)%Z R req le
                  (record (ThrottledWait 2000)
                     (observe clock (server (sent s) req)
                        (countRequest (record (Fetch req) s)))))
        as (h2 & Hh2 & E2).
      exists (h1 ++ h2). split; [now apply Forall_app|].
      rewrite E2, observeAll_app. f_equal. exact E1.
    + rewrite (attempts_thrown _ _ _ _ _ _ _ _ _ E).
      destruct (IH (a + 1)%Z R req (Some m)
                  (onCatch a R
                     (observe clock (server (sent s) req)
                        (countRequest (record (Fetch req) s)))))
        as (h2 & Hh2 & E2).
      exists (h1 ++ h2). split; [now apply Forall_app|].
      rewrite E2, observeAll_app, onCatch_rate. f_equal. exact E1.
Qed.

(** What one reply does to the state. *)
Lemma observe_state (out : FetchOutcome T) s :
  rateLimitState (observe clock out s)
  = match reportOf out with
    | Some ts => stateOfReport ts (dateNow clock s)
    | None => rateLimitState s
    end.
Proof.
  destruct out as [m|st txt|m|r]; reflexivity.
Qed.

(** The state after the loop is that of the last reply received that
    reported a throttle status, read right after that reply came in. *)
Lemma attempts_budget k : forall a R req le s,
  let s' := snd (attempts server clock k a R req le s) in
  (sent s <= sent s')%nat /\
  ((forall n, (sent s <= n < sent s')%nat ->
              reportOf (server n req) = None) ->
   rateLimitState s' = rateLimitState s) /\
  (forall n ts,
     (sent s <= n < sent s')%nat ->
     reportOf (server n req) = Some ts ->
     (forall m, (n < m < sent s')%nat -> reportOf (server m req) = None) ->
     exists pre post,
       trace s' = trace s ++ pre ++ Fetch req :: post /\
       length (fetches pre) = (n - sent s)%nat /\
       rateLimitState s'
       = stateOfReport ts (clock (S (length (trace s ++ pre))))).
Proof.
  induction k as [|k IH]; intros a R req le s.
  - simpl. split; [lia|]. split; [reflexivity|]. intros n ts Hn. lia.
  - pose (s1 := observe clock (server (sent s) req)
                  (countRequest (record (Fetch req) s))).
    assert (Hsent1 : sent s1 = S (sent s)).
    { unfold s1. now rewrite observe_sent, countRequest_sent, record_sent. }
    assert (Htrace1 : trace s1 = trace s ++ [Fetch req]).
    { unfold s1. now rewrite observe_trace, countRequest_trace,
        record_trace. }
    assert (Hstate1 :
              rateLimitState s1
              = match reportOf (server (sent s) req) with
                | Some ts => stateOfReport ts (clock (S (length (trace s))))
                | None => rateLimitState s
                end).
    { unfold s1. rewrite observe_state. unfold dateNow.
      rewrite countRequest_trace, record_trace, length_app. simpl.
      now rewrite Nat.add_1_r. }
    assert (Step : forall le2 s2 evs,
              sent s2 = S (sent s) ->
              trace s2 = trace s ++ Fetch req :: evs ->
              fetches evs = [] ->
              rateLimitState s2 = rateLimitState s1 ->
              let s' := snd (attempts server clock k (a + 1) R req le2 s2) in
              (sent s <= sent s')%nat /\
              ((forall n, (sent s <= n < sent s')%nat ->
                          reportOf (server n req) = None) ->
               rateLimitState s' = rateLimitState s) /\
              (forall n ts,
                 (sent s <= n < sent s')%nat ->
                 reportOf (server n req) = Some ts ->
                 (forall m, (n < m < sent s')%nat ->
                            reportOf (server m req) = None) ->
                 exists pre post,
                   trace s' = trace s ++ pre ++ Fetch req :: post /\
                   length (fetches pre) = (n - sent s)%nat /\
                   rateLimitState s'
                   = stateOfReport ts
                       (clock (S (length (trace s ++ pre)))))).
    { intros le2 s2 evs Hsent2 Htrace2 Hev Hstate2 s'.
      destruct (IH (a + 1)%Z R req le2 s2) as (Hle & HA & HB).
      fold s' in Hle, HA, HB.
      split; [lia|]. split.
      - intros Hnone. rewrite HA.
        + rewrite Hstate2, Hstate1, (Hnone (sent s)); [reflexivity|lia].
        + intros n Hn. apply Hnone. lia.
      - intros n ts Hn Hts Hlater.
        destruct (decide (n = sent s)) as [->|Hne].
        + destruct (attempts_extends server clock k (a + 1)%Z R req le2 s2)
            as (evs' & Hext).
          fold s' in Hext.
          exists [], (evs ++ evs'). split.
          { rewrite Hext, Htrace2. simpl. now rewrite <- app_assoc. }
          split; [simpl; lia|].
          rewrite HA.
          * rewrite Hstate2, Hstate1, Hts, app_nil_r. reflexivity.
          * intros m Hm. apply Hlater. lia.
        + destruct (HB n ts) as (pre' & post' & Ht & Hf & Hs);
            [lia|exact Hts|intros m Hm; apply Hlater; lia|].
          exists (Fetch req :: evs ++ pre'), post'. split.
          { rewrite Ht, Htrace2. simpl. now rewrite <- !app_assoc. }
          split.
          { change (Fetch req :: evs ++ pre')
              with ([Fetch req] ++ evs ++ pre').
            rewrite !fetches_app, Hev. simpl. rewrite Hf, Hsent2. lia. }
          rewrite Hs. do 3 f_equal. rewrite Htrace2. simpl.
          now rewrite <- app_assoc. }
    destruct (classify (server (sent s) req)) as [d| |m] eqn:E.
    + rewrite (attempts_returned _ _ _ _ _ _ _ _ _ E). simpl snd.
      fold s1. split; [lia|]. split.
      * intros Hnone. rewrite Hstate1, (Hnone (sent s)); [reflexivity|lia].
      * intros n ts Hn Hts _. assert (n = sent s) by lia. subst n.
        exists [], []. split; [now rewrite Htrace1|]. split; [simpl; lia|].
        now rewrite Hstate1, Hts, app_nil_r.
    + rewrite (attempts_continue _ _ _ _ _ _ _ _ E). fold s1.
      apply (Step le (record (ThrottledWait 2000) s1) [ThrottledWait 2000]).
      * now rewrite record_sent.
      * rewrite record_trace, Htrace1. now rewrite <- app_assoc.
      * reflexivity.
      * reflexivity.
    + rewrite (attempts_thrown _ _ _ _ _ _ _ _ _ E). fold s1.
      apply (Step (Some m) (onCatch a R s1)
               (if (a <? R - 1)%Z then [Backoff (2 ^ a * 1000)] else [])).
      * now rewrite onCatch_sent.
      * rewrite onCatch_trace, Htrace1. now rewrite <- app_assoc.
      * destruct (a <? R - 1)%Z; reflexivity.
      * apply onCatch_rate.
Qed.

(** C5, as the code has it.  Whenever the client estimates its budget the
    value is [min(1000, available + elapsedSeconds * restoreRate)].  The
    bound is the constant 1000 of the client: the state has no maximum of
    its own and the [maximumAvailable] a reply reports is never read.
    [available], [restoreRate] and the time the elapsed seconds are counted
    from are those of the last reply this client received that reported a
    throttle status, read right after that reply came in; when no reply of
    a call reported one they are what they were before the call.  The
    rate-limit gate itself never writes them. *)
Theorem estimate_between_observations
    (q : string) (vars : option (gmap string Value))
    (options : option QueryOptions) (s : Session) (now : Z) :
  let req := {| req_query := q; req_variables := vars |} in
  let s0 := rateLimitGate clock (optEstimatedCost options) s in
  let s' := snd (query server clock q vars options s) in
  rateLimitState s0 = rateLimitState s /\
  ((forall n, (sent s <= n < sent s')%nat ->
              reportOf (server n req) = None) ->
   rateLimitState s' = rateLimitState s) /\
  (forall n ts,
     (sent s <= n < sent s')%nat ->
     reportOf (server n req) = Some ts ->
     (forall m, (n < m < sent s')%nat -> reportOf (server m req) = None) ->
     exists pre post,
       trace s' = trace s0 ++ pre ++ Fetch req :: post /\
       length (fetches pre) = (n - sent s)%nat /\
       let t := clock (S (length (trace s0 ++ pre))) in
       rateLimitState s' = stateOfReport ts t /\
       estimated (rateLimitState s') now
       = Qmin 1000 (currentlyAvailable ts
                    + inject_Z (now - t) / 1000 * restoreRate ts)) /\
  (estimated (rateLimitState s') now <= 1000)%Q.
Proof.
  intros req s0 s'.
  destruct (attempts_budget (Z.to_nat (optRetries options)) 0
              (optRetries options) req None s0) as (_ & HA & HB).
  change (snd (attempts server clock (Z.to_nat (optRetries options)) 0
                 (optRetries options) req None s0)) with s' in HA, HB.
  assert (Hsent0 : sent s0 = sent s) by apply rateLimitGate_sent.
  assert (Hrate0 : rateLimitState s0 = rateLimitState s)
    by apply rateLimitGate_rate.
  rewrite Hsent0 in HA, HB. rewrite Hrate0 in HA.
  split; [exact Hrate0|]. split; [exact HA|].
  split; [|apply estimated_le_cap].
  intros n ts Hn Hts Hlater.
  destruct (HB n ts Hn Hts Hlater) as (pre & post & Ht & Hf & Hs).
  exists pre, post. split; [exact Ht|]. split; [exact Hf|].
  cbv zeta. split; [exact Hs|]. rewrite Hs. reflexivity.
Qed.

End Budget.

Lemma estimate_between_observations_witness :
  let s0 := rateLimitGate Fixtures.clock0 100 Fixtures.freshSession in
  let s' := snd (query Fixtures.bigShop Fixtures.clock0 Fixtures.shopQuery
                   None None Fixtures.freshSession) in
  exists pre post,
    trace s' = trace s0 ++ pre ++ Fetch Fixtures.shopRequest :: post /\
    length (fetches pre) = 0%nat /\
    rateLimitState s'
    = stateOfReport Fixtures.bigBucket
        (Fixtures.clock0 (S (length (trace s0 ++ pre)))).
Proof.
  destruct (proj1 (proj2 (proj2
              (estimate_between_observations Fixtures.bigShop Fixtures.clock0
                 Fixtures.shopQuery None None Fixtures.freshSession 0)))
              0%nat Fixtures.bigBucket)
    as (pre & post & Ht & Hf & Hs & _).
  - vm_compute. lia.
  - reflexivity.
  - intros m Hm. vm_compute in Hm. lia.
  - exists pre, post. split; [exact Ht|]. split; [exact Hf|exact Hs].
Defined.

(** C5 fails as stated, with the bound read as the budget's own maximum.
    A shop reports 1500 points available out of a maximum of 2000.  Right
    after that report the client has taken over the 1500, and yet its
    estimate is 1000, not [min(2000, 1500)]: a request announced with a
    cost of 1200 is held back for 2100 ms although the shop has just said
    that 1500 points are there. *)
Lemma estimate_ignores_the_reported_maximum :
  let st := rateLimitState
              (snd (query Fixtures.bigShop Fixtures.clock0 Fixtures.shopQuery
                      None None Fixtures.freshSession)) in
  let now := rl_lastUpdate st in
  reportOf (Fixtures.bigShop 0 Fixtures.shopRequest)
    = Some Fixtures.bigBucket /\
  (rl_available st == 1500)%Q /\
  (estimated st now == 1000)%Q /\
  ~ (estimated st now
     == Qmin (maximumAvailable Fixtures.bigBucket)
          (rl_available st + elapsed st now * rl_restoreRate st))%Q /\
  exists d, waitForRateLimit 1200 now st = Some (Finite d) /\ (d == 2100)%Q.
Proof.
  cbv zeta. split; [reflexivity|]. split; [vm_compute; reflexivity|].
  split; [vm_compute; reflexivity|]. split.
  - intros H. vm_compute in H. discriminate.
  - eexists. split; [vm_compute; reflexivity|]. vm_compute. reflexivity.
Qed.

(** ** Pagination *)

Section Pages.

Context {T N : Type} {truthiness : Truthiness T}.
Variable server : nat -> Request -> FetchOutcome T.
Variable clock : nat -> Z.
Variable q : string.
Variable variables : gmap string Value.
Variable getPageInfo : T -> PageInfo.
Variable getNodes : T -> list N.
Variable size : Q.


(** A query whose first reply carries data: one request, no waiting
    besides the gate. *)
Lemma query_first_try vars s d :
  let req := {| req_query := q; req_variables := vars |} in
  classify (server (sent s) req) = Returned d ->
  exists s',
    query server clock q vars None s = (Ok d, s') /\
    sent s' = S (sent s) /\
    fetches (trace s') = fetches (trace s) ++ [req].
Proof.
  intros req H. rewrite query_unfold. fold req.
  change (Z.to_nat (optRetries None)) with 3%nat.
  rewrite <- (rateLimitGate_sent clock (optEstimatedCost None) s) in H.
  rewrite (attempts_returned _ _ _ _ _ _ _ _ _ H).
  eexists. split; [reflexivity|]. split.
  - now rewrite observe_sent, countRequest_sent, record_sent,
      rateLimitGate_sent.
  - rewrite observe_trace, countRequest_trace, record_trace.
    unfold fetches at 1. rewrite omap_app. simpl.
    f_equal. apply rateLimitGate_fetches.
Qed.



End Pages.




(** The same walk, evaluated: three requests, whose [after] variables are
    [null] and then the two cursors as the server sent them. *)
Example paginate_catalog_requests :
  map afterOf
    (fetches (trace (snd (paginate Fixtures.catalog Fixtures.clock0
                            Fixtures.productsQuery Fixtures.productsVariables
                            Fixtures.pageInfo Fixtures.nodes None 10
                            Fixtures.freshSession))))
  = [Some VNull; Some (VStr "eyJpZCI6NTB9"); Some (VStr "eyJpZCI6MTAwfQ")].
Proof. vm_compute. reflexivity. Qed.

End ShopifyFacts.

(** * Properties of the import *)

Module ImportFacts.

Import GDriveImport.
Local Open Scope list_scope.

(** Case analysis over every branch of one loop iteration. *)
Ltac branches :=
  repeat match goal with
         | |- context [match ?x with _ => _ end] =>
             lazymatch x with
             | context [match _ with _ => _ end] => fail
             | _ => destruct x eqn:?
             end
         end.

(** Projections out of an updated loop state. *)
Ltac project :=
  unfold bucketKeys;
  cbn [fst snd cacheSet withResults withDest setBuckets putObject insertAsset
       bucketCache dest results products media_buckets media_assets].

Section Accounting.

Variable env : Collaborators.
Variable bucket basePath : string.

Lemma processFile_accounting i file st :
  let r := results st in
  let r' := results (processFile env bucket basePath i file st) in
  total r' = total r /\
  settled r' = S (settled r) /\
  length (errors r') + failed r = length (errors r) + failed r' /\
  uploaded r' + assetsCreated r + failed r
    <= uploaded r + assetsCreated r' + failed r' /\
  assetsCreated r' + uploaded r <= assetsCreated r + uploaded r'.
Proof.
  unfold processFile, tryFile, resolveBucket, settled.
  branches; simpl; rewrite ?length_app; simpl; repeat split; lia.
Qed.

Lemma importFrom_accounting files : forall i st,
  let r := results st in
  let r' := results (importFrom env bucket basePath i files st) in
  total r' = total r /\
  settled r' = settled r + length files /\
  length (errors r') + failed r = length (errors r) + failed r' /\
  uploaded r' + assetsCreated r + failed r
    <= uploaded r + assetsCreated r' + failed r' /\
  assetsCreated r' + uploaded r <= assetsCreated r + uploaded r'.
Proof.
  induction files as [|file rest IH]; intros i st; simpl.
  - repeat split; lia.
  - pose proof (processFile_accounting i file st) as H.
    pose proof (IH (S i) (processFile env bucket basePath i file st)) as H'.
    simpl in H, H'. repeat split; lia.
Qed.

End Accounting.

(** C3, as the code has it.  Every file of the listing ends in exactly one
    of [assetsCreated], [skippedNoProduct] and [failed], so [total] is their
    sum, and [errors] has one entry per failed file.  [uploaded] is not one
    of the three: it counts the files whose object was stored, which are
    the files of [assetsCreated] and those failed ones whose insert was
    refused after the upload. *)
Theorem every_file_is_settled_once
    (env : Collaborators) (input : RouteInput) (bucket basePath : string)
    (files : list RemoteFile) (d : Destination) :
  let r := results (importFiles env bucket basePath files d) in
  (total r = length files /\
   total r = assetsCreated r + skippedNoProduct r + failed r /\
   length (errors r) = failed r /\
   assetsCreated r <= uploaded r <= assetsCreated r + failed r) /\
  match fst (POST env input d) with
  | ReportResponse _ _ _ report =>
      total report
        = assetsCreated report + skippedNoProduct report + failed report /\
      length (errors report) = failed report /\
      assetsCreated report <= uploaded report
        <= assetsCreated report + failed report
  | ErrorResponse _ _ => True
  end.
Proof.
  assert (H : forall b p fs,
             let r := results (importFiles env b p fs d) in
             total r = length fs /\
             total r = assetsCreated r + skippedNoProduct r + failed r /\
             length (errors r) = failed r /\
             assetsCreated r <= uploaded r <= assetsCreated r + failed r).
  { intros b p fs. unfold importFiles.
    pose proof (importFrom_accounting env b p fs 0 (freshLoop fs d)) as Hacc.
    unfold settled in Hacc. simpl in Hacc. simpl. lia. }
  split; [apply H|].
  unfold POST.
  destruct (opening input); [exact I|].
  destruct (negb (truthy (folderId input))); [exact I|].
  destruct (negb (truthy (storjBucket input))); [exact I|].
  destruct (negb (signedIn input)); [exact I|].
  destruct (cleanBasePath input) as [basePath'|e]; [|exact I].
  destruct (listFolderTree input) as [fs|e]; [|exact I].
  simpl fst.
  destruct (H (storjBucket input) basePath' fs)
    as (_ & H2 & H3 & H4 & H5).
  repeat split; assumption.
Qed.

(** C3 fails as stated, with [uploaded] read as the counter of successes:
    one file whose object is stored and whose insert is then refused is
    counted in [uploaded] and in [failed], and the three counters add up to
    two for a single file. *)
Lemma uploaded_and_failed_overlap :
  let r := results (importFiles (ImportFixtures.insertFailsAt 0)
                      ImportFixtures.storj EmptyString [ImportFixtures.front]
                      ImportFixtures.emptyDestination) in
  total r = 1 /\ uploaded r = 1 /\ skippedNoProduct r = 0 /\ failed r = 1 /\
  total r <> uploaded r + skippedNoProduct r + failed r.
Proof. vm_compute. repeat split; discriminate. Qed.

(** ** One file at a time *)

Section Steps.

Variable env : Collaborators.
Variable bucket basePath : string.
Variable table : list Product.

Lemma resolve_owned i file sku st :
  cacheSound table st -> owned table sku = true ->
  upsertAnswer env i = Upserted ->
  exists info st1,
    resolveBucket env basePath i file sku st = (Bucket info, st1) /\
    cacheSound table st1 /\ ledger st1 = ledger st.
Proof.
  intros [Hp Hc] Hown Hups. unfold resolveBucket.
  destruct (bucketCache st !! sku) as [info|] eqn:E.
  - exists info, st. now repeat split.
  - rewrite Hp. unfold owned in Hown.
    destruct (singleProduct sku table) as [p|] eqn:Esp; [|discriminate].
    rewrite Hown. simpl negb. cbv iota.
    destruct (upsertByProduct _ _) as [rows mb]. rewrite Hups.
    eexists. eexists. split; [reflexivity|]. split; [split|reflexivity].
    + exact Hp.
    + intros sku' info'. simpl.
      destruct (decide (sku = sku')) as [<-|Hne].
      * intros _. unfold owned. rewrite Esp. exact Hown.
      * rewrite lookup_insert_ne by exact Hne. apply Hc.
Qed.

Lemma resolve_unowned i file sku st :
  cacheSound table st -> owned table sku = false ->
  resolveBucket env basePath i file sku st
    = (NoProduct, withResults bumpSkippedNoProduct st).
Proof.
  intros [Hp Hc] Hown. unfold resolveBucket.
  destruct (bucketCache st !! sku) as [info|] eqn:E.
  - rewrite (Hc _ _ E) in Hown. discriminate.
  - rewrite Hp. unfold owned in Hown.
    destruct (singleProduct sku table) as [p|]; [|reflexivity].
    now rewrite Hown.
Qed.

Lemma ledger_skipped st :
  ledger (withResults bumpSkippedNoProduct st) =
  {| l_total := l_total (ledger st);
     l_uploaded := l_uploaded (ledger st);
     l_assetsCreated := l_assetsCreated (ledger st);
     l_skippedNoProduct := S (l_skippedNoProduct (ledger st));
     l_failed := l_failed (ledger st);
     l_errors := l_errors (ledger st);
     l_assets := l_assets (ledger st) |}.
Proof. reflexivity. Qed.

(** A file whose label has no product is skipped and nothing else
    happens. *)
Lemma processFile_skipped i file st buffer :
  cacheSound table st ->
  downloadDriveFile env i = inl buffer ->
  truthy (skuLabelOf (file_path file)) = true ->
  owned table (skuLabelOf (file_path file)) = false ->
  processFile env bucket basePath i file st
    = withResults bumpSkippedNoProduct st.
Proof.
  intros Hs Hd Hsku Hown. unfold processFile, tryFile.
  rewrite Hd, Hsku. simpl negb. cbv iota.
  now rewrite (resolve_unowned i file _ st Hs Hown).
Qed.

(** A file that passes every step. *)
Lemma processFile_completed i file st buffer :
  cacheSound table st ->
  downloadDriveFile env i = inl buffer ->
  truthy (skuLabelOf (file_path file)) = true ->
  owned table (skuLabelOf (file_path file)) = true ->
  upsertAnswer env i = Upserted ->
  uploadObject env i = None ->
  insertError env i = None ->
  let st' := processFile env bucket basePath i file st in
  cacheSound table st' /\
  ledger st' =
    {| l_total := l_total (ledger st);
       l_uploaded := S (l_uploaded (ledger st));
       l_assetsCreated := S (l_assetsCreated (ledger st));
       l_skippedNoProduct := l_skippedNoProduct (ledger st);
       l_failed := l_failed (ledger st);
       l_errors := l_errors (ledger st);
       l_assets := l_assets (ledger st) ++ [file_path file] |}.
Proof.
  intros Hs Hd Hsku Hown Hups Hupl Hins st'. unfold st', processFile, tryFile.
  rewrite Hd, Hsku. simpl negb. cbv iota.
  destruct (resolve_owned i file _ st Hs Hown Hups)
    as (info & st1 & -> & Hs1 & Hl).
  rewrite Hupl, Hins. split.
  - destruct Hs1 as [Hp Hc]. split; [exact Hp|exact Hc].
  - unfold ledger in *. simpl. rewrite map_app. simpl.
    injection Hl as -> -> -> -> -> -> ->. reflexivity.
Qed.

(** A file whose object is stored and whose insert is then refused. *)
Lemma processFile_insert_refused i file st buffer m :
  cacheSound table st ->
  downloadDriveFile env i = inl buffer ->
  truthy (skuLabelOf (file_path file)) = true ->
  owned table (skuLabelOf (file_path file)) = true ->
  upsertAnswer env i = Upserted ->
  uploadObject env i = None ->
  insertError env i = Some m ->
  let st' := processFile env bucket basePath i file st in
  cacheSound table st' /\
  ledger st' =
    {| l_total := l_total (ledger st);
       l_uploaded := S (l_uploaded (ledger st));
       l_assetsCreated := l_assetsCreated (ledger st);
       l_skippedNoProduct := l_skippedNoProduct (ledger st);
       l_failed := S (l_failed (ledger st));
       l_errors := l_errors (ledger st)
                   ++ [{| error_path := file_path file;
                          error_message :=
                            ("Asset insert failed for " ++ file_path file
                             ++ ": " ++ m)%string |}];
       l_assets := l_assets (ledger st) |}.
Proof.
  intros Hs Hd Hsku Hown Hups Hupl Hins st'. unfold st', processFile, tryFile.
  rewrite Hd, Hsku. simpl negb. cbv iota.
  destruct (resolve_owned i file _ st Hs Hown Hups)
    as (info & st1 & -> & Hs1 & Hl).
  rewrite Hupl, Hins. split.
  - destruct Hs1 as [Hp Hc]. split; [exact Hp|exact Hc].
  - unfold ledger in *. simpl.
    injection Hl as -> -> -> -> -> -> ->. reflexivity.
Qed.

(** A file whose upload throws. *)
Lemma processFile_upload_throws i file st buffer e :
  cacheSound table st ->
  downloadDriveFile env i = inl buffer ->
  truthy (skuLabelOf (file_path file)) = true ->
  owned table (skuLabelOf (file_path file)) = true ->
  upsertAnswer env i = Upserted ->
  uploadObject env i = Some e ->
  let st' := processFile env bucket basePath i file st in
  cacheSound table st' /\
  ledger st' =
    {| l_total := l_total (ledger st);
       l_uploaded := l_uploaded (ledger st);
       l_assetsCreated := l_assetsCreated (ledger st);
       l_skippedNoProduct := l_skippedNoProduct (ledger st);
       l_failed := S (l_failed (ledger st));
       l_errors := l_errors (ledger st)
                   ++ [{| error_path := file_path file;
                          error_message := messageOf e |}];
       l_assets := l_assets (ledger st) |}.
Proof.
  intros Hs Hd Hsku Hown Hups Hupl st'. unfold st', processFile, tryFile.
  rewrite Hd, Hsku. simpl negb. cbv iota.
  destruct (resolve_owned i file _ st Hs Hown Hups)
    as (info & st1 & -> & Hs1 & Hl).
  rewrite Hupl. split.
  - destruct Hs1 as [Hp Hc]. split; [exact Hp|exact Hc].
  - unfold ledger in *. simpl.
    injection Hl as -> -> -> -> -> -> ->. reflexivity.
Qed.

End Steps.

(** ** Five files, one without a product, one that fails *)

Section FiveFiles.

Variable env : Collaborators.
Variable bucket basePath : string.
Variable d : Destination.
Variables f1 f2 f3 f4 f5 : RemoteFile.

Hypothesis downloads :
  forall i, i < 5 -> exists buffer, downloadDriveFile env i = inl buffer.
Hypothesis upserts : forall i, i < 5 -> upsertAnswer env i = Upserted.
Hypothesis labels :
  Forall (fun f => truthy (skuLabelOf (file_path f)) = true)
    [f1; f2; f3; f4; f5].
Hypothesis owned1 : owned (products d) (skuLabelOf (file_path f1)) = true.
Hypothesis owned2 : owned (products d) (skuLabelOf (file_path f2)) = true.
Hypothesis orphan3 : owned (products d) (skuLabelOf (file_path f3)) = false.
Hypothesis owned4 : owned (products d) (skuLabelOf (file_path f4)) = true.
Hypothesis owned5 : owned (products d) (skuLabelOf (file_path f5)) = true.
Hypothesis others_pass :
  forall i, i < 5 -> i <> 3 ->
    uploadObject env i = None /\ insertError env i = None.

Lemma fresh_cacheSound files :
  cacheSound (products d) (freshLoop files d).
Proof. split; [reflexivity|]. intros sku info H. discriminate. Qed.

(** The first three files: two assets, one skip. *)
Lemma after_three_files :
  let st3 := importFrom env bucket basePath 0 [f1; f2; f3]
               (freshLoop [f1; f2; f3; f4; f5] d) in
  cacheSound (products d) st3 /\
  ledger st3 =
    {| l_total := 5; l_uploaded := 2; l_assetsCreated := 2;
       l_skippedNoProduct := 1; l_failed := 0; l_errors := [];
       l_assets := map source_folder_path (media_assets d)
                   ++ [file_path f1; file_path f2] |}.
Proof.
  intros st3. pose proof labels as L.
  apply Forall_cons in L as [L1 L]. apply Forall_cons in L as [L2 L].
  apply Forall_cons in L as [L3 _].
  destruct (downloads 0 ltac:(lia)) as [b1 D1].
  destruct (downloads 1 ltac:(lia)) as [b2 D2].
  destruct (downloads 2 ltac:(lia)) as [b3 D3].
  destruct (others_pass 0 ltac:(lia) ltac:(lia)) as [U1 I1].
  destruct (others_pass 1 ltac:(lia) ltac:(lia)) as [U2 I2].
  destruct (processFile_completed env bucket basePath (products d) 0 f1 _ b1
              (fresh_cacheSound [f1; f2; f3; f4; f5]) D1 L1 owned1
              (upserts 0 ltac:(lia)) U1 I1)
    as [S1 E1].
  destruct (processFile_completed env bucket basePath (products d) 1 f2 _ b2
              S1 D2 L2 owned2 (upserts 1 ltac:(lia)) U2 I2)
    as [S2 E2].
  unfold st3. cbn [importFrom].
  rewrite (processFile_skipped env bucket basePath (products d) 2 f3 _ b3
             S2 D3 L3 orphan3).
  split.
  - destruct S2 as [Hp Hc]. split; [exact Hp|exact Hc].
  - rewrite ledger_skipped, E2, E1. simpl. now rewrite <- app_assoc.
Qed.

(** C4.  Five files; the label of the third has no product, the fourth
    fails at its persistence step (the insert into [media_assets] is
    refused, or the upload throws), everything else passes.  The report
    then counts three files that went through all the steps
    ([assetsCreated = 3]), one skipped ([skippedNoProduct = 1]) and one
    failed ([failed = 1]) out of [total = 5], with a single error entry,
    for the path of the fourth file; the loop goes on to the fifth file,
    which gets its row in [media_assets].  The counter of stored objects,
    [uploaded], is 3 when it is the upload that throws and 4 when the
    insert is refused after it. *)
Theorem five_files_one_skipped_one_failed :
  let st := importFiles env bucket basePath [f1; f2; f3; f4; f5] d in
  let r := results st in
  (forall m,
     uploadObject env 3 = None -> insertError env 3 = Some m ->
     total r = 5 /\ assetsCreated r = 3 /\ skippedNoProduct r = 1 /\
     failed r = 1 /\ uploaded r = 4 /\
     errors r = [{| error_path := file_path f4;
                    error_message :=
                      ("Asset insert failed for " ++ file_path f4
                       ++ ": " ++ m)%string |}] /\
     map source_folder_path (media_assets (dest st)) =
       map source_folder_path (media_assets d)
       ++ [file_path f1; file_path f2; file_path f5]) /\
  (forall e,
     uploadObject env 3 = Some e ->
     total r = 5 /\ assetsCreated r = 3 /\ skippedNoProduct r = 1 /\
     failed r = 1 /\ uploaded r = 3 /\
     errors r = [{| error_path := file_path f4;
                    error_message := messageOf e |}] /\
     map source_folder_path (media_assets (dest st)) =
       map source_folder_path (media_assets d)
       ++ [file_path f1; file_path f2; file_path f5]).
Proof.
  intros st r.
  set (st3 := importFrom env bucket basePath 0 [f1; f2; f3]
                (freshLoop [f1; f2; f3; f4; f5] d)).
  assert (Hst : st = processFile env bucket basePath 4 f5
                       (processFile env bucket basePath 3 f4 st3))
    by reflexivity.
  pose proof labels as L.
  do 3 (apply Forall_cons in L as [_ L]).
  apply Forall_cons in L as [L4 L]. apply Forall_cons in L as [L5 _].
  destruct (downloads 3 ltac:(lia)) as [b4 D4].
  destruct (downloads 4 ltac:(lia)) as [b5 D5].
  destruct (others_pass 4 ltac:(lia) ltac:(lia)) as [U5 I5].
  destruct after_three_files as [S3 E3]. fold st3 in S3, E3.
  split.
  - intros m U4 I4.
    destruct (processFile_insert_refused env bucket basePath (products d) 3 f4
                st3 b4 m S3 D4 L4 owned4 (upserts 3 ltac:(lia)) U4 I4)
      as [S4 E4].
    destruct (processFile_completed env bucket basePath (products d) 4 f5 _ b5
                S4 D5 L5 owned5 (upserts 4 ltac:(lia)) U5 I5)
      as [_ E5].
    rewrite <- Hst in E5. rewrite E4, E3 in E5. simpl in E5.
    rewrite <- app_assoc in E5. simpl in E5.
    unfold ledger in E5. injection E5 as H1 H2 H3 H4 H5 H6 H7.
    now repeat split.
  - intros e U4.
    destruct (processFile_upload_throws env bucket basePath (products d) 3 f4
                st3 b4 e S3 D4 L4 owned4 (upserts 3 ltac:(lia)) U4)
      as [S4 E4].
    destruct (processFile_completed env bucket basePath (products d) 4 f5 _ b5
                S4 D5 L5 owned5 (upserts 4 ltac:(lia)) U5 I5)
      as [_ E5].
    rewrite <- Hst in E5. rewrite E4, E3 in E5. simpl in E5.
    rewrite <- app_assoc in E5. simpl in E5.
    unfold ledger in E5. injection E5 as H1 H2 H3 H4 H5 H6 H7.
    now repeat split.
Qed.

End FiveFiles.

Lemma five_files_one_skipped_one_failed_witness :
  let st := importFiles (ImportFixtures.insertFailsAt 3) ImportFixtures.storj
              EmptyString ImportFixtures.fiveFiles ImportFixtures.emptyDestination in
  let r := results st in
  total r = 5 /\ assetsCreated r = 3 /\ skippedNoProduct r = 1 /\
  failed r = 1 /\ uploaded r = 4 /\
  errors r =
    [{| error_path := "KS-200/video/clip.mp4";
        error_message :=
          "Asset insert failed for KS-200/video/clip.mp4: permission denied for table media_assets" |}] /\
  map source_folder_path (media_assets (dest st)) =
    ["KS-100/front.jpg"; "KS-100/back.jpg"; "KS-200/manual.pdf"].
Proof.
  refine (proj1 (five_files_one_skipped_one_failed
                   (ImportFixtures.insertFailsAt 3) ImportFixtures.storj EmptyString
                   ImportFixtures.emptyDestination
                   ImportFixtures.front ImportFixtures.back
                   ImportFixtures.orphan ImportFixtures.clip
                   ImportFixtures.manual _ _ _ _ _ _ _ _ _)
            "permission denied for table media_assets"%string
            eq_refl eq_refl).
  - intros i _. eexists. reflexivity.
  - intros i _. reflexivity.
  - repeat constructor.
  - reflexivity.
  - reflexivity.
  - reflexivity.
  - reflexivity.
  - reflexivity.
  - intros i Hi Hne.
    do 3 (destruct i as [|i]; [split; reflexivity|]).
    destruct i as [|i]; [contradiction|].
    destruct i as [|i]; [split; reflexivity|lia].
Defined.

(** The report of that run as a whole: the two buckets were created along
    the way, and the object of the fourth file was stored before its insert
    was refused. *)
Example five_files_report :
  results (importFiles (ImportFixtures.insertFailsAt 3)
             ImportFixtures.storj EmptyString ImportFixtures.fiveFiles
             ImportFixtures.emptyDestination)
  = {| total := 5; uploaded := 4; failed := 1;
       errors :=
         [{| error_path := "KS-200/video/clip.mp4";
             error_message :=
               "Asset insert failed for KS-200/video/clip.mp4: permission denied for table media_assets" |}];
       assetsCreated := 3; bucketsCreated := 2; skippedNoProduct := 1 |}.
Proof. vm_compute. reflexivity. Qed.

(** ** Upsert by key *)

Lemma addKey_present k ks : k ∈ ks -> addKey k ks = ks.
Proof. intros H. unfold addKey. now rewrite bool_decide_eq_true_2. Qed.

Lemma addKey_incl k ks x : x ∈ ks -> x ∈ addKey k ks.
Proof.
  intros H. unfold addKey. destruct (bool_decide (k ∈ ks)); [exact H|].
  apply elem_of_app. now left.
Qed.

Lemma addKey_NoDup k ks : NoDup ks -> NoDup (addKey k ks).
Proof.
  intros H. unfold addKey. destruct (bool_decide (k ∈ ks)) eqn:E; [exact H|].
  apply bool_decide_eq_false in E.
  apply NoDup_app. split; [exact H|]. split.
  - intros x Hx Hin. apply list_elem_of_singleton in Hin. now subst.
  - apply NoDup_singleton.
Qed.

Lemma upsertByProduct_keys row table :
  map product_id (fst (upsertByProduct row table))
    = addKey (product_id row) (map product_id table).
Proof.
  induction table as [|r rest IH].
  - reflexivity.
  - simpl. destruct (String.eqb (product_id r) (product_id row)) eqn:E.
    + apply String.eqb_eq in E. simpl. rewrite E.
      symmetry. apply addKey_present. left.
    + apply String.eqb_neq in E.
      destruct (upsertByProduct row rest) as [rest' out]. simpl in *.
      rewrite IH. unfold addKey.
      destruct (bool_decide (product_id row ∈ map product_id rest)) eqn:B.
      * apply bool_decide_eq_true in B.
        rewrite bool_decide_eq_true_2; [reflexivity|now right].
      * apply bool_decide_eq_false in B.
        rewrite bool_decide_eq_false_2; [reflexivity|].
        intros [Heq|Hin]%elem_of_cons; [congruence|contradiction].
Qed.

Lemma upsertByProduct_Forall (Q : MediaBucket -> Prop) row table :
  (forall r, product_id r = product_id row ->
             sku_label r = sku_label row -> Q r) ->
  Forall Q table -> Forall Q (fst (upsertByProduct row table)).
Proof.
  intros HQ. induction table as [|r rest IH]; intros Hall.
  - simpl. constructor; [now apply HQ|constructor].
  - apply Forall_cons in Hall as [Hr Hrest]. simpl.
    destruct (String.eqb (product_id r) (product_id row)).
    + simpl. constructor; [now apply HQ|exact Hrest].
    + specialize (IH Hrest).
      destruct (upsertByProduct row rest) as [rest' out]. simpl in *.
      now constructor.
Qed.

(** With unique [product_id]s and rows that agree with [products], no two
    rows share a label. *)
Lemma unique_labels table rows :
  NoDup (map product_id rows) -> Forall (owns table) rows ->
  NoDup (map sku_label rows).
Proof.
  induction rows as [|r rest IH]; intros Hnd Hown; [constructor|].
  simpl in *. apply NoDup_cons in Hnd as [Hnotin Hnd].
  apply Forall_cons in Hown as [Hr Hrest].
  apply NoDup_cons. split; [|now apply IH].
  intros Hin. apply Hnotin.
  apply list_elem_of_fmap in Hin as (r' & Hsku & Hr').
  apply list_elem_of_fmap. exists r'. split; [|exact Hr'].
  rewrite Forall_forall in Hrest.
  destruct (Hrest r' Hr') as (p' & Hp' & Hid').
  destruct Hr as (p & Hp & Hid).
  rewrite Hsku in Hp. congruence.
Qed.

(** ** Two runs side by side *)

Lemma keysMove_refl ks1 ks2 : keysMove ks1 ks1 ks2 ks2.
Proof. left. now split. Qed.

Lemma sameBehaviour_refl env : sameBehaviour env env.
Proof. intros i. now repeat split. Qed.

Section InStep.

Variables env1 env2 : Collaborators.
Variable bucket basePath : string.
Hypothesis agree : sameBehaviour env1 env2.

(** The lookup-or-create takes the same branch in both runs and, when it
    upserts, upserts the same key. *)
Lemma resolveBucket_sameView i file sku st1 st2 :
  sameView st1 st2 ->
  let r1 := resolveBucket env1 basePath i file sku st1 in
  let r2 := resolveBucket env2 basePath i file sku st2 in
  sameView (snd r1) (snd r2) /\
  keysMove (bucketKeys (dest st1)) (bucketKeys (dest (snd r1)))
           (bucketKeys (dest st2)) (bucketKeys (dest (snd r2))) /\
  match fst r1, fst r2 with
  | Bucket _, Bucket _ => True
  | NoProduct, NoProduct => True
  | BucketFailed m1, BucketFailed m2 => m1 = m2
  | _, _ => False
  end.
Proof.
  intros [Hp Hc]. unfold resolveBucket.
  destruct (agree i) as (_ & Hu & _).
  destruct (bucketCache st1 !! sku) as [info1|] eqn:E1;
    destruct (bucketCache st2 !! sku) as [info2|] eqn:E2.
  - simpl. repeat split; try assumption; try apply Hc.
    apply keysMove_refl.
  - apply Hc in E2. congruence.
  - apply Hc in E1. congruence.
  - rewrite <- Hp, <- Hu.
    destruct (singleProduct sku (products (dest st1))) as [p|];
      [|simpl; repeat split; try assumption; try apply Hc;
        apply keysMove_refl].
    destruct (negb (truthy (product_row_id p)));
      [simpl; repeat split; try assumption; try apply Hc;
       apply keysMove_refl|].
    pose proof (upsertByProduct_keys
                  (bucketRow env1 basePath i file sku p (dest st1))
                  (media_buckets (dest st1))) as K1.
    pose proof (upsertByProduct_keys
                  (bucketRow env2 basePath i file sku p (dest st2))
                  (media_buckets (dest st2))) as K2.
    destruct (upsertByProduct (bucketRow env1 basePath i file sku p (dest st1))
                (media_buckets (dest st1))) as [rows1 mb1].
    destruct (upsertByProduct (bucketRow env2 basePath i file sku p (dest st2))
                (media_buckets (dest st2))) as [rows2 mb2].
    simpl in K1, K2.
    destruct (upsertAnswer env1 i); project.
    + split; [split; [exact Hp|]|split; [|exact I]].
      * intros sku'. project.
        destruct (decide (sku = sku')) as [<-|Hne].
        -- rewrite !lookup_insert_eq. split; discriminate.
        -- rewrite !lookup_insert_ne by exact Hne. apply Hc.
      * right. exists (product_row_id p). now split.
    + repeat split; try assumption; try apply Hc. apply keysMove_refl.
    + split; [split; [exact Hp|exact Hc]|split; [|reflexivity]].
      right. exists (product_row_id p). now split.
    + split; [split; [exact Hp|]|split; [|exact I]].
      * intros sku'. project.
        destruct (decide (sku = sku')) as [<-|Hne].
        -- rewrite !lookup_insert_eq. split; discriminate.
        -- rewrite !lookup_insert_ne by exact Hne. apply Hc.
      * right. exists (product_row_id p). now split.
Qed.

Lemma resolveBucket_assetsCreated env i file sku st :
  assetsCreated (results (snd (resolveBucket env basePath i file sku st)))
    = assetsCreated (results st).
Proof. unfold resolveBucket. branches; reflexivity. Qed.

(** One iteration keeps the two runs in step. *)
Lemma processFile_sameView i file st1 st2 :
  sameView st1 st2 ->
  let st1' := processFile env1 bucket basePath i file st1 in
  let st2' := processFile env2 bucket basePath i file st2 in
  sameView st1' st2' /\
  keysMove (bucketKeys (dest st1)) (bucketKeys (dest st1'))
           (bucketKeys (dest st2)) (bucketKeys (dest st2')) /\
  assetsCreated (results st1') + assetsCreated (results st2)
    = assetsCreated (results st2') + assetsCreated (results st1).
Proof.
  intros Hv. unfold processFile, tryFile.
  destruct (agree i) as (Hd & _ & Hs & Hi).
  unfold downloads in Hd. unfold stores in Hs. unfold inserts in Hi.
  destruct (downloadDriveFile env1 i) as [b1|e1],
           (downloadDriveFile env2 i) as [b2|e2]; try discriminate;
    [|simpl; split; [exact Hv|split; [apply keysMove_refl|lia]]].
  destruct (negb (truthy (skuLabelOf (file_path file))));
    [simpl; split; [exact Hv|split; [apply keysMove_refl|lia]]|].
  pose proof (resolveBucket_sameView i file (skuLabelOf (file_path file))
                st1 st2 Hv) as (Hv' & Hk & Hsame).
  pose proof (resolveBucket_assetsCreated env1 i file
                (skuLabelOf (file_path file)) st1) as A1.
  pose proof (resolveBucket_assetsCreated env2 i file
                (skuLabelOf (file_path file)) st2) as A2.
  destruct (resolveBucket env1 basePath i file (skuLabelOf (file_path file))
              st1) as [[info1| |m1] s1].
  all: destruct (resolveBucket env2 basePath i file
                   (skuLabelOf (file_path file)) st2) as [[info2| |m2] s2].
  all: simpl in Hv', Hk, Hsame, A1, A2; try contradiction.
  - destruct (uploadObject env1 i), (uploadObject env2 i); try discriminate;
      [split; [exact Hv'|split; [exact Hk|simpl; lia]]|].
    destruct (insertError env1 i), (insertError env2 i); try discriminate;
      (split; [exact Hv'|split; [exact Hk|simpl; lia]]).
  - split; [exact Hv'|split; [exact Hk|simpl; lia]].
  - split; [exact Hv'|split; [exact Hk|simpl; lia]].
Qed.

End InStep.

Section OneRun.

Variable env : Collaborators.
Variable bucket basePath : string.

(** A single run only ever upserts: the key column stays or gains a key. *)
Lemma processFile_keys i file st :
  let st' := processFile env bucket basePath i file st in
  bucketKeys (dest st') = bucketKeys (dest st) \/
  exists k, bucketKeys (dest st') = addKey k (bucketKeys (dest st)).
Proof.
  destruct (processFile_sameView env env bucket basePath
              (sameBehaviour_refl env) i file st st)
    as (_ & [[H _]|(k & H & _)] & _).
  - split; [reflexivity|tauto].
  - now left.
  - right. now exists k.
Qed.

Lemma importFrom_keys_grow files : forall i st k,
  k ∈ bucketKeys (dest st) ->
  k ∈ bucketKeys (dest (importFrom env bucket basePath i files st)).
Proof.
  induction files as [|file rest IH]; intros i st k Hk; [exact Hk|].
  simpl. apply IH.
  destruct (processFile_keys i file st) as [->|(k' & ->)];
    [exact Hk|now apply addKey_incl].
Qed.

Lemma importFrom_keys_NoDup files : forall i st,
  NoDup (bucketKeys (dest st)) ->
  NoDup (bucketKeys (dest (importFrom env bucket basePath i files st))).
Proof.
  induction files as [|file rest IH]; intros i st H; [exact H|].
  simpl. apply IH.
  destruct (processFile_keys i file st) as [->|(k' & ->)];
    [exact H|now apply addKey_NoDup].
Qed.

Lemma resolveBucket_products i file sku st :
  products (dest (snd (resolveBucket env basePath i file sku st)))
    = products (dest st).
Proof. unfold resolveBucket. branches; reflexivity. Qed.

Lemma processFile_products i file st :
  products (dest (processFile env bucket basePath i file st))
    = products (dest st).
Proof.
  unfold processFile, tryFile.
  pose proof (resolveBucket_products i file (skuLabelOf (file_path file)) st)
    as H.
  branches; simpl in *; congruence.
Qed.

Lemma importFrom_products files : forall i st,
  products (dest (importFrom env bucket basePath i files st))
    = products (dest st).
Proof.
  induction files as [|file rest IH]; intros i st; [reflexivity|].
  simpl. rewrite IH. apply processFile_products.
Qed.

(** Rows written by the loop agree with [products]. *)
Lemma resolveBucket_owns i file sku st :
  Forall (owns (products (dest st))) (media_buckets (dest st)) ->
  Forall (owns (products (dest st)))
    (media_buckets (dest (snd (resolveBucket env basePath i file sku st)))).
Proof.
  intros Hall. unfold resolveBucket.
  destruct (bucketCache st !! sku); [exact Hall|].
  destruct (singleProduct sku (products (dest st))) as [p|] eqn:Esp;
    [|exact Hall].
  destruct (negb (truthy (product_row_id p))); [exact Hall|].
  pose proof (upsertByProduct_Forall (owns (products (dest st)))
                (bucketRow env basePath i file sku p (dest st))
                (media_buckets (dest st))) as HF.
  destruct (upsertByProduct _ _) as [rows mb]. simpl in HF.
  assert (Hrows : Forall (owns (products (dest st))) rows).
  { apply HF; [|exact Hall].
    intros r Hid Hsku. exists p. rewrite Hsku. now split. }
  destruct (upsertAnswer env i);
    [exact Hrows|exact Hall|exact Hrows|exact Hrows].
Qed.

Lemma processFile_owns table i file st :
  products (dest st) = table ->
  Forall (owns table) (media_buckets (dest st)) ->
  Forall (owns table)
    (media_buckets (dest (processFile env bucket basePath i file st))).
Proof.
  intros <- Hall. unfold processFile, tryFile.
  pose proof (resolveBucket_owns i file (skuLabelOf (file_path file)) st Hall)
    as H.
  branches; simpl in *; assumption.
Qed.

Lemma importFrom_owns table files : forall i st,
  products (dest st) = table ->
  Forall (owns table) (media_buckets (dest st)) ->
  Forall (owns table)
    (media_buckets (dest (importFrom env bucket basePath i files st))).
Proof.
  induction files as [|file rest IH]; intros i st Hp Hall; [exact Hall|].
  simpl. apply IH.
  - now rewrite processFile_products.
  - now apply processFile_owns.
Qed.

(** [media_assets] is only ever appended to, one row per asset counted. *)
Lemma processFile_assets i file st :
  let st' := processFile env bucket basePath i file st in
  exists added,
    media_assets (dest st') = media_assets (dest st) ++ added /\
    assetsCreated (results st') = assetsCreated (results st) + length added.
Proof.
  unfold processFile, tryFile, resolveBucket.
  branches; simpl;
    first [ exists []; split; [now rewrite app_nil_r|simpl; lia]
          | eexists [_]; split; [reflexivity|simpl; lia] ].
Qed.

Lemma importFrom_assets files : forall i st,
  exists added,
    media_assets (dest (importFrom env bucket basePath i files st))
      = media_assets (dest st) ++ added /\
    assetsCreated (results (importFrom env bucket basePath i files st))
      = assetsCreated (results st) + length added.
Proof.
  induction files as [|file rest IH]; intros i st.
  - exists []. split; [now rewrite app_nil_r|simpl; lia].
  - simpl. destruct (processFile_assets i file st) as (a1 & E1 & L1).
    destruct (IH (S i) (processFile env bucket basePath i file st))
      as (a2 & E2 & L2).
    exists (a1 ++ a2). split.
    + now rewrite E2, E1, <- app_assoc.
    + rewrite L2, L1, length_app. lia.
Qed.

End OneRun.

Section Reruns.

Variables env1 env2 : Collaborators.
Variable bucket basePath : string.
Hypothesis agree : sameBehaviour env1 env2.

(** The heart of the matter: a run that starts where every key the other
    run ends with is already present leaves the key column as it is. *)
Lemma importFrom_keys_fixed files : forall i st1 st2,
  sameView st1 st2 ->
  (forall k,
     k ∈ bucketKeys (dest (importFrom env1 bucket basePath i files st1)) ->
     k ∈ bucketKeys (dest st2)) ->
  bucketKeys (dest (importFrom env2 bucket basePath i files st2))
    = bucketKeys (dest st2).
Proof.
  induction files as [|file rest IH]; intros i st1 st2 Hv Hsub; [reflexivity|].
  simpl in *.
  destruct (processFile_sameView env1 env2 bucket basePath agree i file
              st1 st2 Hv) as (Hv' & Hk & _).
  assert (Hfix : bucketKeys (dest (processFile env2 bucket basePath i file st2))
                 = bucketKeys (dest st2)).
  { destruct Hk as [[_ H]|(k & H1 & H2)]; [exact H|].
    rewrite H2. apply addKey_present. apply Hsub.
    apply importFrom_keys_grow. rewrite H1.
    unfold addKey. destruct (bool_decide (k ∈ bucketKeys (dest st1))) eqn:B.
    - now apply bool_decide_eq_true in B.
    - apply elem_of_app. right. left. }
  rewrite <- Hfix. apply (IH (S i) _ _ Hv').
  intros k Hin. rewrite Hfix. now apply Hsub.
Qed.

Lemma importFrom_assetsCreated_parity files : forall i st1 st2,
  sameView st1 st2 ->
  assetsCreated (results (importFrom env1 bucket basePath i files st1))
  + assetsCreated (results st2)
  = assetsCreated (results (importFrom env2 bucket basePath i files st2))
    + assetsCreated (results st1).
Proof.
  induction files as [|file rest IH]; intros i st1 st2 Hv; [simpl; lia|].
  simpl.
  destruct (processFile_sameView env1 env2 bucket basePath agree i file
              st1 st2 Hv) as (Hv' & _ & Ha).
  specialize (IH (S i) _ _ Hv'). simpl in Ha. lia.
Qed.

End Reruns.

(** C9.  Run the import over a listing, and then once more over the same
    listing from the destination the first run left behind, the
    collaborators succeeding and failing on the same calls as before.  The
    second run upserts only keys that are already there: the [product_id]
    column of [media_buckets], and so the number of bucket rows, is the
    same after it.  Upserting by key never puts a second row under a key,
    and when the rows agree with [products] no two rows share a grouping
    label either.  [media_assets] on the other hand is appended to: the
    second run adds as many rows again as the first one created. *)
Theorem rerun_keeps_buckets_and_repeats_assets
    (env1 env2 : Collaborators) (bucket basePath : string)
    (files : list RemoteFile) (d0 : Destination) :
  sameBehaviour env1 env2 ->
  let st1 := importFiles env1 bucket basePath files d0 in
  let st2 := importFiles env2 bucket basePath files (dest st1) in
  bucketKeys (dest st2) = bucketKeys (dest st1) /\
  length (media_buckets (dest st2)) = length (media_buckets (dest st1)) /\
  (NoDup (bucketKeys d0) ->
     NoDup (bucketKeys (dest st1)) /\ NoDup (bucketKeys (dest st2))) /\
  (NoDup (bucketKeys d0) ->
   Forall (owns (products d0)) (media_buckets d0) ->
     NoDup (map sku_label (media_buckets (dest st1))) /\
     NoDup (map sku_label (media_buckets (dest st2)))) /\
  exists added,
    media_assets (dest st2) = media_assets (dest st1) ++ added /\
    length added = assetsCreated (results st2) /\
    assetsCreated (results st2) = assetsCreated (results st1).
Proof.
  intros agree st1 st2.
  set (init := freshLoop files).
  assert (Hview : sameView (init d0) (init (dest st1))).
  { split; [|tauto]. simpl. symmetry.
    apply (importFrom_products env1 bucket basePath files 0 (init d0)). }
  assert (Hkeys : bucketKeys (dest st2) = bucketKeys (dest st1)).
  { apply (importFrom_keys_fixed env1 env2 bucket basePath agree files 0
             (init d0) (init (dest st1)) Hview).
    intros k Hk. exact Hk. }
  assert (Hp1 : products (dest st1) = products d0)
    by apply (importFrom_products env1 bucket basePath files 0 (init d0)).
  split; [exact Hkeys|]. split.
  { unfold bucketKeys in Hkeys.
    rewrite <- (length_map product_id (media_buckets (dest st2))), Hkeys.
    apply length_map. }
  split.
  { intros Hnd.
    assert (H1 : NoDup (bucketKeys (dest st1)))
      by apply (importFrom_keys_NoDup env1 bucket basePath files 0 (init d0)
                  Hnd).
    split; [exact H1|]. now rewrite Hkeys. }
  split.
  { intros Hnd Hown.
    assert (H1 : NoDup (bucketKeys (dest st1)))
      by apply (importFrom_keys_NoDup env1 bucket basePath files 0 (init d0)
                  Hnd).
    assert (O1 : Forall (owns (products d0)) (media_buckets (dest st1)))
      by apply (importFrom_owns env1 bucket basePath (products d0) files 0
                  (init d0) eq_refl Hown).
    assert (O2 : Forall (owns (products d0)) (media_buckets (dest st2)))
      by apply (importFrom_owns env2 bucket basePath (products d0) files 0
                  (init (dest st1)) Hp1 O1).
    split.
    - exact (unique_labels (products d0) _ H1 O1).
    - apply (unique_labels (products d0)); [|exact O2].
      fold (bucketKeys (dest st2)). now rewrite Hkeys. }
  destruct (importFrom_assets env2 bucket basePath files 0 (init (dest st1)))
    as (added & E & L).
  exists added. split; [exact E|].
  pose proof (importFrom_assetsCreated_parity env1 env2 bucket basePath agree
                files 0 (init d0) (init (dest st1)) Hview) as Hpar.
  simpl in L, Hpar.
  change (importFrom env2 bucket basePath 0 files (init (dest st1)))
    with st2 in L, Hpar.
  change (importFrom env1 bucket basePath 0 files (init d0)) with st1 in Hpar.
  split; lia.
Qed.

Lemma rerun_keeps_buckets_and_repeats_assets_witness :
  NoDup (map sku_label (media_buckets ImportFixtures.afterFirstRun)) /\
  NoDup (map sku_label (media_buckets ImportFixtures.afterSecondRun)).
Proof.
  refine (proj1 (proj2 (proj2 (proj2
            (rerun_keeps_buckets_and_repeats_assets ImportFixtures.reliable
               ImportFixtures.nextDay ImportFixtures.storj EmptyString
               ImportFixtures.fiveFiles ImportFixtures.emptyDestination _))))
            _ _).
  - intros i. repeat split.
  - constructor.
  - constructor.
Defined.

(** The two runs over the five files, evaluated: two buckets after the
    first run and after the second, which keep the ids of the first run;
    four assets and then the same four again. *)
Example rerun_five_files :
  map bucket_id (media_buckets ImportFixtures.afterFirstRun)
    = ["bucket-0"; "bucket-1"] /\
  map bucket_id (media_buckets ImportFixtures.afterSecondRun)
    = ["bucket-0"; "bucket-1"] /\
  map sku_label (media_buckets ImportFixtures.afterSecondRun)
    = ["KS-100"; "KS-200"] /\
  map file_key (media_assets ImportFixtures.afterFirstRun)
    = ["KS-100/front.jpg"; "KS-100/back.jpg"; "KS-200/video/clip.mp4";
       "KS-200/manual.pdf"] /\
  map file_key (media_assets ImportFixtures.afterSecondRun)
    = ["KS-100/front.jpg"; "KS-100/back.jpg"; "KS-200/video/clip.mp4";
       "KS-200/manual.pdf";
       "KS-100/front.jpg"; "KS-100/back.jpg"; "KS-200/video/clip.mp4";
       "KS-200/manual.pdf"].
Proof. vm_compute. repeat split; reflexivity. Qed.

End ImportFacts.

(** * More about the client *)

Module ClientExtras.

Import Shopify ShopifyModule ShopifyFacts.
Local Open Scope list_scope.

Section Attempts.

Context {T : Type} {truthiness : Truthiness T}.
Variable server : nat -> Request -> FetchOutcome T.
Variable clock : nat -> Z.

Lemma classify_returned (out : FetchOutcome T) d :
  classify out = Returned d ->
  exists r, out = Json r /\ data r = Some d /\ truthyData d = true /\
            (errors r = None \/ errors r = Some []).
Proof.
  destruct out as [m|st txt|m|r]; try discriminate.
  unfold classify. intros H. exists r. split; [reflexivity|].
  destruct (errors r) as [[|e es]|].
  - destruct (data r) as [d'|]; [|discriminate].
    destruct (truthyData d') eqn:E; [|discriminate].
    injection H as ->. auto.
  - destruct (existsb isThrottled (e :: es)); discriminate.
  - destruct (data r) as [d'|]; [|discriminate].
    destruct (truthyData d') eqn:E; [|discriminate].
    injection H as ->. auto.
Qed.

Lemma backoffs_app evs1 evs2 :
  backoffs (evs1 ++ evs2) = backoffs evs1 ++ backoffs evs2.
Proof. unfold backoffs. apply omap_app. Qed.

Lemma totalMs_app l1 l2 : totalMs (l1 ++ l2) = (totalMs l1 + totalMs l2)%Z.
Proof.
  unfold totalMs. induction l1 as [|x l1 IH]; simpl; [reflexivity|].
  rewrite IH. lia.
Qed.

(** What a run of the loop adds to the session, whatever the server does. *)
Lemma attempts_footprint k : forall a R req le s,
  let run := attempts server clock k a R req le s in
  exists evs,
    trace (snd run) = trace s ++ evs /\
    fetches evs = replicate (sent (snd run) - sent s) req /\
    sent s <= sent (snd run) <= sent s + k /\
    (forall m, fst run = Throw m -> sent (snd run) = sent s + k) /\
    (forall d, fst run = Ok d ->
       sent s < sent (snd run) /\
       exists r, server (sent (snd run) - 1) req = Json r /\
                 data r = Some d /\ truthyData d = true /\
                 (errors r = None \/ errors r = Some [])).
Proof.
  induction k as [|k IH]; intros a R req le s run.
  - exists []. unfold run. simpl. rewrite app_nil_r, Nat.sub_diag.
    repeat split; try lia; discriminate.
  - unfold run.
    destruct (classify (server (sent s) req)) as [d| |m] eqn:E.
    + rewrite (attempts_returned _ _ _ _ _ _ _ _ _ E). simpl fst. simpl snd.
      rewrite observe_sent, observe_trace, countRequest_sent,
        countRequest_trace, record_sent, record_trace.
      exists [Fetch req].
      replace (S (sent s) - sent s) with 1 by lia.
      split; [reflexivity|]. split; [reflexivity|]. split; [lia|].
      split; [discriminate|].
      intros d' [= <-]. split; [lia|].
      replace (S (sent s) - 1) with (sent s) by lia.
      now apply classify_returned.
    + rewrite (attempts_continue _ _ _ _ _ _ _ _ E).
      set (s1 := record (ThrottledWait 2000) _).
      assert (Hs1 : sent s1 = S (sent s)).
      { unfold s1. now rewrite record_sent, observe_sent, countRequest_sent,
          record_sent. }
      assert (Ht1 : trace s1 = trace s ++ [Fetch req; ThrottledWait 2000]).
      { unfold s1. rewrite record_trace, observe_trace, countRequest_trace,
          record_trace. now rewrite <- app_assoc. }
      destruct (IH (a + 1)%Z R req le s1) as (evs & Ht & Hf & Hb & Hthrow & Hok).
      exists ([Fetch req; ThrottledWait 2000] ++ evs).
      rewrite Ht, Ht1, <- app_assoc. split; [reflexivity|].
      rewrite fetches_app, Hf, Hs1. simpl fetches.
      split.
      { replace (sent (snd (attempts server clock k (a + 1) R req le s1))
                 - sent s)
          with (S (sent (snd (attempts server clock k (a + 1) R req le s1))
                   - S (sent s))) by lia.
        reflexivity. }
      split; [lia|]. split.
      * intros m H. rewrite (Hthrow m H). lia.
      * intros d H. destruct (Hok d H) as [Hlt Hr]. split; [lia|exact Hr].
    + rewrite (attempts_thrown _ _ _ _ _ _ _ _ _ E).
      set (s1 := onCatch a R _).
      assert (Hs1 : sent s1 = S (sent s)).
      { unfold s1. now rewrite onCatch_sent, observe_sent, countRequest_sent,
          record_sent. }
      assert (Ht1 : trace s1 = trace s ++ Fetch req ::
                      (if (a <? R - 1)%Z then [Backoff (2 ^ a * 1000)]
                       else [])).
      { unfold s1. rewrite onCatch_trace, observe_trace, countRequest_trace,
          record_trace. now rewrite <- app_assoc. }
      destruct (IH (a + 1)%Z R req (Some m) s1)
        as (evs & Ht & Hf & Hb & Hthrow & Hok).
      exists ((Fetch req :: (if (a <? R - 1)%Z then [Backoff (2 ^ a * 1000)]
                             else [])) ++ evs).
      rewrite Ht, Ht1, <- app_assoc. split; [reflexivity|].
      rewrite fetches_app, Hf, Hs1.
      split.
      { replace (sent (snd (attempts server clock k (a + 1) R req (Some m) s1))
                 - sent s)
          with (S (sent (snd (attempts server clock k (a + 1) R req
                                 (Some m) s1))
                   - S (sent s))) by lia.
        destruct (a <? R - 1)%Z; reflexivity. }
      split; [lia|]. split.
      * intros m' H. rewrite (Hthrow m' H). lia.
      * intros d H. destruct (Hok d H) as [Hlt Hr]. split; [lia|exact Hr].
Qed.

End Attempts.

(** ** What a call of [query] can cost and what it hands back *)

(** X1.  Whatever the server answers, [query] sends the same request over
    and over and never more than [retries] times; when it throws it has
    sent it exactly [retries] times. *)
Theorem query_sends_at_most_retries
    {T} {truthiness : Truthiness T}
    (server : nat -> Request -> FetchOutcome T) (clock : nat -> Z)
    (q : string) (vars : option (gmap string Value))
    (options : option QueryOptions) (s : Session) :
  let req := {| req_query := q; req_variables := vars |} in
  let run := query server clock q vars options s in
  sent s <= sent (snd run) <= sent s + Z.to_nat (optRetries options) /\
  (forall m, fst run = Throw m ->
     sent (snd run) = sent s + Z.to_nat (optRetries options)) /\
  fetches (trace (snd run)) =
    fetches (trace s) ++ replicate (sent (snd run) - sent s) req.
Proof.
  intros req run. unfold run. rewrite query_unfold. fold req.
  destruct (attempts_footprint server clock (Z.to_nat (optRetries options)) 0
              (optRetries options) req None
              (rateLimitGate clock (optEstimatedCost options) s))
    as (evs & Ht & Hf & Hb & Hthrow & _).
  rewrite rateLimitGate_sent in Hf, Hb, Hthrow.
  split; [exact Hb|]. split; [exact Hthrow|].
  now rewrite Ht, fetches_app, rateLimitGate_fetches, Hf.
Qed.

(** X2.  When [query] returns, what it returns is the [data] of the last
    reply it received, a truthy value, and that reply had no error list or
    an empty one: data that comes with errors is never handed to the
    caller, and neither is data that is falsy. *)
Theorem query_returns_data_of_last_reply
    {T} {truthiness : Truthiness T}
    (server : nat -> Request -> FetchOutcome T) (clock : nat -> Z)
    (q : string) (vars : option (gmap string Value))
    (options : option QueryOptions) (s : Session) (d : T) :
  let req := {| req_query := q; req_variables := vars |} in
  let run := query server clock q vars options s in
  fst run = Ok d ->
  sent s < sent (snd run) /\
  exists r, server (sent (snd run) - 1) req = Json r /\
            data r = Some d /\ truthyData d = true /\
            (errors r = None \/ errors r = Some []).
Proof.
  intros req run. unfold run. rewrite query_unfold. fold req. intros H.
  destruct (attempts_footprint server clock (Z.to_nat (optRetries options)) 0
              (optRetries options) req None
              (rateLimitGate clock (optEstimatedCost options) s))
    as (_ & _ & _ & _ & _ & Hok).
  rewrite rateLimitGate_sent in Hok. exact (Hok d H).
Qed.

Lemma query_returns_data_of_last_reply_witness :
  exists r, Fixtures.failTwice 2 Fixtures.shopRequest = Json r /\
            data r = Some 42 /\ truthyData 42 = true /\
            (errors r = None \/ errors r = Some []).
Proof.
  exact (proj2 (query_returns_data_of_last_reply Fixtures.failTwice
                  Fixtures.clock0 Fixtures.shopQuery None None
                  Fixtures.freshSession 42 eq_refl)).
Defined.

(** Data that is there but falsy counts as no data: a reply whose [data]
    is the number 0 is retried like any failure, and [query] throws. *)
Example falsy_data_is_no_data :
  fst (query (fun _ _ => Fixtures.dataReply 0) Fixtures.clock0
         Fixtures.shopQuery None None Fixtures.freshSession)
  = Throw "No data in response"%string.
Proof. vm_compute. reflexivity. Qed.

Section Throttled.

Context {T : Type} {truthiness : Truthiness T}.
Variable server : nat -> Request -> FetchOutcome T.
Variable clock : nat -> Z.

Lemma attempts_throttled_from k : forall a R req le s,
  (forall i, i < k -> throttledReply (server (sent s + i) req)) ->
  exists s',
    attempts server clock k a R req le s =
      (Throw (default "Unknown error"%string le), s') /\
    sent s' = sent s + k /\
    trace s' = trace s ++ throttledRounds k req.
Proof.
  induction k as [|k IH]; intros a R req le s Hall.
  - exists s. simpl. rewrite app_nil_r. repeat split; lia.
  - pose proof (Hall 0 ltac:(lia)) as H0. rewrite Nat.add_0_r in H0.
    rewrite (attempts_continue _ _ _ _ _ _ _ _ (throttled_classify _ H0)).
    set (s1 := record (ThrottledWait 2000) _).
    assert (Hs1 : sent s1 = S (sent s)).
    { unfold s1. now rewrite record_sent, observe_sent, countRequest_sent,
        record_sent. }
    destruct (IH (a + 1)%Z R req le s1) as (s' & Hrun & Hsent & Htrace).
    { intros i Hi. rewrite Hs1.
      replace (S (sent s) + i) with (sent s + S i) by lia. apply Hall. lia. }
    exists s'. split; [exact Hrun|]. split; [lia|].
    rewrite Htrace. unfold s1.
    rewrite record_trace, observe_trace, countRequest_trace, record_trace.
    simpl. now rewrite <- !app_assoc.
Qed.

End Throttled.

(** X3.  An error outlives the throttling that follows it: when the first
    reply fails and every later one is a throttling error, [query] sends
    [retries] requests, backs off once for 1000 ms, waits 2000 ms after
    each throttled reply and then throws the error of the first attempt,
    not a throttling error and not 'Unknown error'. *)
Theorem error_outlives_throttling
    {T} {truthiness : Truthiness T}
    (server : nat -> Request -> FetchOutcome T) (clock : nat -> Z)
    (q : string) (vars : option (gmap string Value)) (cost : option Q)
    (R : Z) (s : Session) (m : string) :
  let req := {| req_query := q; req_variables := vars |} in
  let s0 := rateLimitGate clock (default 100%Q cost) s in
  (2 <= R)%Z ->
  classify (server (sent s) req) = Thrown m ->
  (forall n, sent s < n -> throttledReply (server n req)) ->
  exists s',
    query server clock q vars
      (Some {| estimatedCost := cost; retries := Some R |}) s = (Throw m, s') /\
    sent s' = sent s + Z.to_nat R /\
    trace s' = trace s0 ++ Fetch req :: Backoff 1000 ::
               throttledRounds (Z.to_nat R - 1) req.
Proof.
  intros req s0 HR H0 Hall.
  rewrite query_unfold. unfold optRetries, optEstimatedCost. simpl default.
  fold req. fold s0.
  assert (Hs0 : sent s0 = sent s) by apply rateLimitGate_sent.
  destruct (Z.to_nat R) as [|k] eqn:E; [lia|].
  rewrite <- Hs0 in H0.
  rewrite (attempts_thrown _ _ _ _ _ _ _ _ _ H0).
  set (s1 := onCatch 0 R _).
  assert (Hs1 : sent s1 = S (sent s)).
  { unfold s1. now rewrite onCatch_sent, observe_sent, countRequest_sent,
      record_sent, Hs0. }
  assert (Ht1 : trace s1 = trace s0 ++ [Fetch req; Backoff 1000]).
  { unfold s1. rewrite onCatch_trace, observe_trace, countRequest_trace,
      record_trace.
    replace (0 <? R - 1)%Z with true by (symmetry; apply Z.ltb_lt; lia).
    now rewrite <- app_assoc. }
  destruct (attempts_throttled_from server clock k (0 + 1)%Z R req (Some m) s1)
    as (s' & Hrun & Hsent & Htrace).
  { intros i Hi. apply Hall. lia. }
  exists s'. split; [exact Hrun|]. split; [lia|].
  rewrite Htrace, Ht1, <- app_assoc.
  replace (S k - 1) with k by lia. reflexivity.
Qed.

Lemma error_outlives_throttling_witness :
  exists s',
    query failThenThrottled Fixtures.clock0 Fixtures.shopQuery None
      (Some {| estimatedCost := None; retries := Some 3%Z |})
      Fixtures.freshSession
      = (Throw "HTTP 503: Service Unavailable", s') /\
    sent s' = 3 /\
    trace s' = [Fetch Fixtures.shopRequest; Backoff 1000;
                Fetch Fixtures.shopRequest; ThrottledWait 2000;
                Fetch Fixtures.shopRequest; ThrottledWait 2000].
Proof.
  refine (error_outlives_throttling failThenThrottled Fixtures.clock0
            Fixtures.shopQuery None None 3 Fixtures.freshSession
            "HTTP 503: Service Unavailable" _ eq_refl _).
  - lia.
  - intros n Hn. destruct n as [|n]; [simpl in Hn; lia|].
    exists {| data := None; errors := Some [Fixtures.throttledError];
              extensions := None |}, [Fixtures.throttledError].
    repeat split; reflexivity.
Defined.

Section Timers.

Context {T : Type} {truthiness : Truthiness T}.
Variable server : nat -> Request -> FetchOutcome T.
Variable clock : nat -> Z.

Lemma throttledWaits_app evs1 evs2 :
  throttledWaits (evs1 ++ evs2) = throttledWaits evs1 ++ throttledWaits evs2.
Proof. unfold throttledWaits. apply omap_app. Qed.

(** The timers of the attempts numbered [a], ..., [R - 1]. *)
Lemma attempts_timers k : forall a R req le s,
  (0 <= a)%Z -> (a + Z.of_nat k = R)%Z ->
  exists evs,
    trace (snd (attempts server clock k a R req le s)) = trace s ++ evs /\
    (0 <= totalMs (backoffs evs)
       <= Z.max 0 (2 ^ (R - 1) - 2 ^ a) * 1000)%Z /\
    (0 <= totalMs (throttledWaits evs) <= 2000 * Z.of_nat k)%Z.
Proof.
  induction k as [|k IH]; intros a R req le s Ha HR.
  - exists []. simpl. rewrite app_nil_r. split; [reflexivity|].
    unfold totalMs. simpl. lia.
  - assert (Hpow : (2 ^ (a + 1) = 2 * 2 ^ a)%Z)
      by (replace (a + 1)%Z with (Z.succ a) by lia; apply Z.pow_succ_r; lia).
    assert (Hpos : (0 < 2 ^ a)%Z) by (apply Z.pow_pos_nonneg; lia).
    assert (Hmono : (2 ^ (a + 1) <= 2 ^ (R - 1) \/ R - 1 < a + 1)%Z).
    { destruct (Z_lt_le_dec (R - 1) (a + 1)); [now right|left].
      apply Z.pow_le_mono_r; lia. }
    destruct (classify (server (sent s) req)) as [d| |m] eqn:E.
    + rewrite (attempts_returned _ _ _ _ _ _ _ _ _ E). simpl snd.
      exists [Fetch req].
      rewrite observe_trace, countRequest_trace, record_trace.
      split; [reflexivity|]. unfold totalMs. simpl. lia.
    + rewrite (attempts_continue _ _ _ _ _ _ _ _ E).
      destruct (IH (a + 1)%Z R req le
                  (record (ThrottledWait 2000)
                     (observe clock (server (sent s) req)
                        (countRequest (record (Fetch req) s))))
                  ltac:(lia) ltac:(lia)) as (evs & Ht & Hb & Hw).
      exists ([Fetch req; ThrottledWait 2000] ++ evs).
      rewrite Ht, record_trace, observe_trace, countRequest_trace,
        record_trace, <- !app_assoc.
      split; [reflexivity|].
      rewrite backoffs_app, throttledWaits_app, !totalMs_app.
      unfold totalMs at 1 3. simpl. lia.
    + rewrite (attempts_thrown _ _ _ _ _ _ _ _ _ E).
      destruct (IH (a + 1)%Z R req (Some m)
                  (onCatch a R
                     (observe clock (server (sent s) req)
                        (countRequest (record (Fetch req) s))))
                  ltac:(lia) ltac:(lia)) as (evs & Ht & Hb & Hw).
      exists ((Fetch req :: (if (a <? R - 1)%Z then [Backoff (2 ^ a * 1000)]
                             else [])) ++ evs).
      rewrite Ht, onCatch_trace, observe_trace, countRequest_trace,
        record_trace, <- !app_assoc.
      split; [reflexivity|].
      rewrite backoffs_app, throttledWaits_app, !totalMs_app.
      destruct (a <? R - 1)%Z eqn:L.
      * apply Z.ltb_lt in L. unfold totalMs at 1 3. simpl.
        destruct Hmono as [Hm|Hm]; lia.
      * apply Z.ltb_ge in L. unfold totalMs at 1 3. simpl. lia.
Qed.

Lemma no_reports_no_change req h st :
  (forall n, reportsThrottle (server n req) = false) ->
  Forall (fromReply server req) h ->
  observeAll h st = st.
Proof.
  intros Hnone Hall. rewrite observeAll_latest.
  assert (Hl : latestReport h = None).
  { induction Hall as [|o rest Ho Hrest IH]; [reflexivity|].
    simpl. rewrite IH.
    destruct Ho as (n & r & Hr & He). specialize (Hnone n).
    unfold reportsThrottle in Hnone. rewrite Hr in Hnone. rewrite He.
    destruct (reportedThrottle (extensions r)); [discriminate|reflexivity]. }
  now rewrite Hl.
Qed.

End Timers.

(** X4.  The timers [query] sets inside its loop are bounded whatever the
    server does: the backoffs add up to at most [(2^(retries-1) - 1)]
    seconds (3 s with the default of three attempts) and the waits after
    throttling errors to at most 2 s per attempt. *)
Theorem query_timers_are_bounded
    {T} {truthiness : Truthiness T}
    (server : nat -> Request -> FetchOutcome T) (clock : nat -> Z)
    (q : string) (vars : option (gmap string Value))
    (options : option QueryOptions) (s : Session) :
  let R := optRetries options in
  exists evs,
    trace (snd (query server clock q vars options s))
      = trace (rateLimitGate clock (optEstimatedCost options) s) ++ evs /\
    (0 <= totalMs (backoffs evs) <= Z.max 0 (2 ^ (R - 1) - 1) * 1000)%Z /\
    (0 <= totalMs (throttledWaits evs) <= 2000 * Z.max 0 R)%Z.
Proof.
  intros R. rewrite query_unfold. fold R.
  destruct (Z_le_gt_dec R 0) as [Hle|Hgt].
  - replace (Z.to_nat R) with 0 by lia. exists []. simpl.
    rewrite app_nil_r. split; [reflexivity|]. unfold totalMs. simpl.
    split; [|lia]. split; [lia|]. apply Z.mul_nonneg_nonneg; lia.
  - destruct (attempts_timers server clock (Z.to_nat R) 0 R
                {| req_query := q; req_variables := vars |} None
                (rateLimitGate clock (optEstimatedCost options) s)
                ltac:(lia) ltac:(lia)) as (evs & Ht & Hb & Hw).
    exists evs. split; [exact Ht|]. split; [exact Hb|]. lia.
Qed.

(** X5.  The client never debits its budget itself: as long as no reply
    reports a throttle status, a call of [query] leaves [rateLimitState]
    exactly as it found it, however many requests it sent. *)
Theorem query_does_not_debit_the_budget
    {T} {truthiness : Truthiness T}
    (server : nat -> Request -> FetchOutcome T) (clock : nat -> Z)
    (q : string) (vars : option (gmap string Value))
    (options : option QueryOptions) (s : Session) :
  (forall n, reportsThrottle
               (server n {| req_query := q; req_variables := vars |}) = false) ->
  rateLimitState (snd (query server clock q vars options s))
    = rateLimitState s.
Proof.
  intros Hnone. rewrite query_unfold.
  destruct (attempts_rate server clock (Z.to_nat (optRetries options)) 0
              (optRetries options) {| req_query := q; req_variables := vars |}
              None (rateLimitGate clock (optEstimatedCost options) s))
    as (h & Hh & E).
  rewrite E, rateLimitGate_rate.
  exact (no_reports_no_change server _ h _ Hnone Hh).
Qed.

Lemma query_does_not_debit_the_budget_witness :
  rateLimitState (snd (query Fixtures.failTwice Fixtures.clock0
                         Fixtures.shopQuery None None Fixtures.freshSession))
  = initialRateLimit 0.
Proof.
  apply (query_does_not_debit_the_budget Fixtures.failTwice Fixtures.clock0
           Fixtures.shopQuery None None Fixtures.freshSession).
  intros n. destruct n as [|[|n]]; reflexivity.
Defined.

(** ** More about the rate limiter *)

Section Gate.

Local Open Scope Q_scope.

Lemma elapsed_nonneg st (now : Z) :
  (rl_lastUpdate st <= now)%Z -> 0 <= elapsed st now.
Proof.
  intros H. unfold elapsed, Qdiv.
  apply Qmult_le_0_compat; [|discriminate].
  change 0 with (inject_Z 0). rewrite <- Zle_Qle. lia.
Qed.

(** X6.  A request whose cost is within the last known budget and not
    above 1000 goes out without a rate-limit wait, at any time that is not
    before the last observation; in particular a freshly built client lets
    its first request of cost up to 1000 through at once. *)
Theorem known_budget_passes
    (st : RateLimitState) (cost : Q) (now : Z) :
  0 <= rl_restoreRate st ->
  (rl_lastUpdate st <= now)%Z ->
  cost <= 1000 -> cost <= rl_available st ->
  waitForRateLimit cost now st = None /\
  forall t0, (t0 <= now)%Z ->
             waitForRateLimit cost now (initialRateLimit t0) = None.
Proof.
  intros Hr Hnow Hcap Hav.
  assert (Hgen : forall st', 0 <= rl_restoreRate st' ->
                   (rl_lastUpdate st' <= now)%Z -> cost <= rl_available st' ->
                   waitForRateLimit cost now st' = None).
  { intros st' Hr' Hnow' Hav'. apply waitForRateLimit_passes.
    unfold estimated. apply Q.min_glb; [exact Hcap|].
    unfold restored. pose proof (elapsed_nonneg st' now Hnow'). nra. }
  split; [now apply Hgen|].
  intros t0 Ht0. apply Hgen; simpl; [discriminate|exact Ht0|exact Hcap].
Qed.

Lemma known_budget_passes_witness :
  waitForRateLimit 100 5000 (initialRateLimit 0) = None.
Proof.
  refine (proj1 (known_budget_passes (initialRateLimit 0) 100 5000 _ _ _ _));
    simpl; discriminate.
Defined.

(** X8.  A cost above 1000 is never covered: whatever the state and the
    time, the estimate stays below it and the call sets a timer, so a
    request announced with such a cost is delayed every single time. *)
Theorem cost_above_the_cap_always_waits
    (st : RateLimitState) (cost : Q) (now : Z) :
  1000 < cost ->
  estimated st now < cost /\
  exists d, waitForRateLimit cost now st = Some d.
Proof.
  intros H.
  assert (Hest : estimated st now < cost)
    by (apply Qle_lt_trans with 1000; [apply estimated_le_cap|exact H]).
  split; [exact Hest|].
  unfold waitForRateLimit. rewrite (proj2 (Qltb_lt _ _) Hest). eauto.
Qed.

Lemma cost_above_the_cap_always_waits_witness :
  exists d, waitForRateLimit 1001 86400000 (initialRateLimit 0) = Some d.
Proof.
  exact (proj2 (cost_above_the_cap_always_waits (initialRateLimit 0) 1001
                  86400000 eq_refl)).
Defined.

End Gate.

(** ** The module-level client *)

(** X9.  [getShopifyClient] builds the client once.  After a call that
    succeeded, every later call hands back that same client, with the
    credentials and the rate-limit state it has, whatever the environment
    says by then; a call that finds a credential missing throws and leaves
    no client behind, so that a later call with both credentials set still
    builds one. *)
Theorem getShopifyClient_builds_once
    (env env' : ProcessEnv) (now now' : Z) (client : option ShopifyClient) :
  (forall c client1,
     getShopifyClient env now client = (Ok c, client1) ->
     client1 = Some c /\
     getShopifyClient env' now' client1 = (Ok c, client1)) /\
  (forall m client1,
     getShopifyClient env now client = (Throw m, client1) ->
     client = None /\ client1 = None /\
     (present (SHOPIFY_STORE_DOMAIN env') = true ->
      present (SHOPIFY_ACCESS_TOKEN env') = true ->
      exists c, getShopifyClient env' now' client1 = (Ok c, Some c) /\
                Some (storeDomain (config c)) = SHOPIFY_STORE_DOMAIN env' /\
                Some (accessToken (config c)) = SHOPIFY_ACCESS_TOKEN env' /\
                rateLimit c = initialRateLimit now')).
Proof.
  split.
  - intros c client1 H. unfold getShopifyClient in H.
    destruct client as [c0|].
    + injection H as <- <-. now split.
    + destruct (present (SHOPIFY_STORE_DOMAIN env)
                && present (SHOPIFY_ACCESS_TOKEN env)); [|discriminate].
      injection H as <- <-. now split.
  - intros m client1 H. unfold getShopifyClient in H.
    destruct client as [c0|]; [discriminate|].
    destruct (present (SHOPIFY_STORE_DOMAIN env)
              && present (SHOPIFY_ACCESS_TOKEN env)); [discriminate|].
    injection H as _ <-. split; [reflexivity|]. split; [reflexivity|].
    intros Hd Ht. unfold getShopifyClient. rewrite Hd, Ht. simpl.
    eexists. split; [reflexivity|]. simpl.
    destruct (SHOPIFY_STORE_DOMAIN env') as [dom|]; [|discriminate].
    destruct (SHOPIFY_ACCESS_TOKEN env') as [tok|]; [|discriminate].
    now repeat split.
Qed.

Lemma getShopifyClient_builds_once_witness :
  let c := {| config := {| storeDomain := "kinkstore.myshopify.com";
                           accessToken := "shpat_1" |};
              rateLimit := initialRateLimit 10 |} in
  getShopifyClient {| SHOPIFY_STORE_DOMAIN := None;
                      SHOPIFY_ACCESS_TOKEN := None |} 99 (Some c)
  = (Ok c, Some c).
Proof.
  intros c.
  refine (proj2 (proj1 (getShopifyClient_builds_once
                          {| SHOPIFY_STORE_DOMAIN :=
                               Some "kinkstore.myshopify.com"%string;
                             SHOPIFY_ACCESS_TOKEN := Some "shpat_1"%string |}
                          {| SHOPIFY_STORE_DOMAIN := None;
                             SHOPIFY_ACCESS_TOKEN := None |}
                          10 99 None) c (Some c) eq_refl)).
Defined.

(** ** More about [paginate] *)

Section Walks.

Context {T N : Type} {truthiness : Truthiness T}.
Variable server : nat -> Request -> FetchOutcome T.
Variable clock : nat -> Z.
Variable q : string.
Variable variables : gmap string Value.
Variable getPageInfo : T -> PageInfo.
Variable getNodes : T -> list N.
Variable size : Q.

Lemma query_default_footprint vars s :
  let req := {| req_query := q; req_variables := vars |} in
  let run := query server clock q vars None s in
  fetches (trace (snd run))
    = fetches (trace s) ++ replicate (sent (snd run) - sent s) req /\
  sent s <= sent (snd run) <= sent s + 3.
Proof.
  intros req run. unfold run. rewrite query_unfold. fold req.
  change (Z.to_nat (optRetries None)) with 3.
  destruct (attempts_footprint server clock 3 0 (optRetries None) req None
              (rateLimitGate clock (optEstimatedCost None) s))
    as (evs & Ht & Hf & Hb & _).
  rewrite rateLimitGate_sent in Hf, Hb.
  split; [|exact Hb].
  now rewrite Ht, fetches_app, rateLimitGate_fetches, Hf.
Qed.

Lemma yielded_nonempty (nodes : list N) : Forall (fun ys => ys <> []) (yielded nodes).
Proof.
  destruct nodes as [|x xs]; simpl; [constructor|].
  constructor; [discriminate|constructor].
Qed.

(** Everything a drained [paginate] has done, whatever the server does. *)
Lemma paginateLoop_footprint rounds : forall cursor more s,
  let run := paginateLoop server clock q variables getPageInfo getNodes size
               rounds cursor more s in
  exists reqs,
    fetches (trace (snd run)) = fetches (trace s) ++ reqs /\
    Forall (fun r => exists c, r = pageRequest q variables size c) reqs /\
    sent s <= sent (snd run) <= sent s + 3 * rounds /\
    Forall (fun ys => ys <> []) (fst (fst run)).
Proof.
  induction rounds as [|rounds IH]; intros cursor more s run.
  - exists []. unfold run. destruct more; simpl; rewrite app_nil_r;
      repeat split; try lia; constructor.
  - unfold run. cbn [paginateLoop]. destruct more.
    2:{ exists []. simpl. rewrite app_nil_r.
        repeat split; try lia; constructor. }
    destruct (query_default_footprint
                (Some (pageVariables variables size cursor)) s) as [Hf Hb].
    destruct (query server clock q
                (Some (pageVariables variables size cursor)) None s)
      as [[d|m] s1] eqn:Eq; simpl in Hf, Hb.
    + destruct (IH (endCursor (getPageInfo d)) (hasNextPage (getPageInfo d)) s1)
        as (reqs & Hf' & Hall & Hb' & Hy).
      destruct (paginateLoop server clock q variables getPageInfo getNodes
                  size rounds (endCursor (getPageInfo d))
                  (hasNextPage (getPageInfo d)) s1) as [[ys e] s2].
      simpl in *.
      exists (replicate (sent s1 - sent s)
                (pageRequest q variables size cursor) ++ reqs).
      split; [now rewrite Hf', Hf, <- app_assoc|].
      split.
      { apply Forall_app. split; [|exact Hall].
        apply Forall_replicate. now exists cursor. }
      split; [lia|].
      apply Forall_app. split; [apply yielded_nonempty|exact Hy].
    + simpl.
      exists (replicate (sent s1 - sent s)
                (pageRequest q variables size cursor)).
      split; [exact Hf|]. split.
      { apply Forall_replicate. now exists cursor. }
      split; [lia|constructor].
Qed.

(** Against a server that always has another page, the loop only stops
    when the consumer does. *)
Lemma paginateLoop_endless rounds : forall cursor s,
  (forall n req, exists d, classify (server n req) = Returned d /\
                           hasNextPage (getPageInfo d) = true) ->
  let run := paginateLoop server clock q variables getPageInfo getNodes size
               rounds cursor true s in
  snd (fst run) = Suspended /\ sent (snd run) = sent s + rounds.
Proof.
  induction rounds as [|rounds IH]; intros cursor s Hall run.
  - unfold run. simpl. split; [reflexivity|lia].
  - unfold run. cbn [paginateLoop].
    destruct (Hall (sent s) (pageRequest q variables size cursor))
      as (d & Hd & Hmore).
    destruct (query_first_try server clock q
                (Some (pageVariables variables size cursor)) s d Hd)
      as (s1 & Hq & Hsent & _).
    rewrite Hq, Hmore.
    destruct (IH (endCursor (getPageInfo d)) s1 Hall) as [He Hs].
    destruct (paginateLoop server clock q variables getPageInfo getNodes size
                rounds (endCursor (getPageInfo d)) true s1) as [[ys e] s2].
    simpl in *. split; [exact He|lia].
Qed.

End Walks.

(** X10.  Whatever the server does and however long the consumer pulls,
    [paginate] never yields an empty array, and it sends at most three
    requests for each page it asks for (the default attempts of [query]). *)
Theorem paginate_never_yields_empty
    {T N} {truthiness : Truthiness T}
    (server : nat -> Request -> FetchOutcome T) (clock : nat -> Z)
    (q : string) (variables : gmap string Value)
    (getPageInfo : T -> PageInfo) (getNodes : T -> list N)
    (options : option PaginateOptions) (rounds : nat) (s : Session) :
  let run := paginate server clock q variables getPageInfo getNodes options
               rounds s in
  Forall (fun ys => ys <> []) (fst (fst run)) /\
  sent s <= sent (snd run) <= sent s + 3 * rounds.
Proof.
  intros run.
  destruct (paginateLoop_footprint server clock q variables getPageInfo
              getNodes (default 50%Q (options ≫= pageSize)) rounds None true s)
    as (reqs & _ & _ & Hb & Hy).
  split; [exact Hy|exact Hb].
Qed.

(** X11.  Every request [paginate] sends carries the caller's query and the
    caller's variables, except that [first] is the page size and [after] is
    a cursor (or null): a [first] or [after] the caller put in is
    overridden, every other variable is passed on as it is. *)
Theorem paginate_requests_keep_the_variables
    {T N} {truthiness : Truthiness T}
    (server : nat -> Request -> FetchOutcome T) (clock : nat -> Z)
    (q : string) (variables : gmap string Value)
    (getPageInfo : T -> PageInfo) (getNodes : T -> list N)
    (options : option PaginateOptions) (rounds : nat) (s : Session) :
  let size := default 50%Q (options ≫= pageSize) in
  let run := paginate server clock q variables getPageInfo getNodes options
               rounds s in
  exists reqs,
    fetches (trace (snd run)) = fetches (trace s) ++ reqs /\
    Forall (fun r =>
              req_query r = q /\
              exists vs,
                req_variables r = Some vs /\
                vs !! "first"%string = Some (VNum size) /\
                (exists c, vs !! "after"%string = Some (cursorValue c)) /\
                forall k, k <> "first"%string -> k <> "after"%string ->
                          vs !! k = variables !! k) reqs.
Proof.
  intros size run.
  destruct (paginateLoop_footprint server clock q variables getPageInfo
              getNodes size rounds None true s)
    as (reqs & Hf & Hall & _ & _).
  exists reqs. split; [exact Hf|].
  eapply Forall_impl; [exact Hall|].
  intros r (c & ->). split; [reflexivity|].
  exists (pageVariables variables size c). split; [reflexivity|].
  unfold pageVariables. split; [|split].
  - rewrite lookup_insert_ne by discriminate. apply lookup_insert_eq.
  - exists c. apply lookup_insert_eq.
  - intros k Hk1 Hk2.
    rewrite lookup_insert_ne by congruence.
    now rewrite lookup_insert_ne by congruence.
Qed.

(** X12.  [paginate] has no bound of its own: against a server whose every
    page says [hasNextPage = true] it sends one request after the other for
    as long as the consumer pulls and never finishes, even when the cursor
    it is given never changes. *)
Theorem paginate_never_finishes_by_itself
    {T N} {truthiness : Truthiness T}
    (server : nat -> Request -> FetchOutcome T) (clock : nat -> Z)
    (q : string) (variables : gmap string Value)
    (getPageInfo : T -> PageInfo) (getNodes : T -> list N)
    (options : option PaginateOptions) (rounds : nat) (s : Session) :
  (forall n req, exists d, classify (server n req) = Returned d /\
                           hasNextPage (getPageInfo d) = true) ->
  let run := paginate server clock q variables getPageInfo getNodes options
               rounds s in
  snd (fst run) = Suspended /\ sent (snd run) = sent s + rounds.
Proof.
  intros Hall run.
  exact (paginateLoop_endless server clock q variables getPageInfo getNodes
           (default 50%Q (options ≫= pageSize)) rounds None s Hall).
Qed.

Lemma paginate_never_finishes_by_itself_witness :
  let run := paginate endless Fixtures.clock0 Fixtures.productsQuery
               Fixtures.productsVariables Fixtures.pageInfo Fixtures.nodes
               None 25 Fixtures.freshSession in
  snd (fst run) = Suspended /\ sent (snd run) = 25.
Proof.
  apply (paginate_never_finishes_by_itself endless Fixtures.clock0
           Fixtures.productsQuery Fixtures.productsVariables
           Fixtures.pageInfo Fixtures.nodes None 25 Fixtures.freshSession).
  intros n req. exists endlessPage. split; reflexivity.
Defined.

End ClientExtras.

(** * More about the import route *)

Module ImportExtras.

Import GDriveImport GDriveRoute ImportFacts.
Local Open Scope list_scope.

(** ** Prefixes *)

Lemma stripLeadingSlashes_head s :
  startsWithSlash (stripLeadingSlashes s) = false.
Proof.
  induction s as [|c rest IH]; [reflexivity|].
  simpl. destruct (Ascii.eqb c "/") eqn:E; [exact IH|].
  simpl. exact E.
Qed.

Lemma stripLeadingSlashes_clean s :
  startsWithSlash s = false -> stripLeadingSlashes s = s.
Proof. destruct s as [|c rest]; simpl; [reflexivity|]. now intros ->. Qed.

Lemma stripTrailingSlashes_last s :
  endsWithSlash (stripTrailingSlashes s) = false.
Proof.
  induction s as [|c rest IH]; [reflexivity|].
  simpl. destruct (stripTrailingSlashes rest) as [|c' rest'].
  - destruct (Ascii.eqb c "/") eqn:E; [reflexivity|]. simpl. exact E.
  - exact IH.
Qed.

Lemma stripTrailingSlashes_clean s :
  endsWithSlash s = false -> stripTrailingSlashes s = s.
Proof.
  induction s as [|c rest IH]; [reflexivity|].
  intros H. simpl. destruct rest as [|c' rest'].
  - simpl in *. now rewrite H.
  - rewrite (IH H). reflexivity.
Qed.

Lemma stripTrailingSlashes_head s :
  startsWithSlash s = false ->
  startsWithSlash (stripTrailingSlashes s) = false.
Proof.
  destruct s as [|c rest]; [reflexivity|].
  simpl. intros H. destruct (stripTrailingSlashes rest); rewrite ?H; simpl;
    exact H.
Qed.

Lemma cleanPrefix_shape p :
  startsWithSlash (cleanPrefix p) = false /\
  endsWithSlash (cleanPrefix p) = false.
Proof.
  destruct p as [s|]; [|now split]. unfold cleanPrefix.
  destruct (negb (truthy s)); [now split|]. split.
  - apply stripTrailingSlashes_head, stripLeadingSlashes_head.
  - apply stripTrailingSlashes_last.
Qed.

Lemma cleanPrefix_clean s :
  startsWithSlash s = false -> endsWithSlash s = false ->
  cleanPrefix (Some s) = s.
Proof.
  intros H1 H2. unfold cleanPrefix.
  destruct s as [|c rest]; [reflexivity|]. simpl negb. cbv iota.
  rewrite (stripLeadingSlashes_clean _ H1).
  now apply stripTrailingSlashes_clean.
Qed.

(** X13.  [cleanPrefix] returns a prefix that neither starts nor ends with
    a slash; cleaning it again changes nothing, and a prefix that has no
    slash at either end comes back as it is, slashes inside included. *)
Theorem cleanPrefix_strips_both_ends (p : option string) :
  startsWithSlash (cleanPrefix p) = false /\
  endsWithSlash (cleanPrefix p) = false /\
  cleanPrefix (Some (cleanPrefix p)) = cleanPrefix p /\
  (forall s, startsWithSlash s = false -> endsWithSlash s = false ->
             cleanPrefix (Some s) = s).
Proof.
  destruct (cleanPrefix_shape p) as [H1 H2].
  split; [exact H1|]. split; [exact H2|].
  split; [now apply cleanPrefix_clean|apply cleanPrefix_clean].
Qed.

Lemma cleanPrefix_strips_both_ends_witness :
  cleanPrefix (Some "imports/2024") = "imports/2024"%string /\
  cleanPrefix (Some "//imports/2024///") = "imports/2024"%string.
Proof.
  split; [|reflexivity].
  exact (proj2 (proj2 (proj2 (cleanPrefix_strips_both_ends None)))
           "imports/2024"%string eq_refl eq_refl).
Defined.

(** ** Paths *)

Lemma split_nonempty s : split "/" s <> [].
Proof.
  destruct s as [|c rest]; simpl; [discriminate|].
  destruct (Ascii.eqb c "/"); [discriminate|].
  destruct (split "/" rest); discriminate.
Qed.

Lemma concat_cons_char sep c seg segs :
  String.concat sep (String c seg :: segs)
  = String c (String.concat sep (seg :: segs)).
Proof. destruct segs; reflexivity. Qed.

Lemma concat_split s : String.concat "/" (split "/" s) = s.
Proof.
  induction s as [|c rest IH]; [reflexivity|].
  simpl. destruct (Ascii.eqb c "/") eqn:E.
  - apply Ascii.eqb_eq in E. subst c.
    destruct (split "/" rest) as [|seg segs] eqn:S.
    + now destruct (split_nonempty rest).
    + simpl in *. now rewrite IH.
  - destruct (split "/" rest) as [|seg segs] eqn:S.
    + now destruct (split_nonempty rest).
    + rewrite concat_cons_char. now rewrite IH.
Qed.

Lemma split_slash_free s : hasSlash s = false -> split "/" s = [s].
Proof.
  induction s as [|c rest IH]; [reflexivity|].
  simpl. intros H. apply orb_false_iff in H as [Hc Hrest].
  rewrite Hc, (IH Hrest). reflexivity.
Qed.

Lemma split_app a b :
  split "/" (a ++ String "/" b) = split "/" a ++ split "/" b.
Proof.
  induction a as [|c a IH]; [reflexivity|].
  simpl. rewrite IH. destruct (Ascii.eqb c "/"); [reflexivity|].
  destruct (split "/" a) as [|seg segs] eqn:S.
  - now destruct (split_nonempty a).
  - reflexivity.
Qed.

(** X15.  How the route reads a path: the label is the text before the
    first slash, the folder is the path without its last segment, and
    splitting at the slashes and joining again gives the path back.  A path
    without any slash is its own label and has the empty folder, so a file
    that sits outside every folder is filed under its own name. *)
Theorem path_is_read_by_segments (s : string) :
  String.concat "/" (split "/" s) = s /\
  (forall label rest,
     s = (label ++ String "/" rest)%string -> hasSlash label = false ->
     skuLabelOf s = label) /\
  (forall folder name,
     s = (folder ++ String "/" name)%string -> hasSlash name = false ->
     folderOf s = folder) /\
  (hasSlash s = false -> skuLabelOf s = s /\ folderOf s = EmptyString).
Proof.
  split; [apply concat_split|]. split; [|split].
  - intros label rest -> H. unfold skuLabelOf.
    rewrite split_app, (split_slash_free _ H). reflexivity.
  - intros folder name -> H. unfold folderOf.
    rewrite split_app, (split_slash_free _ H), removelast_last.
    apply concat_split.
  - intros H. unfold skuLabelOf, folderOf.
    rewrite (split_slash_free _ H). now split.
Qed.

Lemma path_is_read_by_segments_witness :
  skuLabelOf "KS-200/video/clip.mp4" = "KS-200"%string /\
  folderOf "KS-200/video/clip.mp4" = "KS-200/video"%string.
Proof.
  split.
  - exact (proj1 (proj2 (path_is_read_by_segments "KS-200/video/clip.mp4"))
             "KS-200"%string "video/clip.mp4"%string eq_refl eq_refl).
  - exact (proj1 (proj2 (proj2
             (path_is_read_by_segments "KS-200/video/clip.mp4")))
             "KS-200/video"%string "clip.mp4"%string eq_refl eq_refl).
Defined.

Lemma label_missing path :
  truthy (skuLabelOf path) = false <->
  path = EmptyString \/ startsWithSlash path = true.
Proof.
  unfold skuLabelOf. destruct path as [|c rest]; simpl.
  - split; [now left|reflexivity].
  - destruct (Ascii.eqb c "/") eqn:E; simpl.
    + split; [now right|reflexivity].
    + destruct (split "/" rest); simpl; split; try discriminate;
        intros [H|H]; discriminate.
Qed.

(** ** The guards of [POST] *)



(** ** What a run stores and what it records *)

Section Stored.

Variable env : Collaborators.
Variable bucket basePath : string.

Lemma processFile_storage i file st :
  let st' := processFile env bucket basePath i file st in
  exists stored added,
    objects (dest st') = objects (dest st) ++ stored /\
    media_assets (dest st') = media_assets (dest st) ++ added /\
    uploaded (results st') = uploaded (results st) + length stored /\
    assetsCreated (results st') = assetsCreated (results st) + length added /\
    map (fun a => (file_key a, file_size a)) added
      `sublist_of`
    map (fun o => (object_key o, length (object_body o))) stored.
Proof.
  unfold processFile, tryFile, resolveBucket.
  branches; simpl;
    first [ solve [ exists [], []; rewrite !app_nil_r;
                    repeat split; simpl; try lia; constructor ]
          | solve [ eexists [_], []; rewrite !app_nil_r;
                    repeat split; simpl; try lia; repeat constructor ]
          | solve [ eexists [_], [_];
                    repeat split; simpl; try lia; repeat constructor ] ].
Qed.

Lemma importFrom_storage files : forall i st,
  let st' := importFrom env bucket basePath i files st in
  exists stored added,
    objects (dest st') = objects (dest st) ++ stored /\
    media_assets (dest st') = media_assets (dest st) ++ added /\
    uploaded (results st') = uploaded (results st) + length stored /\
    assetsCreated (results st') = assetsCreated (results st) + length added /\
    map (fun a => (file_key a, file_size a)) added
      `sublist_of`
    map (fun o => (object_key o, length (object_body o))) stored.
Proof.
  induction files as [|file rest IH]; intros i st; simpl.
  - exists [], []. rewrite !app_nil_r. repeat split; simpl; try lia.
    constructor.
  - destruct (processFile_storage i file st)
      as (s1 & a1 & O1 & A1 & U1 & C1 & S1).
    destruct (IH (S i) (processFile env bucket basePath i file st))
      as (s2 & a2 & O2 & A2 & U2 & C2 & S2).
    exists (s1 ++ s2), (a1 ++ a2). simpl in *.
    rewrite O2, O1, A2, A1, U2, U1, C2, C1, !length_app, !map_app,
      <- !app_assoc.
    repeat split; try lia. now apply sublist_app.
Qed.

End Stored.

(** X16.  A run only ever adds to the object storage and to
    [media_assets].  [uploaded] is the number of objects it stored and
    [assetsCreated] the number of rows it inserted; every row inserted
    records, in order, the key and the size of an object stored by the same
    run, so no asset of the run points at an object that was not
    uploaded. *)
Theorem assets_record_stored_objects
    (env : Collaborators) (bucket basePath : string)
    (files : list RemoteFile) (d : Destination) :
  let st := importFiles env bucket basePath files d in
  exists stored added,
    objects (dest st) = objects d ++ stored /\
    media_assets (dest st) = media_assets d ++ added /\
    length stored = uploaded (results st) /\
    length added = assetsCreated (results st) /\
    map (fun a => (file_key a, file_size a)) added
      `sublist_of`
    map (fun o => (object_key o, length (object_body o))) stored.
Proof.
  intros st.
  destruct (importFrom_storage env bucket basePath files 0 (freshLoop files d))
    as (stored & added & O & A & U & C & S).
  exists stored, added. simpl in *. repeat split; try assumption.
  - symmetry. exact U.
  - symmetry. exact C.
Qed.

(** ** Assets and their buckets *)

Lemma upsertByProduct_ids row table :
  (forall id, id ∈ map bucket_id table ->
              id ∈ map bucket_id (fst (upsertByProduct row table))) /\
  bucket_id (snd (upsertByProduct row table))
    ∈ map bucket_id (fst (upsertByProduct row table)).
Proof.
  induction table as [|r rest [IH1 IH2]]; simpl.
  - split; [intros id H; inversion H|left].
  - destruct (String.eqb (product_id r) (product_id row)).
    + simpl. split; [tauto|left].
    + destruct (upsertByProduct row rest) as [rest' out]. simpl in *. split.
      * intros id [->|H]%elem_of_cons; [left|right; auto].
      * right. exact IH2.
Qed.

Lemma anchored_grows env n n' d d' id :
  n <= n' ->
  (forall x, x ∈ bucketIds d -> x ∈ bucketIds d') ->
  anchored env n d id -> anchored env n' d' id.
Proof.
  intros Hn Hd. destruct id as [x|]; simpl.
  - apply Hd.
  - intros (j & Hj & E). exists j. split; [lia|exact E].
Qed.

Section Buckets.

Variable env : Collaborators.
Variable bucket basePath : string.

Lemma resolveBucket_ids i file sku st :
  (forall s info, bucketCache st !! s = Some info ->
                  anchored env i (dest st) (info_id info)) ->
  let r := resolveBucket env basePath i file sku st in
  (forall s info, bucketCache (snd r) !! s = Some info ->
                  anchored env (S i) (dest (snd r)) (info_id info)) /\
  (forall id, id ∈ bucketIds (dest st) -> id ∈ bucketIds (dest (snd r))) /\
  (forall info, fst r = Bucket info ->
                anchored env (S i) (dest (snd r)) (info_id info)) /\
  media_assets (dest (snd r)) = media_assets (dest st).
Proof.
  intros J.
  assert (J' : forall d',
            (forall x, x ∈ bucketIds (dest st) -> x ∈ bucketIds d') ->
               forall s info, bucketCache st !! s = Some info ->
                              anchored env (S i) d' (info_id info)).
  { intros d' Hd s info H.
    apply (anchored_grows env i (S i) (dest st) d'); [lia|exact Hd|].
    now apply (J s). }
  unfold resolveBucket.
  destruct (bucketCache st !! sku) as [info|] eqn:E.
  { cbn [fst snd]. split; [apply J'; auto|]. split; [auto|].
    split; [|reflexivity]. intros info' [= <-]. apply (J' _ (fun x H => H) sku).
    exact E. }
  destruct (singleProduct sku (products (dest st))) as [p|].
  2:{ cbn [fst snd withResults dest bucketCache].
      split; [apply J'; auto|]. split; [auto|]. split; [discriminate|].
      reflexivity. }
  destruct (negb (truthy (product_row_id p))).
  { cbn [fst snd withResults dest bucketCache].
    split; [apply J'; auto|]. split; [auto|]. split; [discriminate|].
    reflexivity. }
  pose proof (upsertByProduct_ids
                (bucketRow env basePath i file sku p (dest st))
                (media_buckets (dest st))) as [U1 U2].
  destruct (upsertByProduct _ _) as [rows mb]. cbn [fst snd] in U1, U2.
  assert (U1' : forall x, x ∈ bucketIds (dest st) ->
                          x ∈ bucketIds (setBuckets rows (dest st)))
    by exact U1.
  destruct (upsertAnswer env i) eqn:Ans;
    cbn [fst snd cacheSet withResults withDest dest bucketCache].
  - split; [|split; [exact U1'|split; [|reflexivity]]].
    + intros s info'. destruct (decide (sku = s)) as [<-|Hne].
      * rewrite lookup_insert_eq. intros [= <-]. exact U2.
      * rewrite lookup_insert_ne by exact Hne. now apply J'.
    + intros info' [= <-]. exact U2.
  - split; [apply J'; auto|]. split; [auto|]. split; [discriminate|].
    reflexivity.
  - split; [now apply J'|]. split; [exact U1'|].
    split; [discriminate|reflexivity].
  - assert (N : anchored env (S i) (setBuckets rows (dest st)) None).
    { exists i. split; [lia|exact Ans]. }
    split; [|split; [exact U1'|split; [|reflexivity]]].
    + intros s info'. destruct (decide (sku = s)) as [<-|Hne].
      * rewrite lookup_insert_eq. intros [= <-]. exact N.
      * rewrite lookup_insert_ne by exact Hne. now apply J'.
    + intros info' [= <-]. exact N.
Qed.

Lemma processFile_ids i file st :
  (forall s info, bucketCache st !! s = Some info ->
                  anchored env i (dest st) (info_id info)) ->
  let st' := processFile env bucket basePath i file st in
  (forall s info, bucketCache st' !! s = Some info ->
                  anchored env (S i) (dest st') (info_id info)) /\
  (forall id, id ∈ bucketIds (dest st) -> id ∈ bucketIds (dest st')) /\
  exists added,
    media_assets (dest st') = media_assets (dest st) ++ added /\
    Forall (fun a => anchored env (S i) (dest st') (media_bucket_id a)) added.
Proof.
  intros J. unfold processFile, tryFile.
  assert (J0 : forall s info, bucketCache st !! s = Some info ->
                              anchored env (S i) (dest st) (info_id info)).
  { intros s info H.
    apply (anchored_grows env i (S i) (dest st) (dest st)); [lia|auto|].
    now apply (J s). }
  assert (Hnone : forall st0 : LoopState,
            media_assets (dest st0) = media_assets (dest st) ->
            exists added,
              media_assets (dest st0) = media_assets (dest st) ++ added /\
              Forall (fun a => anchored env (S i) (dest st0)
                                 (media_bucket_id a)) added).
  { intros st0 H. exists []. rewrite app_nil_r. split; [exact H|constructor]. }
  destruct (downloadDriveFile env i) as [buffer|e];
    [|simpl; split; [exact J0|split; [auto|now apply Hnone]]].
  destruct (negb (truthy (skuLabelOf (file_path file))));
    [simpl; split; [exact J0|split; [auto|now apply Hnone]]|].
  pose proof (resolveBucket_ids i file (skuLabelOf (file_path file)) st J)
    as (J1 & M1 & B1 & A1).
  destruct (resolveBucket env basePath i file (skuLabelOf (file_path file)) st)
    as [[info| |m] st1]; cbn [fst snd] in J1, M1, B1, A1.
  - specialize (B1 info eq_refl).
    destruct (uploadObject env i);
      [simpl; split; [exact J1|split; [exact M1|now apply Hnone]]|].
    destruct (insertError env i); simpl.
    + split; [exact J1|split; [exact M1|now apply Hnone]].
    + split; [exact J1|split; [exact M1|]].
      eexists [_]. rewrite A1. split; [reflexivity|].
      constructor; [exact B1|constructor].
  - split; [exact J1|split; [exact M1|now apply Hnone]].
  - simpl. split; [exact J1|split; [exact M1|now apply Hnone]].
Qed.

Lemma importFrom_ids files : forall i st,
  (forall s info, bucketCache st !! s = Some info ->
                  anchored env i (dest st) (info_id info)) ->
  let st' := importFrom env bucket basePath i files st in
  (forall id, id ∈ bucketIds (dest st) -> id ∈ bucketIds (dest st')) /\
  exists added,
    media_assets (dest st') = media_assets (dest st) ++ added /\
    Forall (fun a => anchored env (i + length files) (dest st')
                       (media_bucket_id a)) added.
Proof.
  induction files as [|file rest IH]; intros i st J; simpl.
  - split; [auto|]. exists []. rewrite app_nil_r. split; [reflexivity|].
    constructor.
  - destruct (processFile_ids i file st J) as (J1 & M1 & a1 & E1 & F1).
    destruct (IH (S i) _ J1) as (M2 & a2 & E2 & F2).
    split; [auto|]. exists (a1 ++ a2). split.
    + now rewrite E2, E1, <- app_assoc.
    + apply Forall_app. split.
      * eapply Forall_impl; [exact F1|]. intros a Ha.
        eapply anchored_grows; [|exact M2|exact Ha]. lia.
      * eapply Forall_impl; [exact F2|]. intros a Ha.
        eapply anchored_grows; [|intros x Hx; exact Hx|exact Ha]. lia.
Qed.

(** The counter goes up with the labels cached with an id, the cache with
    every label cached. *)
Lemma processFile_cache_size i file st :
  let st' := processFile env bucket basePath i file st in
  size (omap info_id (bucketCache st')) + bucketsCreated (results st)
    = size (omap info_id (bucketCache st)) + bucketsCreated (results st') /\
  size (bucketCache st) + bucketsCreated (results st')
    <= size (bucketCache st') + bucketsCreated (results st).
Proof.
  unfold processFile, tryFile, resolveBucket.
  branches;
    cbn [fst snd cacheSet withResults withDest bucketCache results
         bucketsCreated bumpBucketsCreated bumpUploaded bumpAssetsCreated
         bumpSkippedNoProduct recordFailure];
    try (split; lia).
  all: match goal with
       | H : bucketCache ?s !! ?k = None |- _ =>
           assert (O : omap info_id (bucketCache s) !! k = None)
             by (rewrite lookup_omap, H; reflexivity);
           rewrite omap_insert; cbn [info_id];
           rewrite ?(map_size_insert_None _ _ _ O), ?(delete_id _ _ O),
             (map_size_insert_None _ _ _ H)
       end.
  all: split; lia.
Qed.

Lemma importFrom_cache_size files : forall i st,
  let st' := importFrom env bucket basePath i files st in
  size (omap info_id (bucketCache st')) + bucketsCreated (results st)
    = size (omap info_id (bucketCache st)) + bucketsCreated (results st') /\
  size (bucketCache st) + bucketsCreated (results st')
    <= size (bucketCache st') + bucketsCreated (results st).
Proof.
  induction files as [|file rest IH]; intros i st; simpl; [split; lia|].
  pose proof (processFile_cache_size i file st) as H1.
  pose proof (IH (S i) (processFile env bucket basePath i file st)) as H2.
  simpl in H1, H2. split; lia.
Qed.

Lemma processFile_bucketsCreated i file st :
  bucketsCreated (results (processFile env bucket basePath i file st))
    <= S (bucketsCreated (results st)).
Proof.
  unfold processFile, tryFile, resolveBucket. branches; simpl; lia.
Qed.

Lemma importFrom_bucketsCreated files : forall i st,
  bucketsCreated (results (importFrom env bucket basePath i files st))
    <= bucketsCreated (results st) + length files.
Proof.
  induction files as [|file rest IH]; intros i st; simpl; [lia|].
  pose proof (processFile_bucketsCreated i file st) as H1.
  pose proof (IH (S i) (processFile env bucket basePath i file st)) as H2.
  lia.
Qed.

(** When one iteration bumps [bucketsCreated]: the download succeeded, the
    label is not cached yet and resolves to a product, and the upsert
    answered with a row that has an id. *)
Lemma processFile_bucketsCreated_step i file st :
  bucketsCreated (results (processFile env bucket basePath i file st))
  = bucketsCreated (results st)
    + match downloadDriveFile env i,
            bucketCache st !! skuLabelOf (file_path file),
            upsertAnswer env i with
      | inl _, None, Upserted =>
          if truthy (skuLabelOf (file_path file))
             && owned (products (dest st)) (skuLabelOf (file_path file))
          then 1 else 0
      | _, _, _ => 0
      end.
Proof.
  unfold processFile, tryFile, resolveBucket, owned.
  destruct (downloadDriveFile env i) as [buffer|e]; [|simpl; lia].
  destruct (truthy (skuLabelOf (file_path file))); simpl negb; cbv iota.
  2:{ simpl. destruct (bucketCache st !! _); [lia|].
      destruct (upsertAnswer env i); lia. }
  destruct (bucketCache st !! skuLabelOf (file_path file)) as [info|].
  { destruct (uploadObject env i); [simpl; lia|].
    destruct (insertError env i); simpl; lia. }
  destruct (singleProduct _ _) as [p|].
  2:{ simpl. destruct (upsertAnswer env i); lia. }
  destruct (truthy (product_row_id p)); simpl negb; cbv iota.
  2:{ simpl. destruct (upsertAnswer env i); lia. }
  destruct (upsertByProduct _ _) as [rows mb].
  destruct (upsertAnswer env i); simpl; try lia.
  all: destruct (uploadObject env i); [simpl; lia|].
  all: destruct (insertError env i); simpl; lia.
Qed.

End Buckets.

Lemma importFrom_sameView env1 env2 bucket basePath files :
  sameBehaviour env1 env2 ->
  forall i st1 st2,
    sameView st1 st2 ->
    sameView (importFrom env1 bucket basePath i files st1)
             (importFrom env2 bucket basePath i files st2).
Proof.
  intros agree. induction files as [|file rest IH]; intros i st1 st2 Hv;
    [exact Hv|].
  simpl. apply IH.
  now destruct (processFile_sameView env1 env2 bucket basePath agree i file
                  st1 st2 Hv) as (Hv' & _).
Qed.

(** Two runs in step bump [bucketsCreated] on the same files. *)
Lemma importFrom_bucketsCreated_parity env1 env2 bucket basePath files :
  sameBehaviour env1 env2 ->
  forall i st1 st2,
    sameView st1 st2 ->
    bucketsCreated (results (importFrom env1 bucket basePath i files st1))
    + bucketsCreated (results st2)
    = bucketsCreated (results (importFrom env2 bucket basePath i files st2))
      + bucketsCreated (results st1).
Proof.
  intros agree. induction files as [|file rest IH]; intros i st1 st2 Hv;
    [simpl; lia|].
  simpl.
  destruct (processFile_sameView env1 env2 bucket basePath agree i file
              st1 st2 Hv) as (Hv' & _).
  specialize (IH (S i) _ _ Hv').
  pose proof (processFile_bucketsCreated_step env1 bucket basePath i file st1)
    as B1.
  pose proof (processFile_bucketsCreated_step env2 bucket basePath i file st2)
    as B2.
  destruct Hv as [Hp Hc]. destruct (agree i) as (Hd & Hu & _).
  unfold downloads in Hd. rewrite <- Hp, <- Hu in B2.
  specialize (Hc (skuLabelOf (file_path file))).
  destruct (downloadDriveFile env1 i), (downloadDriveFile env2 i);
    try discriminate; try lia.
  destruct (bucketCache st1 !! skuLabelOf (file_path file)) as [i1|],
           (bucketCache st2 !! skuLabelOf (file_path file)) as [i2|];
    try lia.
  - destruct Hc as [_ Hc]. specialize (Hc eq_refl). discriminate.
  - destruct Hc as [Hc _]. specialize (Hc eq_refl). discriminate.
Qed.

(** X17.  Every row a run adds to [media_assets] carries in
    [media_bucket_id] the id of a row that is in [media_buckets] when the
    run ends, or nothing at all when the upsert made for one of the files
    answered with a row that has no id; with a record store that always
    hands back the id, every such row points to a bucket.  Rows of
    [media_buckets] keep their ids through the run. *)
Theorem new_assets_point_to_buckets
    (env : Collaborators) (bucket basePath : string)
    (files : list RemoteFile) (d : Destination) :
  let st := importFiles env bucket basePath files d in
  (forall id, id ∈ bucketIds d -> id ∈ bucketIds (dest st)) /\
  exists added,
    media_assets (dest st) = media_assets d ++ added /\
    Forall (fun a => anchored env (length files) (dest st)
                       (media_bucket_id a)) added /\
    ((forall j, j < length files ->
                upsertAnswer env j <> UpsertedWithoutId) ->
     Forall (fun a => exists id, media_bucket_id a = Some id /\
                                 id ∈ bucketIds (dest st)) added).
Proof.
  intros st.
  destruct (importFrom_ids env bucket basePath files 0 (freshLoop files d))
    as (M & added & E & F).
  { intros s info H. simpl in H. now rewrite lookup_empty in H. }
  split; [exact M|]. exists added. split; [exact E|]. split; [exact F|].
  intros Hids. eapply Forall_impl; [exact F|].
  intros a Ha. unfold anchored in Ha.
  destruct (media_bucket_id a) as [id|].
  - now exists id.
  - destruct Ha as (j & Hj & Hans). now destruct (Hids j Hj).
Qed.

Lemma new_assets_point_to_buckets_witness :
  exists added,
    media_assets ImportFixtures.afterFirstRun = [] ++ added /\
    Forall (fun a => exists id, media_bucket_id a = Some id /\
                                id ∈ bucketIds ImportFixtures.afterFirstRun)
      added.
Proof.
  destruct (new_assets_point_to_buckets ImportFixtures.reliable
              ImportFixtures.storj EmptyString ImportFixtures.fiveFiles
              ImportFixtures.emptyDestination) as (_ & added & E & _ & F).
  exists added. split; [exact E|]. apply F. intros j _. discriminate.
Defined.

(** X18.  [bucketsCreated] is the number of labels the run has cached with
    an id: it is bumped once per label for which the upsert answered with a
    row that has one, however many files sit under the label and whether
    the upsert added the row or rewrote it; a label whose row came back
    without an id is cached and not counted.  A second run over the same
    listing reports the same [bucketsCreated] as the first, although
    [media_buckets] has no more rows after it than before. *)
Theorem bucketsCreated_counts_upserts
    (env1 env2 : Collaborators) (bucket basePath : string)
    (files : list RemoteFile) (d : Destination) :
  sameBehaviour env1 env2 ->
  let st1 := importFiles env1 bucket basePath files d in
  let st2 := importFiles env2 bucket basePath files (dest st1) in
  bucketsCreated (results st1) = size (omap info_id (bucketCache st1)) /\
  bucketsCreated (results st1) <= size (bucketCache st1) /\
  bucketsCreated (results st1) <= length files /\
  bucketsCreated (results st2) = bucketsCreated (results st1) /\
  length (media_buckets (dest st2)) = length (media_buckets (dest st1)).
Proof.
  intros agree st1 st2.
  pose proof (importFrom_cache_size env1 bucket basePath files 0
                (freshLoop files d)) as [S1 L1].
  cbn [freshLoop bucketCache results initialResults bucketsCreated]
    in S1, L1.
  rewrite omap_empty, map_size_empty in S1. rewrite map_size_empty in L1.
  change (importFrom env1 bucket basePath 0 files (freshLoop files d))
    with st1 in S1, L1.
  assert (Hview : sameView (freshLoop files d) (freshLoop files (dest st1))).
  { split; [|tauto]. simpl. symmetry.
    apply (importFrom_products env1 bucket basePath files 0
             (freshLoop files d)). }
  pose proof (importFrom_bucketsCreated_parity env1 env2 bucket basePath
                files agree 0 _ _ Hview) as Hpar.
  cbn [freshLoop results initialResults bucketsCreated] in Hpar.
  change (importFrom env1 bucket basePath 0 files (freshLoop files d))
    with st1 in Hpar.
  change (importFrom env2 bucket basePath 0 files (freshLoop files (dest st1)))
    with st2 in Hpar.
  split; [lia|]. split; [lia|]. split; [|split; [lia|]].
  - pose proof (importFrom_bucketsCreated env1 bucket basePath files 0
                  (freshLoop files d)) as Hb.
    simpl in Hb. exact Hb.
  - assert (Hkeys : bucketKeys (dest st2) = bucketKeys (dest st1)).
    { apply (importFrom_keys_fixed env1 env2 bucket basePath agree files 0
               (freshLoop files d) (freshLoop files (dest st1)) Hview).
      intros k Hk. exact Hk. }
    unfold bucketKeys in Hkeys.
    rewrite <- (length_map product_id (media_buckets (dest st2))), Hkeys.
    apply length_map.
Qed.

Lemma bucketsCreated_counts_upserts_witness :
  bucketsCreated
    (results (importFiles ImportFixtures.nextDay ImportFixtures.storj
                EmptyString ImportFixtures.fiveFiles
                ImportFixtures.afterFirstRun))
  = bucketsCreated
      (results (importFiles ImportFixtures.reliable ImportFixtures.storj
                  EmptyString ImportFixtures.fiveFiles
                  ImportFixtures.emptyDestination)).
Proof.
  refine (proj1 (proj2 (proj2 (proj2
            (bucketsCreated_counts_upserts ImportFixtures.reliable
               ImportFixtures.nextDay ImportFixtures.storj EmptyString
               ImportFixtures.fiveFiles ImportFixtures.emptyDestination _))))).
  intros i. repeat split.
Defined.

(** A record store that hands back rows without ids: the two labels are
    cached, none is counted, and the four assets carry no bucket id. *)
Example buckets_without_ids :
  let st := importFiles withoutIds ImportFixtures.storj EmptyString
              ImportFixtures.fiveFiles ImportFixtures.emptyDestination in
  bucketsCreated (results st) = 0 /\
  size (bucketCache st) = 2 /\
  assetsCreated (results st) = 4 /\
  map media_bucket_id (media_assets (dest st)) = [None; None; None; None].
Proof. vm_compute. repeat split; reflexivity. Qed.

(** ** Files that have no product *)

Section Unowned.

Variable env : Collaborators.
Variable bucket basePath : string.
Variable table : list Product.

Lemma processFile_unowned i file st :
  cacheSound table st ->
  file_path file = EmptyString \/
  startsWithSlash (file_path file) = true \/
  owned table (skuLabelOf (file_path file)) = false ->
  let st' := processFile env bucket basePath i file st in
  dest st' = dest st /\ bucketCache st' = bucketCache st /\
  uploaded (results st') = uploaded (results st) /\
  assetsCreated (results st') = assetsCreated (results st) /\
  bucketsCreated (results st') = bucketsCreated (results st).
Proof.
  intros Hs H. unfold processFile, tryFile.
  destruct (downloadDriveFile env i) as [buffer|e]; [|simpl; auto].
  destruct (truthy (skuLabelOf (file_path file))) eqn:T; simpl negb; cbv iota;
    [|simpl; auto].
  assert (Hown : owned table (skuLabelOf (file_path file)) = false).
  { destruct H as [H|[H|H]]; [| |exact H]; exfalso.
    - assert (F : truthy (skuLabelOf (file_path file)) = false)
        by (apply label_missing; now left).
      congruence.
    - assert (F : truthy (skuLabelOf (file_path file)) = false)
        by (apply label_missing; now right).
      congruence. }
  erewrite resolve_unowned; [|exact Hs|exact Hown]. simpl. auto.
Qed.

Lemma importFrom_unowned files : forall i st,
  cacheSound table st ->
  Forall (fun f => file_path f = EmptyString \/
                   startsWithSlash (file_path f) = true \/
                   owned table (skuLabelOf (file_path f)) = false) files ->
  let st' := importFrom env bucket basePath i files st in
  dest st' = dest st /\
  uploaded (results st') = uploaded (results st) /\
  assetsCreated (results st') = assetsCreated (results st) /\
  bucketsCreated (results st') = bucketsCreated (results st).
Proof.
  induction files as [|file rest IH]; intros i st Hs Hall; simpl; [auto|].
  apply Forall_cons in Hall as [Hf Hrest].
  destruct (processFile_unowned i file st Hs Hf) as (D & C & U & A & B).
  assert (Hs' : cacheSound table (processFile env bucket basePath i file st)).
  { destruct Hs as [Hp Hc]. split; [now rewrite D|]. now rewrite C. }
  destruct (IH (S i) _ Hs' Hrest) as (D' & U' & A' & B').
  repeat split; congruence.
Qed.

End Unowned.

(** X19.  A listing in which no file has a label that resolves to a
    product (the path is empty or starts with a slash, or the label matches
    no single product with an id) leaves the destination exactly as it was:
    nothing is uploaded, no bucket and no asset is written, and every file
    is counted as skipped or as failed. *)
Theorem files_without_a_product_change_nothing
    (env : Collaborators) (bucket basePath : string)
    (files : list RemoteFile) (d : Destination) :
  Forall (fun f => file_path f = EmptyString \/
                   startsWithSlash (file_path f) = true \/
                   owned (products d) (skuLabelOf (file_path f)) = false)
    files ->
  let r := results (importFiles env bucket basePath files d) in
  dest (importFiles env bucket basePath files d) = d /\
  uploaded r = 0 /\ assetsCreated r = 0 /\ bucketsCreated r = 0 /\
  skippedNoProduct r + failed r = length files.
Proof.
  intros Hall r.
  assert (Hs : cacheSound (products d) (freshLoop files d)).
  { split; [reflexivity|]. intros sku info H. simpl in H.
    now rewrite lookup_empty in H. }
  destruct (importFrom_unowned env bucket basePath (products d) files 0
              (freshLoop files d) Hs Hall) as (D & U & A & B).
  pose proof (importFrom_accounting env bucket basePath files 0
                (freshLoop files d)) as (_ & Hset & _).
  unfold settled in Hset. simpl in *.
  change (importFrom env bucket basePath 0 files (freshLoop files d))
    with (importFiles env bucket basePath files d) in *.
  fold r in U, A, B, Hset. repeat split; try assumption. lia.
Qed.

Lemma files_without_a_product_change_nothing_witness :
  dest (importFiles ImportFixtures.reliable ImportFixtures.storj EmptyString
          (stray :: ImportFixtures.fiveFiles) noProducts)
  = noProducts.
Proof.
  refine (proj1 (files_without_a_product_change_nothing
                   ImportFixtures.reliable ImportFixtures.storj EmptyString
                   (stray :: ImportFixtures.fiveFiles) noProducts _)).
  repeat constructor; right; first [left; reflexivity|right; reflexivity].
Defined.

(** ** Object keys *)

Lemma key_shape basePath path :
  truthy (skuLabelOf path) = true ->
  startsWithSlash basePath = false ->
  joinTruthy "/" [basePath; path]
    = (if truthy basePath then (basePath ++ String "/" path)%string else path)
  /\ startsWithSlash (joinTruthy "/" [basePath; path]) = false.
Proof.
  intros Hl Hb.
  assert (Hp : path <> EmptyString /\ startsWithSlash path = false).
  { split.
    - intros ->. discriminate.
    - destruct (startsWithSlash path) eqn:E; [|reflexivity].
      assert (F : truthy (skuLabelOf path) = false)
        by (apply label_missing; now right).
      congruence. }
  destruct Hp as [Hne Hs].
  destruct path as [|c rest]; [congruence|].
  destruct basePath as [|b base]; unfold joinTruthy; simpl.
  - split; [reflexivity|exact Hs].
  - split; [reflexivity|exact Hb].
Qed.

Section Keys.

Variable env : Collaborators.
Variable bucket basePath : string.

Lemma processFile_objects i file st :
  let st' := processFile env bucket basePath i file st in
  objects (dest st') = objects (dest st) \/
  (truthy (skuLabelOf (file_path file)) = true /\
   exists buffer,
     objects (dest st')
     = objects (dest st)
       ++ [{| object_bucket := bucket;
              object_key := joinTruthy "/" [basePath; file_path file];
              object_body := buffer;
              object_contentType := file_mimeType file |}]).
Proof.
  unfold processFile, tryFile, resolveBucket.
  branches; simpl;
    first [ left; reflexivity
          | right; split;
            [now apply negb_false_iff|eexists; reflexivity] ].
Qed.

Lemma importFrom_objects files : forall i st,
  startsWithSlash basePath = false ->
  let st' := importFrom env bucket basePath i files st in
  exists stored,
    objects (dest st') = objects (dest st) ++ stored /\
    Forall (fun o =>
              object_bucket o = bucket /\
              startsWithSlash (object_key o) = false /\
              exists f, f ∈ files /\
                object_key o
                = (if truthy basePath
                   then (basePath ++ String "/" (file_path f))%string
                   else file_path f) /\
                object_contentType o = file_mimeType f) stored.
Proof.
  induction files as [|file rest IH]; intros i st Hb; simpl.
  - exists []. rewrite app_nil_r. split; [reflexivity|constructor].
  - destruct (IH (S i) (processFile env bucket basePath i file st) Hb)
      as (s2 & E2 & F2).
    assert (F2' : Forall (fun o =>
              object_bucket o = bucket /\
              startsWithSlash (object_key o) = false /\
              exists f, f ∈ file :: rest /\
                object_key o
                = (if truthy basePath
                   then (basePath ++ String "/" (file_path f))%string
                   else file_path f) /\
                object_contentType o = file_mimeType f) s2).
    { eapply Forall_impl; [exact F2|].
      intros o (B & K & f & Hin & Hk & Hc). split; [exact B|].
      split; [exact K|]. exists f. split; [now right|now split]. }
    destruct (processFile_objects i file st) as [E1|(Hl & buffer & E1)].
    + exists s2. split; [now rewrite E2, E1|exact F2'].
    + eexists (_ :: s2). split.
      * rewrite E2, E1, <- app_assoc. reflexivity.
      * constructor; [|exact F2'].
        destruct (key_shape basePath (file_path file) Hl Hb) as [K1 K2].
        simpl. split; [reflexivity|]. split; [exact K2|].
        exists file. split; [left|]. split; [exact K1|reflexivity].
Qed.

End Keys.

(** X20.  With a base path that does not start with a slash, as
    [cleanPrefix] returns it, every object a run stores goes to the
    configured bucket under a key that does not start with a slash: the
    path of a listed file as it is, or the base path, one slash and that
    path; its content type is the MIME type of that file. *)
Theorem objects_are_stored_under_relative_keys
    (env : Collaborators) (bucket basePath : string)
    (files : list RemoteFile) (d : Destination) :
  startsWithSlash basePath = false ->
  let st := importFiles env bucket basePath files d in
  exists stored,
    objects (dest st) = objects d ++ stored /\
    Forall (fun o =>
              object_bucket o = bucket /\
              startsWithSlash (object_key o) = false /\
              exists f, f ∈ files /\
                object_key o
                = (if truthy basePath
                   then (basePath ++ String "/" (file_path f))%string
                   else file_path f) /\
                object_contentType o = file_mimeType f) stored.
Proof.
  intros Hb.
  apply (importFrom_objects env bucket basePath files 0 (freshLoop files d) Hb).
Qed.

Lemma objects_are_stored_under_relative_keys_witness :
  exists stored,
    objects (dest (importFiles ImportFixtures.reliable ImportFixtures.storj
                     (cleanPrefix (Some "/imports/2024/"))
                     ImportFixtures.fiveFiles
                     ImportFixtures.emptyDestination))
    = objects ImportFixtures.emptyDestination ++ stored /\
    Forall (fun o => startsWithSlash (object_key o) = false) stored.
Proof.
  destruct (objects_are_stored_under_relative_keys ImportFixtures.reliable
              ImportFixtures.storj (cleanPrefix (Some "/imports/2024/"))
              ImportFixtures.fiveFiles ImportFixtures.emptyDestination
              eq_refl) as (stored & E & F).
  exists stored. split; [exact E|].
  eapply Forall_impl; [exact F|]. intros o (_ & K & _). exact K.
Defined.

End ImportExtras.

(** * Properties of the product payloads *)

Module ValidateExtras.

Import ProductValidate.
Local Open Scope list_scope.

(** ** Trimming *)

Lemma trimStart_head s : startsWithSpace (trimStart s) = false.
Proof.
  induction s as [|c rest IH]; [reflexivity|].
  simpl. destruct (isWhiteSpace c) eqn:E; [exact IH|]. simpl. exact E.
Qed.

Lemma trimStart_clean s : startsWithSpace s = false -> trimStart s = s.
Proof. destruct s as [|c rest]; simpl; [reflexivity|]. now intros ->. Qed.

Lemma trimEnd_last s : endsWithSpace (trimEnd s) = false.
Proof.
  induction s as [|c rest IH]; [reflexivity|].
  simpl. destruct (trimEnd rest) as [|c' rest'].
  - destruct (isWhiteSpace c) eqn:E; [reflexivity|]. simpl. exact E.
  - exact IH.
Qed.

Lemma trimEnd_clean s : endsWithSpace s = false -> trimEnd s = s.
Proof.
  induction s as [|c rest IH]; [reflexivity|].
  intros H. simpl. destruct rest as [|c' rest'].
  - simpl in *. now rewrite H.
  - rewrite (IH H). reflexivity.
Qed.

Lemma trimEnd_head s :
  startsWithSpace s = false -> startsWithSpace (trimEnd s) = false.
Proof.
  destruct s as [|c rest]; [reflexivity|].
  simpl. intros H. destruct (trimEnd rest); rewrite ?H; simpl; exact H.
Qed.

Lemma trim_shape s :
  startsWithSpace (trim s) = false /\ endsWithSpace (trim s) = false.
Proof.
  unfold trim. split.
  - apply trimEnd_head, trimStart_head.
  - apply trimEnd_last.
Qed.

Lemma trim_clean s :
  startsWithSpace s = false -> endsWithSpace s = false -> trim s = s.
Proof.
  intros H1 H2. unfold trim. rewrite (trimStart_clean _ H1).
  now apply trimEnd_clean.
Qed.

Lemma trim_idempotent s : trim (trim s) = trim s.
Proof. destruct (trim_shape s) as [H1 H2]. now apply trim_clean. Qed.

Lemma trimStart_comma s : hasComma s = false -> hasComma (trimStart s) = false.
Proof.
  induction s as [|c rest IH]; [reflexivity|].
  simpl. intros H. destruct (isWhiteSpace c); [|exact H].
  apply orb_false_iff in H as [_ H]. now apply IH.
Qed.

Lemma trimEnd_comma s : hasComma s = false -> hasComma (trimEnd s) = false.
Proof.
  induction s as [|c rest IH]; [reflexivity|].
  simpl. intros H. apply orb_false_iff in H as [Hc Hrest].
  specialize (IH Hrest). destruct (trimEnd rest) as [|c' rest'].
  - destruct (isWhiteSpace c); [reflexivity|]. simpl. now rewrite Hc.
  - change (Ascii.eqb c "," || hasComma (String c' rest') = false).
    now rewrite Hc, IH.
Qed.

Lemma trim_comma s : hasComma s = false -> hasComma (trim s) = false.
Proof. intros H. apply trimEnd_comma, trimStart_comma, H. Qed.

(** ** Splitting at the commas *)

Lemma split_never_empty sep s : GDriveImport.split sep s <> [].
Proof.
  destruct s as [|c rest]; simpl; [discriminate|].
  destruct (Ascii.eqb c sep); [discriminate|].
  destruct (GDriveImport.split sep rest); discriminate.
Qed.

Lemma split_comma_free s :
  Forall (fun seg => hasComma seg = false) (GDriveImport.split "," s).
Proof.
  induction s as [|c rest IH]; simpl; [repeat constructor|].
  destruct (Ascii.eqb c ",") eqn:E; [now constructor|].
  destruct (GDriveImport.split "," rest) as [|seg segs];
    [repeat constructor; simpl; now rewrite E|].
  apply Forall_cons in IH as [Hseg Hsegs].
  constructor; [|exact Hsegs]. simpl. now rewrite E, Hseg.
Qed.

Lemma split_no_comma s :
  hasComma s = false -> GDriveImport.split "," s = [s].
Proof.
  induction s as [|c rest IH]; [reflexivity|].
  simpl. intros H. apply orb_false_iff in H as [Hc Hrest].
  rewrite Hc, (IH Hrest). reflexivity.
Qed.

Lemma split_comma_app a b :
  GDriveImport.split "," (a ++ String "," b)
  = GDriveImport.split "," a ++ GDriveImport.split "," b.
Proof.
  induction a as [|c a IH]; [reflexivity|].
  simpl. rewrite IH. destruct (Ascii.eqb c ","); [reflexivity|].
  destruct (GDriveImport.split "," a) as [|seg segs] eqn:S.
  - now destruct (split_never_empty "," a).
  - reflexivity.
Qed.

Lemma splitTags_clean s :
  Forall (fun t => trim t = t /\ GDriveImport.truthy t = true /\
                   hasComma t = false) (splitTags s).
Proof.
  unfold splitTags. pose proof (split_comma_free s) as H.
  induction H as [|seg segs Hseg _ IH]; simpl; [constructor|].
  destruct (GDriveImport.truthy (trim seg)) eqn:T; [|exact IH].
  constructor; [|exact IH].
  split; [apply trim_idempotent|]. split; [exact T|now apply trim_comma].
Qed.

Lemma splitTags_space text : splitTags (String " " text) = splitTags text.
Proof.
  unfold splitTags. simpl.
  destruct (GDriveImport.split "," text) as [|seg segs] eqn:S.
  - now destruct (split_never_empty "," text).
  - reflexivity.
Qed.

Lemma splitTags_app a b :
  splitTags (a ++ String "," b) = splitTags a ++ splitTags b.
Proof.
  unfold splitTags. now rewrite split_comma_app, map_app, List.filter_app.
Qed.

Lemma splitTags_one t :
  trim t = t -> GDriveImport.truthy t = true -> hasComma t = false ->
  splitTags t = [t].
Proof.
  intros Ht Hn Hc. unfold splitTags. rewrite (split_no_comma _ Hc).
  simpl. now rewrite Ht, Hn.
Qed.

Lemma splitTags_join tags :
  Forall (fun t => trim t = t /\ GDriveImport.truthy t = true /\
                   hasComma t = false) tags ->
  splitTags (String.concat ", " tags) = tags.
Proof.
  induction tags as [|t rest IH]; intros H; [reflexivity|].
  apply Forall_cons in H as [(Ht & Hn & Hc) Hrest].
  destruct rest as [|t' rest'].
  - simpl. now apply splitTags_one.
  - change (String.concat ", " (t :: t' :: rest'))
      with (t ++ String "," (String " " (String.concat ", " (t' :: rest'))))
             %string.
    rewrite splitTags_app, splitTags_space, (IH Hrest).
    now rewrite (splitTags_one _ Ht Hn Hc).
Qed.

Lemma normalizeTags_text s :
  normalizeTags (JPrimitive (PString s)) = splitTags s.
Proof. destruct s; reflexivity. Qed.


Lemma normalizeTags_nonblank v :
  Forall (fun t => GDriveImport.truthy (trim t) = true) (normalizeTags v).
Proof.
  unfold normalizeTags. destruct (negb (jsTruthy v)); [constructor|].
  destruct v as [[| | | |s]|items|]; try constructor.
  - eapply Forall_impl; [apply splitTags_clean|].
    intros t (Ht & Hn & _). now rewrite Ht.
  - apply Forall_forall. intros t Hin.
    apply list_elem_of_omap in Hin as (item & _ & Hk).
    destruct item as [[| | | |s]|]; try discriminate. simpl in Hk.
    destruct (GDriveImport.truthy (trim s)) eqn:T; [|discriminate].
    now injection Hk as <-.
Qed.



(** X22.  The product page shows the tags joined by a comma and a space
    and, on saving, splits the field at the commas, trims the pieces and
    drops the empty ones.  Tags come back from that unchanged exactly when
    each of them is trimmed, not empty and free of commas; the tags that
    [normalizeTags] takes from a text are of that kind. *)
Theorem tags_survive_the_form (stored : list string) :
  (splitTags (tagsField (Some stored)) = stored <->
   Forall (fun t => trim t = t /\ GDriveImport.truthy t = true /\
                    hasComma t = false) stored) /\
  (forall text, stored = normalizeTags (JPrimitive (PString text)) ->
     splitTags (tagsField (Some stored)) = stored) /\
  splitTags (tagsField None) = [].
Proof.
  split; [split|split].
  - intros H. rewrite <- H. apply splitTags_clean.
  - apply splitTags_join.
  - intros text ->. rewrite normalizeTags_text.
    apply splitTags_join, splitTags_clean.
  - reflexivity.
Qed.

Lemma tags_survive_the_form_witness :
  splitTags (tagsField (Some ["leather"; "cuffs"; "red"]%string))
  = ["leather"; "cuffs"; "red"]%string.
Proof.
  apply (proj2 (proj1 (tags_survive_the_form
                         ["leather"; "cuffs"; "red"]%string))).
  repeat constructor.
Defined.

(** A tag with a comma in it, which [normalizeTags] accepts from an array,
    comes back from the form as two. *)
Example tag_with_a_comma :
  normalizeTags (strings ["cuffs, red"]%string) = ["cuffs, red"]%string /\
  splitTags (tagsField (Some ["cuffs, red"]%string))
  = ["cuffs"; "red"]%string.
Proof. split; reflexivity. Qed.

(** ** The payload builders *)

Lemma coalesce_defined v d :
  d <> JPrimitive PUndefined -> coalesce v d <> JPrimitive PUndefined.
Proof. intros Hd. destruct v as [[| | | |]| |]; simpl; congruence. Qed.

Lemma coalesce_null v : coalesce v null <> JPrimitive PUndefined.
Proof. apply coalesce_defined. discriminate. Qed.

Lemma maybeSet_lookup body key init k :
  maybeSet body key init !! k
  = if decide (key = k)
    then match body !! k with
         | Some v =>
             Some (if String.eqb k "tags"
                   then strings (normalizeTags (field body "tags"))
                   else coalesce v null)
         | None => init !! k
         end
    else init !! k.
Proof.
  unfold maybeSet. destruct (decide (key = k)) as [->|Hne].
  - destruct (body !! k); [|reflexivity].
    destruct (String.eqb k "tags"); now rewrite lookup_insert_eq.
  - destruct (body !! key); [|reflexivity].
    destruct (String.eqb key "tags"); now rewrite lookup_insert_ne.
Qed.

Lemma foldl_maybeSet body keys : forall init k,
  foldl (fun update key => maybeSet body key update) init keys !! k
  = if bool_decide (k ∈ keys)
    then match body !! k with
         | Some v =>
             Some (if String.eqb k "tags"
                   then strings (normalizeTags (field body "tags"))
                   else coalesce v null)
         | None => init !! k
         end
    else init !! k.
Proof.
  induction keys as [|key keys IH]; intros init k; cbn [foldl].
  - rewrite bool_decide_eq_false_2; [reflexivity|]. apply not_elem_of_nil.
  - rewrite IH, maybeSet_lookup. destruct (decide (key = k)) as [->|Hne].
    + rewrite (bool_decide_eq_true_2 (k ∈ k :: keys)) by left.
      destruct (bool_decide (k ∈ keys)); destruct (body !! k); reflexivity.
    + destruct (bool_decide (k ∈ keys)) eqn:B.
      * apply bool_decide_eq_true in B.
        rewrite bool_decide_eq_true_2 by (now right). reflexivity.
      * apply bool_decide_eq_false in B.
        rewrite bool_decide_eq_false_2; [reflexivity|].
        intros [Heq|Hin]%elem_of_cons; [congruence|contradiction].
Qed.

(** X23.  [buildUpdatePayload] rejects what is not an object and nothing
    else.  For an object the payload holds exactly the keys of the body
    that are among the thirteen product fields: a key the body lacks is
    not set, a key outside the list never gets through.  The value of
    [tags] is normalized, any other value is passed on with [null] in the
    place of [undefined], so no value of the payload is [undefined]. *)
Theorem update_payload_keeps_only_provided_fields (body : Body) :
  match buildUpdatePayload body with
  | Rejected e => e = "Invalid body"%string /\ exists p, body = BPrimitive p
  | Payload update =>
      exists fields,
        body = BObject fields /\
        (forall k,
           update !! k
           = if bool_decide (k ∈ updatableKeys)
             then match fields !! k with
                  | Some v =>
                      Some (if String.eqb k "tags"
                            then strings (normalizeTags v)
                            else coalesce v null)
                  | None => None
                  end
             else None) /\
        (forall k v, update !! k = Some v -> v <> JPrimitive PUndefined)
  end.
Proof.
  destruct body as [fields|p].
  - simpl. exists fields. split; [reflexivity|].
    assert (H : forall k,
              foldl (fun update key => maybeSet fields key update) ∅
                updatableKeys !! k
              = if bool_decide (k ∈ updatableKeys)
                then match fields !! k with
                     | Some v =>
                         Some (if String.eqb k "tags"
                               then strings (normalizeTags v)
                               else coalesce v null)
                     | None => None
                     end
                else None).
    { intros k. rewrite foldl_maybeSet, lookup_empty.
      destruct (bool_decide (k ∈ updatableKeys)); [|reflexivity].
      destruct (fields !! k) as [v|] eqn:E; [|reflexivity].
      destruct (String.eqb k "tags") eqn:T; [|reflexivity].
      apply String.eqb_eq in T. subst k. unfold field. now rewrite E. }
    split; [exact H|].
    intros k v. rewrite H.
    destruct (bool_decide (k ∈ updatableKeys)); [|discriminate].
    destruct (fields !! k) as [w|]; [|discriminate].
    intros [= <-]. destruct (String.eqb k "tags"); [discriminate|].
    apply coalesce_null.
  - assert (R : buildUpdatePayload (BPrimitive p) = Rejected "Invalid body").
    { unfold buildUpdatePayload.
      destruct p as [| |b|n|s]; simpl; try reflexivity;
        now rewrite orb_true_r. }
    rewrite R. split; [reflexivity|now exists p].
Qed.

(** The case the tests check: only the two fields provided come back. *)
Example update_of_title_and_tags :
  buildUpdatePayload
    (BObject (<["title" := JPrimitive (PString "New")]>
                (<["tags" := strings ["x"]%string]> ∅)))
  = Payload (<["title" := JPrimitive (PString "New")]>
               (<["tags" := strings ["x"]%string]> ∅)).
Proof. vm_compute. reflexivity. Qed.

(** X24.  [buildCreatePayload] rejects a body exactly when its [title] is
    not a string with something in it.  In a payload it builds, the title
    is the one given, no field is [undefined], [status] is never [null]
    and is ['active'] when the body has none, and the tags are not
    blank. *)
Theorem create_payload_requires_a_title (body : Fields) :
  match buildCreatePayload body with
  | Rejected e =>
      e = "title is required"%string /\
      forall c rest,
        body !! "title"%string <> Some (JPrimitive (PString (String c rest)))
  | Payload p =>
      (exists c rest,
         body !! "title"%string = Some (JPrimitive (PString (String c rest))) /\
         title p = JPrimitive (PString (String c rest))) /\
      Forall (fun v => v <> JPrimitive PUndefined)
        [handle p; sku_label p; vendor p; product_type p; status p;
         shopify_status p; description p; description_html p; metadata p;
         shopify_product_id p; shopify_published_at p] /\
      status p <> null /\
      (body !! "status"%string = None ->
       status p = JPrimitive (PString "active")) /\
      Forall (fun t => GDriveImport.truthy (trim t) = true) (tags p)
  end.
Proof.
  unfold buildCreatePayload, field.
  destruct (body !! "title"%string) as [[[| | | |[|c rest]]| |]|] eqn:T;
    simpl; rewrite ?orb_true_r;
    try (split; [reflexivity|intros; discriminate]).
  split; [now exists c, rest|]. split.
  - repeat constructor; try apply coalesce_null.
    apply coalesce_defined. discriminate.
  - split; [|split].
    + destruct (body !! "status"%string) as [[[| | | |]| |]|]; discriminate.
    + now intros ->.
    + apply normalizeTags_nonblank.
Qed.

End ValidateExtras.
